(** * MusicStructureVisualizer: tempo-aligned windowing and Morton mapping

    A shallow embedding of the algorithmic core of the visualizer:
    - [z-order.js] / [z-order.ts]: Morton (Z-order) interleaving,
    - [audio-processor]: RMS power of one window,
    - [visualizer]: colour mapping and cached redraw,
    - [playback]: time <-> canvas coordinate mapping and the time label,
    - [ui-controller2.ts]: [processAudio], [processMonoMode],
      [processRGBMode] and [updateVisualizationWithOffset].

    How JavaScript numbers are represented.  A JS [number] plays three
    different roles in these sources and each role gets the Rocq type that
    carries its laws:
    - integers used as bit patterns, array indices, loop counters and canvas
      sizes are [Z]; the bitwise operators go through [ToInt32] exactly as
      ECMAScript prescribes;
    - tempo and time quantities (bpm, seconds, the window interval) are
      binary64 numbers ([Binary64], on the Standard Library's [SpecFloat]):
      [Schedule64], [Controller64] and [Playback] compute the interval, the
      window count, the start samples and the playback mapping with every
      operation rounded as the program rounds it.  [Schedule] and
      [Controller] are the same code read in exact rationals [Q]; they serve
      the canvas geometry, which is integer arithmetic, and the properties
      whose statement the rounding does not enter;
    - audio samples are reals [R] and a computed power is a [number], a real
      extended with [NaN] and the two infinities, because the sources divide
      and take square roots and some claims are about [NaN].               *)

From Stdlib Require Import ZArith QArith Qround Qpower Reals Bool List Lia Psatz.
From Stdlib Require Import SpecFloat.
From Stdlib Require String DecimalString.
Import ListNotations.

Local Open Scope Z_scope.

(** ** Counted loops

    [for (let i = lo; ...; i++) body] run for [n] iterations from counter
    [i]; the loop state is threaded through [body]. *)

Fixpoint for_loop {S : Type} (n : nat) (i : Z) (body : Z -> S -> S) (s : S) : S :=
  match n with
  | O => s
  | Datatypes.S n' => for_loop n' (i + 1) body (body i s)
  end.

(** [for (let i = lo; i < hi; i++)]. *)
Definition for_range {S : Type} (lo hi : Z) (body : Z -> S -> S) (s : S) : S :=
  for_loop (Z.to_nat (hi - lo)) lo body s.

(** ** 32-bit integer operators of JavaScript *)

Module Int32.

(** Two's complement wrap to [w] bits, signed. *)
Definition wrap_signed (w : Z) (z : Z) : Z :=
  let m := z mod 2 ^ w in
  if m <? 2 ^ (w - 1) then m else m - 2 ^ w.

Definition ToInt32 (z : Z) : Z := wrap_signed 32 z.

(** [a & b], [a | b], [a << b], [a >> b] on integer-valued numbers. *)
Definition js_and (a b : Z) : Z := Z.land (ToInt32 a) (ToInt32 b).
Definition js_or (a b : Z) : Z := Z.lor (ToInt32 a) (ToInt32 b).
Definition js_shl (a b : Z) : Z := ToInt32 (Z.shiftl (ToInt32 a) (b mod 32)).
Definition js_sar (a b : Z) : Z := Z.shiftr (ToInt32 a) (b mod 32).

End Int32.

(** ** z-order.js *)

Module ZOrder.
Import Int32.

Record Coordinates : Type := mkCoordinates { x : Z; y : Z }.

Definition interleave_body (x y : Z) (i : Z) (z : Z) : Z :=
  js_or z (js_or (js_shl (js_and x (js_shl 1 i)) i)
                 (js_shl (js_and y (js_shl 1 i)) (i + 1))).

Definition interleave (x y : Z) : Z :=
  for_range 0 16 (interleave_body x y) 0.

Definition getZOrderCoordinates_body (index : Z) (i : Z) (xy : Z * Z) : Z * Z :=
  let '(x, y) := xy in
  (js_or x (js_sar (js_and index (js_shl 1 (2 * i))) i),
   js_or y (js_sar (js_and index (js_shl 1 (2 * i + 1))) (i + 1))).

(** [width] is unused by the source as well. *)
Definition getZOrderCoordinates (index width : Z) : Coordinates :=
  let '(x, y) := for_range 0 16 (getZOrderCoordinates_body index) (0, 0) in
  {| x := x; y := y |}.

End ZOrder.


(** ** Rational arithmetic of the scheduling code

    [Math.floor], [Math.ceil] and [Math.round] on exact rationals.
    [Math.round] rounds half-way cases towards +infinity. *)

Module JSMath.

Definition Math_floor (q : Q) : Z := Qfloor q.
Definition Math_ceil (q : Q) : Z := Qceiling q.
Definition Math_round (q : Q) : Z := Qfloor (q + (1 # 2)).

Definition Qltb (a b : Q) : bool := negb (Qle_bool b a).

(** [Math.ceil(Math.log2(n))] for an integer [n >= 1]: the least [t] with
    [n <= 2^t] (see [Math_ceil_log2_least]).  For [n < 1] JavaScript
    yields [-Infinity] or [NaN]; callers test that case first. *)
Definition Math_ceil_log2 (n : Z) : Z := Z.log2_up n.

(** [Math.pow(2, e)] for an integer exponent [e >= 0]. *)
Definition Math_pow2 (e : Z) : Z := 2 ^ e.

End JSMath.

(** ** binary64 numbers

    The tempo and time quantities of the controller and of the playback
    mapping are JavaScript numbers that are not integers: they are IEEE 754
    binary64 values, every operation rounding to nearest, ties to even.
    The operations are those of the Standard Library's [SpecFloat] at
    precision 53. *)

Module Binary64.

Definition double : Type := spec_float.
Definition prec : Z := 53.
Definition emax : Z := 1024.

Definition add : double -> double -> double := SFadd prec emax.
Definition sub : double -> double -> double := SFsub prec emax.
Definition mul : double -> double -> double := SFmul prec emax.
Definition div : double -> double -> double := SFdiv prec emax.

(** [a < b]; false when either side is [NaN]. *)
Definition lt (a b : double) : bool := SFltb a b.

(** The number an integer denotes (the nearest binary64 value; exact below
    2^53). *)
Definition of_Z (z : Z) : double := binary_normalize prec emax z 0 false.

(** The number nearest to a rational: what [parseFloat] yields for a
    decimal numeral, and the value of a numeric literal. *)
Definition of_Q (q : Q) : double :=
  match Qnum q with
  | Z0 => S754_zero false
  | n =>
      let '(m, e, l) := SFdiv_core_binary prec emax (Z.abs n) 0 (Zpos (Qden q)) 0 in
      binary_round_aux prec emax (n <? 0) m e l
  end.

(** An integer-valued number: a result of [Math.floor] or [Math.round],
    or a loop counter added to one. *)
Inductive integral : Type :=
| Int (z : Z)
| PlusInfinity
| MinusInfinity
| NotANumber.

Definition signed (s : bool) (m : positive) : Z := cond_Zopp s (Zpos m).

(** [Math.floor]: of [m * 2^e] the integer [floor (m * 2^e)]. *)
Definition Math_floor (a : double) : integral :=
  match a with
  | S754_zero _ => Int 0
  | S754_finite s m e => Int (Z.shiftl (signed s m) e)
  | S754_infinity s => if s then MinusInfinity else PlusInfinity
  | S754_nan => NotANumber
  end.

(** [Math.round]: the nearest integer, a tie going up:
    [floor (m * 2^e + 1/2)]. *)
Definition Math_round (a : double) : integral :=
  match a with
  | S754_zero _ => Int 0
  | S754_finite s m e =>
      if e <? 0 then Int (Z.shiftr (2 * signed s m + 2 ^ (- e)) (- e + 1))
      else Int (Z.shiftl (signed s m) e)
  | S754_infinity s => if s then MinusInfinity else PlusInfinity
  | S754_nan => NotANumber
  end.

Definition to_double (a : integral) : double :=
  match a with
  | Int z => of_Z z
  | PlusInfinity => S754_infinity false
  | MinusInfinity => S754_infinity true
  | NotANumber => S754_nan
  end.

(** [a + b] and [a - b] on integer-valued numbers (exact while the result
    stays below 2^53 in magnitude). *)
Definition iopp (a : integral) : integral :=
  match a with
  | Int z => Int (- z)
  | PlusInfinity => MinusInfinity
  | MinusInfinity => PlusInfinity
  | NotANumber => NotANumber
  end.

Definition iadd (a b : integral) : integral :=
  match a, b with
  | NotANumber, _ | _, NotANumber => NotANumber
  | Int x, Int y => Int (x + y)
  | PlusInfinity, MinusInfinity | MinusInfinity, PlusInfinity => NotANumber
  | PlusInfinity, _ | _, PlusInfinity => PlusInfinity
  | MinusInfinity, _ | _, MinusInfinity => MinusInfinity
  end.

Definition isub (a b : integral) : integral := iadd a (iopp b).

(** The integer the bitwise operators see: [ToInt32] turns [NaN] and the
    infinities into 0 (and reduces an integer modulo 2^32, which the
    operators of [Int32] do themselves). *)
Definition bitwise_operand (a : integral) : Z :=
  match a with
  | Int z => z
  | _ => 0
  end.

(** The value of a finite number, as a rational. *)
Definition to_Q (a : double) : option Q :=
  match a with
  | S754_zero _ => Some 0%Q
  | S754_finite s m e => Some (inject_Z (signed s m) * Qpower 2 e)%Q
  | _ => None
  end.

End Binary64.

(** ** Window scheduling and canvas geometry ([processAudio], lines 646-664)

    The schedule read in exact rationals: the interval, the window count
    and the start samples as real arithmetic gives them.  The values the
    program itself computes, each operation rounded to binary64, are those
    of [Schedule64] below; the two can differ by one in a count or a start
    sample.  The canvas geometry is integer arithmetic and is shared.

    Q's division is total ([q / 0 = 0]) whereas JavaScript yields an
    infinity; the two agree whenever the divisor is not zero.  [processAudio]
    below branches on a zero [windowsPerSecond] before it uses the interval,
    and the theorems about the interval assume a positive tempo. *)

Module Schedule.
Import JSMath.
Local Open Scope Q_scope.

Definition beatsPerSecond (bpm : Q) : Q := bpm / 60.

Definition windowsPerSecond (bpm : Q) (samplesPerBeat : Z) : Q :=
  beatsPerSecond bpm * inject_Z samplesPerBeat.

Definition windowIntervalSeconds (bpm : Q) (samplesPerBeat : Z) : Q :=
  1 / windowsPerSecond bpm samplesPerBeat.

Definition windowIntervalSamples (bpm : Q) (samplesPerBeat : Z) (sampleRate : Q) : Q :=
  windowIntervalSeconds bpm samplesPerBeat * sampleRate.

Definition zOrderOffset (zOrderOffsetSeconds : Q) (bpm : Q) (samplesPerBeat : Z) : Z :=
  Math_round (zOrderOffsetSeconds * windowsPerSecond bpm samplesPerBeat).

Definition totalWindows (audioLength : Z) (windowIntervalSamples : Q) : Z :=
  Math_floor (inject_Z audioLength / windowIntervalSamples).

(** [const startSample = Math.round(i * windowIntervalSamples)]. *)
Definition startSample (i : Z) (windowIntervalSamples : Q) : Z :=
  Math_round (inject_Z i * windowIntervalSamples).

Definition totalBits (totalWindows : Z) : Z := Math_ceil_log2 totalWindows.
Definition xBits (totalBits : Z) : Z := Math_ceil (inject_Z totalBits / 2).
Definition yBits (totalBits : Z) : Z := Math_floor (inject_Z totalBits / 2).

Definition canvasWidth (totalWindows : Z) : Z :=
  Math_pow2 (xBits (totalBits totalWindows)).
Definition canvasHeight (totalWindows : Z) : Z :=
  Math_pow2 (yBits (totalBits totalWindows)).

End Schedule.

(** ** The window schedule in binary64

    The same statements as in [Schedule], each operation rounded as the
    program rounds it. *)

Module Schedule64.
Import Binary64.

Definition beatsPerSecond (bpm : double) : double := div bpm (of_Z 60).

Definition windowsPerSecond (bpm : double) (samplesPerBeat : Z) : double :=
  mul (beatsPerSecond bpm) (of_Z samplesPerBeat).

Definition windowIntervalSeconds (bpm : double) (samplesPerBeat : Z) : double :=
  div (of_Z 1) (windowsPerSecond bpm samplesPerBeat).

Definition windowIntervalSamples (bpm : double) (samplesPerBeat : Z) (sampleRate : double)
  : double :=
  mul (windowIntervalSeconds bpm samplesPerBeat) sampleRate.

Definition zOrderOffset (zOrderOffsetSeconds bpm : double) (samplesPerBeat : Z) : integral :=
  Math_round (mul zOrderOffsetSeconds (windowsPerSecond bpm samplesPerBeat)).

Definition totalWindows (audioLength : Z) (windowIntervalSamples : double) : integral :=
  Math_floor (div (of_Z audioLength) windowIntervalSamples).

(** [const startSample = Math.round(i * windowIntervalSamples)]. *)
Definition startSample (i : Z) (windowIntervalSamples : double) : integral :=
  Math_round (mul (of_Z i) windowIntervalSamples).

End Schedule64.

(** ** JavaScript numbers that carry sample data

    A real, [NaN], or an infinity.  Signed zeros are not distinguished. *)

Module JS.
Local Open Scope R_scope.

Inductive number : Type :=
| NaN
| Inf (negative : bool)
| Num (r : R).

Definition of_Z (z : Z) : number := Num (IZR z).

Definition is_zero (r : R) : bool := if Req_dec_T r 0 then true else false.
Definition is_neg (r : R) : bool := if Rlt_dec r 0 then true else false.

Definition opp (a : number) : number :=
  match a with
  | NaN => NaN
  | Inf s => Inf (negb s)
  | Num r => Num (- r)
  end.

Definition add (a b : number) : number :=
  match a, b with
  | NaN, _ | _, NaN => NaN
  | Inf s, Inf s' => if Bool.eqb s s' then Inf s else NaN
  | Inf s, Num _ | Num _, Inf s => Inf s
  | Num p, Num q => Num (p + q)
  end.

Definition sub (a b : number) : number := add a (opp b).

Definition mul (a b : number) : number :=
  match a, b with
  | NaN, _ | _, NaN => NaN
  | Inf s, Inf s' => Inf (xorb s s')
  | Inf s, Num r | Num r, Inf s => if is_zero r then NaN else Inf (xorb s (is_neg r))
  | Num p, Num q => Num (p * q)
  end.

Definition div (a b : number) : number :=
  match a, b with
  | NaN, _ | _, NaN => NaN
  | Inf _, Inf _ => NaN
  | Inf s, Num r => Inf (xorb s (is_neg r))
  | Num _, Inf _ => Num 0
  | Num p, Num q =>
      if is_zero q then (if is_zero p then NaN else Inf (is_neg p))
      else Num (p / q)
  end.

Definition Math_sqrt (a : number) : number :=
  match a with
  | NaN => NaN
  | Inf s => if s then NaN else Inf false
  | Num r => if is_neg r then NaN else Num (sqrt r)
  end.

Definition Math_floor (a : number) : number :=
  match a with
  | Num r => Num (IZR (Zfloor r))
  | _ => a
  end.

(** [a <= b] on numbers that are not [NaN]. *)
Definition leb (a b : number) : bool :=
  match a, b with
  | NaN, _ | _, NaN => false
  | Inf true, _ => true
  | _, Inf false => true
  | Inf false, _ => false
  | _, Inf true => false
  | Num p, Num q => if Rle_dec p q then true else false
  end.

Definition Math_min (a b : number) : number :=
  match a, b with
  | NaN, _ | _, NaN => NaN
  | _, _ => if leb a b then a else b
  end.

Definition Math_max (a b : number) : number :=
  match a, b with
  | NaN, _ | _, NaN => NaN
  | _, _ => if leb a b then b else a
  end.

(** [a === b]. *)
Definition strict_eq (a b : number) : bool :=
  match a, b with
  | Inf s, Inf s' => Bool.eqb s s'
  | Num p, Num q => if Req_dec_T p q then true else false
  | _, _ => false
  end.

(** A number used as an array index: only a non-negative integer value
    names an element; anything else reads [undefined]. *)
Definition to_index (a : number) : option Z :=
  match a with
  | Num r => if Req_dec_T r (IZR (Zfloor r)) then Some (Zfloor r) else None
  | _ => None
  end.

(** Conversion performed by a store into a [Uint8ClampedArray]. *)
Definition round_half_even (r : R) : Z :=
  let f := Zfloor r in
  let d := r - IZR f in
  if Rlt_dec d (1 / 2) then f
  else if Rlt_dec (1 / 2) d then (f + 1)%Z
  else if Z.even f then f else (f + 1)%Z.

Definition ToUint8Clamp (a : number) : Z :=
  match a with
  | NaN => 0%Z
  | Inf s => if s then 0%Z else 255%Z
  | Num r => Z.max 0 (Z.min 255 (round_half_even r))
  end.

(** Element read [audioData[i]] of a [Float32Array]; a read outside the
    array is [undefined], which arithmetic turns into [NaN]. *)
Definition sample (audioData : list R) (i : Z) : number :=
  if (i <? 0)%Z then NaN
  else match nth_error audioData (Z.to_nat i) with
       | Some r => Num r
       | None => NaN
       end.

(** Element read of an ordinary array of numbers. *)
Definition element (a : list number) (i : Z) : number :=
  if (i <? 0)%Z then NaN
  else match nth_error a (Z.to_nat i) with
       | Some v => v
       | None => NaN
       end.

End JS.

(** ** audio-processor: RMS power of one window *)

Module AudioProcessor.
Import JS.

Definition calculateRMSPower (audioData : list R) (startSample windowSize : Z) : number :=
  let endSample := Z.min (startSample + windowSize) (Z.of_nat (length audioData)) in
  let actualWindowSize := endSample - startSample in
  let sum :=
    for_range startSample endSample
      (fun i sum => add sum (mul (sample audioData i) (sample audioData i)))
      (Num 0) in
  Math_sqrt (div sum (of_Z actualWindowSize)).

End AudioProcessor.

(** ** Application state ([types.ts]) and the effects of the controller

    The controller mutates one [AppState] object and one canvas.  Both live
    in a [World] that is threaded through every operation; an operation
    either returns or raises, and in both cases leaves a world behind. *)

Module App.
Import JS.

Inductive VizMode : Type := mono | rgb.

Record RGBPowers : Type :=
  { low : list number; mid : list number; high : list number }.

Record MaxPowerRGB : Type :=
  { maxLow : number; maxMid : number; maxHigh : number }.

Record FilteredBands : Type :=
  { bandLow : list R; bandMid : list R; bandHigh : list R }.

(** The parts of a decoded [AudioBuffer] the controller reads. *)
Record AudioBuffer : Type :=
  { sampleRate : Q; channelData0 : list R }.

Record AppState : Type :=
  { audioBuffer : option AudioBuffer;
    isProcessing : bool;
    cachedPowers : option (list number);
    cachedRGBPowers : option RGBPowers;
    cachedCanvasWidth : Z;
    cachedCanvasHeight : Z;
    cachedSamplesPerBeat : Z;
    cachedVizMode : VizMode;
    maxPowerMono : number;
    maxPowerRGB : MaxPowerRGB }.

(** [ImageData]: [data] is a [Uint8ClampedArray] of [4 * width * height]
    bytes. *)
Record ImageData : Type :=
  { width : Z; height : Z; data : list Z }.

Record Canvas : Type :=
  { canvasWidth : Z; canvasHeight : Z; bitmap : list Z }.

Record World : Type :=
  { state : AppState; canvas : Canvas }.

Inductive error : Type := TypeError | IndexSizeError.

Inductive outcome (A : Type) : Type :=
| Ret (a : A)
| Exn (e : error).
Arguments Ret {A} a.
Arguments Exn {A} e.

(** State and exception monad. *)
Definition M (A : Type) : Type := World -> outcome A * World.

Definition ret {A : Type} (a : A) : M A := fun w => (Ret a, w).
Definition throw {A : Type} (e : error) : M A := fun w => (Exn e, w).
Definition bind {A B : Type} (m : M A) (k : A -> M B) : M B :=
  fun w => match m w with
           | (Ret a, w') => k a w'
           | (Exn e, w') => (Exn e, w')
           end.
Definition lift {A : Type} (o : outcome A) : M A := fun w => (o, w).
Definition getState : M AppState := fun w => (Ret (state w), w).
Definition setState (f : AppState -> AppState) : M unit :=
  fun w => (Ret tt, {| state := f (state w); canvas := canvas w |}).
Definition setCanvas (f : Canvas -> Canvas) : M unit :=
  fun w => (Ret tt, {| state := state w; canvas := f (canvas w) |}).

Fixpoint for_loopM {S : Type} (n : nat) (i : Z) (body : Z -> S -> M S) (s : S) : M S :=
  match n with
  | O => ret s
  | Datatypes.S n' => bind (body i s) (for_loopM n' (i + 1) body)
  end.

Definition for_rangeM {S : Type} (lo hi : Z) (body : Z -> S -> M S) (s : S) : M S :=
  for_loopM (Z.to_nat (hi - lo)) lo body s.

(** *** Typed array and canvas primitives of the platform *)

Fixpoint replace_nth (n : nat) (v : Z) (l : list Z) : list Z :=
  match l, n with
  | [], _ => []
  | _ :: t, O => v :: t
  | h :: t, Datatypes.S n' => h :: replace_nth n' v t
  end.

(** [data[i] = v]: a store outside the array is ignored. *)
Definition store (d : list Z) (i : Z) (v : number) : list Z :=
  if (0 <=? i) && (i <? Z.of_nat (length d))
  then replace_nth (Z.to_nat i) (ToUint8Clamp v) d
  else d.

(** [ctx.createImageData(sw, sh)]: transparent black; a zero size is
    rejected. *)
Definition createImageData (sw sh : Z) : outcome ImageData :=
  if (sw =? 0) || (sh =? 0) then Exn IndexSizeError
  else Ret {| width := Z.abs sw; height := Z.abs sh;
              data := repeat 0 (Z.to_nat (Z.abs sw * Z.abs sh * 4)) |}.

(** [ctx.putImageData(imageData, 0, 0)]: copies the image over the top
    left corner of the bitmap. *)
Definition putImageData (img : ImageData) (c : Canvas) : Canvas :=
  {| canvasWidth := canvasWidth c;
     canvasHeight := canvasHeight c;
     bitmap :=
       map (fun k =>
              let p := Z.of_nat k / 4 in
              let px := p mod canvasWidth c in
              let py := p / canvasWidth c in
              if (px <? width img) && (py <? height img)
              then nth (Z.to_nat ((py * width img + px) * 4 + Z.of_nat k mod 4))
                       (data img) 0
              else nth k (bitmap c) 0)
           (seq 0 (length (bitmap c))) |}.

(** [canvas.width = w; canvas.height = h; ctx.fillRect(0, 0, w, h)] with
    an opaque black fill style. *)
Definition resetCanvas (w h : Z) : Canvas :=
  {| canvasWidth := w; canvasHeight := h;
     bitmap := concat (repeat [0; 0; 0; 255] (Z.to_nat (w * h))) |}.

End App.

(** ** visualizer: colour mapping and cached redraw

    [constants.js] is not among the sources: the colour table is a
    parameter.  It has 256 entries, indices 0 to 255. *)

Module Visualizer.
Import JS App.

Definition RGBColor : Type := (Z * Z * Z)%type.
Definition RGBAColor : Type := (number * number * number * number)%type.

Section WithTable.
Variable viridisMap : Z -> RGBColor.

(** [viridisMap[index]]: [None] stands for [undefined]. *)
Definition viridisMap_at (index : number) : option RGBColor :=
  match to_index index with
  | Some i => if (0 <=? i) && (i <? 256) then Some (viridisMap i) else None
  | None => None
  end.

(** [const [r, g, b] = entry; return [r, g, b, 255]]: destructuring
    [undefined] raises a [TypeError]. *)
Definition opaque (entry : option RGBColor) : outcome RGBAColor :=
  match entry with
  | Some (r, g, b) => Ret (of_Z r, of_Z g, of_Z b, of_Z 255)
  | None => Exn TypeError
  end.

Definition powerToColor (power minPower maxPower : number) : outcome RGBAColor :=
  if strict_eq minPower maxPower then
    opaque (viridisMap_at (of_Z 128))
  else
    let normalized := div (sub power minPower) (sub maxPower minPower) in
    let index :=
      Math_floor (mul (Math_max (of_Z 0) (Math_min (of_Z 1) normalized)) (of_Z 255)) in
    opaque (viridisMap_at index).

(** Writing one RGBA pixel at [pixelIndex]. *)
Definition putPixel (d : list Z) (pixelIndex : Z) (color : RGBAColor) : list Z :=
  let '(r, g, b, a) := color in
  store (store (store (store d pixelIndex r) (pixelIndex + 1) g)
               (pixelIndex + 2) b)
        (pixelIndex + 3) a.

(** The per-window rendering step in mono mode.  The same statements
    appear in [redrawCanvas] (lines 56-66) and in the loop of
    [processMonoMode] (lines 728-738). *)
Definition drawMonoWindow (canvasWidth canvasHeight : Z) (minPower maxPower : number)
    (index : Z) (power : number) (d : list Z) : outcome (list Z) :=
  let c := ZOrder.getZOrderCoordinates index canvasWidth in
  if (ZOrder.x c <? canvasWidth) && (ZOrder.y c <? canvasHeight) then
    match powerToColor power minPower maxPower with
    | Ret color =>
        let pixelIndex := (ZOrder.y c * canvasWidth + ZOrder.x c) * 4 in
        Ret (putPixel d pixelIndex color)
    | Exn e => Exn e
    end
  else Ret d.

(** The per-window rendering step in RGB mode ([redrawCanvas] lines
    71-85, [processRGBMode] lines 792-805). *)
Definition drawRGBWindow (canvasWidth canvasHeight : Z) (maxPower : MaxPowerRGB)
    (index : Z) (lowPower midPower highPower : number) (d : list Z) : list Z :=
  let c := ZOrder.getZOrderCoordinates index canvasWidth in
  if (ZOrder.x c <? canvasWidth) && (ZOrder.y c <? canvasHeight) then
    let pixelIndex := (ZOrder.y c * canvasWidth + ZOrder.x c) * 4 in
    let normalizedLow := Math_min (of_Z 1) (div lowPower (maxLow maxPower)) in
    let normalizedMid := Math_min (of_Z 1) (div midPower (maxMid maxPower)) in
    let normalizedHigh := Math_min (of_Z 1) (div highPower (maxHigh maxPower)) in
    putPixel d pixelIndex
      (Math_floor (mul normalizedLow (of_Z 255)),
       Math_floor (mul normalizedMid (of_Z 255)),
       Math_floor (mul normalizedHigh (of_Z 255)),
       of_Z 255)
  else d.

(** [for (i = 0; i < data.length; i += 4) data[i + 3] = 255]. *)
Definition clearToBlack (d : list Z) : list Z :=
  for_loop (Z.to_nat ((Z.of_nat (length d) + 3) / 4)) 0
    (fun k d => store d (4 * k + 3) (of_Z 255)) d.

(** The bodies of the two loops of [redrawCanvas]. *)
Definition redrawMonoStep (st : AppState) (zOrderOffset : Z) (powers : list number)
    (minPower maxPower : number) (i : Z) (d : list Z) : M (list Z) :=
  let index := i + zOrderOffset in
  lift (drawMonoWindow (cachedCanvasWidth st) (cachedCanvasHeight st)
          minPower maxPower index (element powers i) d).

Definition redrawRGBStep (st : AppState) (zOrderOffset : Z) (bands : RGBPowers)
    (i : Z) (d : list Z) : M (list Z) :=
  let index := i + zOrderOffset in
  ret (drawRGBWindow (cachedCanvasWidth st) (cachedCanvasHeight st)
         (maxPowerRGB st) index
         (element (low bands) i) (element (mid bands) i)
         (element (high bands) i) d).

Definition redrawCanvas (zOrderOffset : Z) : M unit :=
  bind getState (fun st =>
  match cachedPowers st, cachedRGBPowers st with
  | None, None => ret tt
  | _, _ =>
    bind (lift (createImageData (cachedCanvasWidth st) (cachedCanvasHeight st)))
      (fun imageData =>
    let cleared := clearToBlack (data imageData) in
    bind
      (match cachedVizMode st, cachedPowers st, cachedRGBPowers st with
       | mono, Some powers, _ =>
           let minPower := of_Z 0 in
           let maxPower := maxPowerMono st in
           for_rangeM 0 (Z.of_nat (length powers))
             (redrawMonoStep st zOrderOffset powers minPower maxPower)
             cleared
       | _, _, Some bands =>
           for_rangeM 0 (Z.of_nat (length (low bands)))
             (redrawRGBStep st zOrderOffset bands)
             cleared
       | _, _, None => ret cleared
       end)
      (fun d =>
         setCanvas (putImageData
                      {| width := width imageData; height := height imageData;
                         data := d |})))
  end).

End WithTable.
End Visualizer.

(** ** ui-controller2.ts: the processing pass

    The values read from the form ([parseFloat] / [parseInt] of the input
    elements) are the fields of [Inputs].  [applyFrequencyFiltering] runs
    in the Web Audio API and is a parameter.  This module follows the
    schedule of [Schedule], in exact rationals; [Controller64] below is
    the same code on binary64 numbers. *)

Module Controller.
Import JS App Visualizer.

Record Inputs : Type :=
  { bpm : Q;
    samplesPerBeat : Z;
    windowSize : Z;
    zOrderOffsetSeconds : Q;
    vizMode : VizMode;
    lowMidCutoff : Q;
    midHighCutoff : Q }.

Section WithPlatform.
Variable viridisMap : Z -> RGBColor.
Variable applyFrequencyFiltering : AudioBuffer -> Q -> Q -> FilteredBands.

(** [powers.reduce((max, p) => Math.max(max, p), 0)], then the
    replacement of a zero maximum by 1.0. *)
Definition maxOf (powers : list number) : number :=
  fold_left Math_max powers (of_Z 0).

Definition orOne (m : number) : number :=
  if strict_eq m (of_Z 0) then of_Z 1 else m.

(** [if (i % 1000 === 0) { ctx.putImageData(imageData, 0, 0); ... }]:
    the progress display; the pass continues after the frame. *)
Definition showProgress (i : Z) (img : ImageData) : M unit :=
  if i mod 1000 =? 0 then setCanvas (putImageData img) else ret tt.

(** One iteration of the loop of [processMonoMode] (lines 723-747);
    the loop state is the local array [powers] and the bytes of
    [imageData]. *)
Definition monoStep (audioData : list R) (windowIntervalSamples : Q)
    (windowSize zOrderOffset canvasWidth canvasHeight : Z)
    (minPower tempMaxPower : number) (imageData : ImageData)
    (i : Z) (acc : list number * list Z) : M (list number * list Z) :=
  let '(powers, d) := acc in
  let startSample := Schedule.startSample i windowIntervalSamples in
  let power := AudioProcessor.calculateRMSPower audioData startSample windowSize in
  let powers := powers ++ [power] in
  let index := i + zOrderOffset in
  bind (lift (drawMonoWindow viridisMap canvasWidth canvasHeight
                minPower tempMaxPower index power d))
    (fun d =>
  bind (showProgress i {| width := width imageData;
                          height := height imageData; data := d |})
    (fun _ => ret (powers, d))).

Definition cacheMono (inputs : Inputs) (powers : list number)
    (canvasWidth canvasHeight : Z) (st : AppState) : AppState :=
  {| audioBuffer := audioBuffer st;
     isProcessing := isProcessing st;
     cachedPowers := Some powers;
     cachedRGBPowers := None;
     cachedCanvasWidth := canvasWidth;
     cachedCanvasHeight := canvasHeight;
     cachedSamplesPerBeat := samplesPerBeat inputs;
     cachedVizMode := mono;
     maxPowerMono := orOne (maxOf powers);
     maxPowerRGB := maxPowerRGB st |}.

Definition processMonoMode (inputs : Inputs) (audioData : list R)
    (totalWindows : Z) (windowIntervalSamples : Q) (windowSize zOrderOffset : Z)
    (canvasWidth canvasHeight : Z) (imageData : ImageData) : M unit :=
  bind getState (fun st0 =>
  let minPower := of_Z 0 in
  let tempMaxPower := maxPowerMono st0 in
  bind
    (for_rangeM 0 totalWindows
       (monoStep audioData windowIntervalSamples windowSize zOrderOffset
          canvasWidth canvasHeight minPower tempMaxPower imageData)
       ([], data imageData))
    (fun acc =>
  bind (setState (cacheMono inputs (fst acc) canvasWidth canvasHeight))
    (fun _ => redrawCanvas viridisMap zOrderOffset))).

Definition processRGBMode (inputs : Inputs) (filteredBands : FilteredBands)
    (totalWindows : Z) (windowIntervalSamples : Q) (windowSize zOrderOffset : Z)
    (canvasWidth canvasHeight : Z) (imageData : ImageData) : M unit :=
  bind getState (fun st0 =>
  let tempMaxRGB := maxPowerRGB st0 in
  bind
    (for_rangeM 0 totalWindows
       (fun i (acc : list number * list number * list number * list Z) =>
          let '(lowPowers, midPowers, highPowers, d) := acc in
          let startSample := Schedule.startSample i windowIntervalSamples in
          let lowPower :=
            AudioProcessor.calculateRMSPower (bandLow filteredBands) startSample windowSize in
          let midPower :=
            AudioProcessor.calculateRMSPower (bandMid filteredBands) startSample windowSize in
          let highPower :=
            AudioProcessor.calculateRMSPower (bandHigh filteredBands) startSample windowSize in
          let index := i + zOrderOffset in
          let d := drawRGBWindow canvasWidth canvasHeight tempMaxRGB index
                     lowPower midPower highPower d in
          bind (showProgress i {| width := width imageData;
                                  height := height imageData; data := d |})
            (fun _ => ret (lowPowers ++ [lowPower], midPowers ++ [midPower],
                           highPowers ++ [highPower], d)))
       ([], [], [], data imageData))
    (fun acc =>
  let '(lowPowers, midPowers, highPowers, _) := acc in
  bind (setState (fun st =>
          {| audioBuffer := audioBuffer st;
             isProcessing := isProcessing st;
             cachedPowers := None;
             cachedRGBPowers :=
               Some {| low := lowPowers; mid := midPowers; high := highPowers |};
             cachedCanvasWidth := canvasWidth;
             cachedCanvasHeight := canvasHeight;
             cachedSamplesPerBeat := samplesPerBeat inputs;
             cachedVizMode := rgb;
             maxPowerMono := maxPowerMono st;
             maxPowerRGB :=
               {| maxLow := orOne (maxOf lowPowers);
                  maxMid := orOne (maxOf midPowers);
                  maxHigh := orOne (maxOf highPowers) |} |}))
    (fun _ => redrawCanvas viridisMap zOrderOffset))).

Definition setProcessing (b : bool) : M unit :=
  setState (fun st =>
    {| audioBuffer := audioBuffer st;
       isProcessing := b;
       cachedPowers := cachedPowers st;
       cachedRGBPowers := cachedRGBPowers st;
       cachedCanvasWidth := cachedCanvasWidth st;
       cachedCanvasHeight := cachedCanvasHeight st;
       cachedSamplesPerBeat := cachedSamplesPerBeat st;
       cachedVizMode := cachedVizMode st;
       maxPowerMono := maxPowerMono st;
       maxPowerRGB := maxPowerRGB st |}).

(** [processAudio].  The only tests on entry are [state.isProcessing]
    and [state.audioBuffer].  When the window count is not at least 1
    (a zero or negative [windowsPerSecond] included: JavaScript then
    computes with an infinite or negative interval), [Math.log2] yields
    [-Infinity] or [NaN], the canvas gets size 0 and
    [createImageData] rejects it. *)
Definition processAudio (inputs : Inputs) : M unit :=
  bind getState (fun st =>
  match isProcessing st, audioBuffer st with
  | true, _ | _, None => ret tt
  | false, Some buffer =>
    bind (setProcessing true) (fun _ =>
    let audioLength :=
      match vizMode inputs with
      | rgb => Z.of_nat (length (bandLow (applyFrequencyFiltering buffer
                             (lowMidCutoff inputs) (midHighCutoff inputs))))
      | mono => Z.of_nat (length (channelData0 buffer))
      end in
    let windowsPerSecond :=
      Schedule.windowsPerSecond (bpm inputs) (samplesPerBeat inputs) in
    let windowIntervalSamples :=
      Schedule.windowIntervalSamples (bpm inputs) (samplesPerBeat inputs)
        (sampleRate buffer) in
    let zOrderOffset :=
      Schedule.zOrderOffset (zOrderOffsetSeconds inputs) (bpm inputs)
        (samplesPerBeat inputs) in
    let totalWindows :=
      if Qeq_bool windowsPerSecond 0 then 0
      else Schedule.totalWindows audioLength windowIntervalSamples in
    if totalWindows <? 1 then
      bind (setCanvas (fun _ => resetCanvas 0 0)) (fun _ => throw IndexSizeError)
    else
      let canvasWidth := Schedule.canvasWidth totalWindows in
      let canvasHeight := Schedule.canvasHeight totalWindows in
      bind (setCanvas (fun _ => resetCanvas canvasWidth canvasHeight)) (fun _ =>
      bind (lift (createImageData canvasWidth canvasHeight)) (fun imageData =>
      bind
        (match vizMode inputs with
         | mono =>
             processMonoMode inputs (channelData0 buffer) totalWindows
               windowIntervalSamples (windowSize inputs) zOrderOffset
               canvasWidth canvasHeight imageData
         | rgb =>
             processRGBMode inputs
               (applyFrequencyFiltering buffer (lowMidCutoff inputs)
                  (midHighCutoff inputs))
               totalWindows windowIntervalSamples (windowSize inputs) zOrderOffset
               canvasWidth canvasHeight imageData
         end)
        (fun _ => setProcessing false))))
  end).

(** [updateVisualizationWithOffset] (lines 439-452): the instant redraw
    when the offset control moves.  The offset is recomputed from the form
    and the cached samples per beat.  The marker overlay drawn afterwards
    is a separate canvas and is not part of the world. *)
Definition updateVisualizationWithOffset (inputs : Inputs) : M unit :=
  bind getState (fun st =>
  let cached :=
    match cachedPowers st, cachedRGBPowers st with
    | None, None => false
    | _, _ => true
    end in
  if cached && negb (isProcessing st) then
    let zOrderOffset :=
      Schedule.zOrderOffset (zOrderOffsetSeconds inputs) (bpm inputs)
        (cachedSamplesPerBeat st) in
    redrawCanvas viridisMap zOrderOffset
  else ret tt).

End WithPlatform.
End Controller.

(** ** ui-controller2.ts in binary64 *)

Module Controller64.
Import JS App Visualizer Binary64.

Record Inputs : Type :=
  { bpm : double;
    samplesPerBeat : Z;
    windowSize : Z;
    zOrderOffsetSeconds : double;
    vizMode : VizMode;
    lowMidCutoff : Q;
    midHighCutoff : Q }.

(** [calculateRMSPower(audioData, startSample, windowSize)] for a start
    that is the result of [Math.round].  For [+Infinity] the end is the
    length, the count [-Infinity], the loop does not run and the result is
    [sqrt(0 / -Infinity)], a zero; for [-Infinity] and [NaN] the count is
    [NaN], the loop does not run and the result is [NaN]. *)
Definition calculateRMSPowerAt (audioData : list R) (startSample : integral)
    (windowSize : Z) : number :=
  match startSample with
  | Int s => AudioProcessor.calculateRMSPower audioData s windowSize
  | PlusInfinity => JS.of_Z 0
  | MinusInfinity | NotANumber => NaN
  end.

(** [const index = i + zOrderOffset], as [getZOrderCoordinates] reads it. *)
Definition adjustedIndex (i : Z) (zOrderOffset : integral) : Z :=
  bitwise_operand (iadd (Int i) zOrderOffset).

Section WithPlatform.
Variable viridisMap : Z -> RGBColor.
Variable applyFrequencyFiltering : AudioBuffer -> Q -> Q -> FilteredBands.

(** [redrawCanvas] (part_003, lines 34-91) for an offset that is any
    integer-valued number. *)
Definition redrawMonoStep (st : AppState) (zOrderOffset : integral) (powers : list number)
    (minPower maxPower : number) (i : Z) (d : list Z) : M (list Z) :=
  let index := adjustedIndex i zOrderOffset in
  lift (drawMonoWindow viridisMap (cachedCanvasWidth st) (cachedCanvasHeight st)
          minPower maxPower index (element powers i) d).

Definition redrawRGBStep (st : AppState) (zOrderOffset : integral) (bands : RGBPowers)
    (i : Z) (d : list Z) : M (list Z) :=
  let index := adjustedIndex i zOrderOffset in
  ret (drawRGBWindow (cachedCanvasWidth st) (cachedCanvasHeight st)
         (maxPowerRGB st) index
         (element (low bands) i) (element (mid bands) i)
         (element (high bands) i) d).

Definition redrawCanvas (zOrderOffset : integral) : M unit :=
  bind getState (fun st =>
  match cachedPowers st, cachedRGBPowers st with
  | None, None => ret tt
  | _, _ =>
    bind (lift (createImageData (cachedCanvasWidth st) (cachedCanvasHeight st)))
      (fun imageData =>
    let cleared := clearToBlack (data imageData) in
    bind
      (match cachedVizMode st, cachedPowers st, cachedRGBPowers st with
       | mono, Some powers, _ =>
           let minPower := JS.of_Z 0 in
           let maxPower := maxPowerMono st in
           for_rangeM 0 (Z.of_nat (length powers))
             (redrawMonoStep st zOrderOffset powers minPower maxPower)
             cleared
       | _, _, Some bands =>
           for_rangeM 0 (Z.of_nat (length (low bands)))
             (redrawRGBStep st zOrderOffset bands)
             cleared
       | _, _, None => ret cleared
       end)
      (fun d =>
         setCanvas (putImageData
                      {| width := width imageData; height := height imageData;
                         data := d |})))
  end).

(** One iteration of the loop of [processMonoMode] (lines 723-747). *)
Definition monoStep (audioData : list R) (windowIntervalSamples : double)
    (windowSize : Z) (zOrderOffset : integral) (canvasWidth canvasHeight : Z)
    (minPower tempMaxPower : number) (imageData : ImageData)
    (i : Z) (acc : list number * list Z) : M (list number * list Z) :=
  let '(powers, d) := acc in
  let startSample := Schedule64.startSample i windowIntervalSamples in
  let power := calculateRMSPowerAt audioData startSample windowSize in
  let powers := powers ++ [power] in
  let index := adjustedIndex i zOrderOffset in
  bind (lift (drawMonoWindow viridisMap canvasWidth canvasHeight
                minPower tempMaxPower index power d))
    (fun d =>
  bind (Controller.showProgress i {| width := width imageData;
                                     height := height imageData; data := d |})
    (fun _ => ret (powers, d))).

Definition cacheMono (inputs : Inputs) (powers : list number)
    (canvasWidth canvasHeight : Z) (st : AppState) : AppState :=
  {| audioBuffer := audioBuffer st;
     isProcessing := isProcessing st;
     cachedPowers := Some powers;
     cachedRGBPowers := None;
     cachedCanvasWidth := canvasWidth;
     cachedCanvasHeight := canvasHeight;
     cachedSamplesPerBeat := samplesPerBeat inputs;
     cachedVizMode := mono;
     maxPowerMono := Controller.orOne (Controller.maxOf powers);
     maxPowerRGB := maxPowerRGB st |}.

Definition processMonoMode (inputs : Inputs) (audioData : list R)
    (totalWindows : Z) (windowIntervalSamples : double) (windowSize : Z)
    (zOrderOffset : integral) (canvasWidth canvasHeight : Z) (imageData : ImageData)
  : M unit :=
  bind getState (fun st0 =>
  let minPower := JS.of_Z 0 in
  let tempMaxPower := maxPowerMono st0 in
  bind
    (for_rangeM 0 totalWindows
       (monoStep audioData windowIntervalSamples windowSize zOrderOffset
          canvasWidth canvasHeight minPower tempMaxPower imageData)
       ([], data imageData))
    (fun acc =>
  bind (setState (cacheMono inputs (fst acc) canvasWidth canvasHeight))
    (fun _ => redrawCanvas zOrderOffset))).

(** One iteration of the loop of [processRGBMode] (lines 784-815). *)
Definition rgbStep (filteredBands : FilteredBands) (windowIntervalSamples : double)
    (windowSize : Z) (zOrderOffset : integral) (canvasWidth canvasHeight : Z)
    (tempMaxRGB : MaxPowerRGB) (imageData : ImageData)
    (i : Z) (acc : list number * list number * list number * list Z)
  : M (list number * list number * list number * list Z) :=
  let '(lowPowers, midPowers, highPowers, d) := acc in
  let startSample := Schedule64.startSample i windowIntervalSamples in
  let lowPower := calculateRMSPowerAt (bandLow filteredBands) startSample windowSize in
  let midPower := calculateRMSPowerAt (bandMid filteredBands) startSample windowSize in
  let highPower := calculateRMSPowerAt (bandHigh filteredBands) startSample windowSize in
  let index := adjustedIndex i zOrderOffset in
  let d := drawRGBWindow canvasWidth canvasHeight tempMaxRGB index
             lowPower midPower highPower d in
  bind (Controller.showProgress i {| width := width imageData;
                                     height := height imageData; data := d |})
    (fun _ => ret (lowPowers ++ [lowPower], midPowers ++ [midPower],
                   highPowers ++ [highPower], d)).

Definition cacheRGB (inputs : Inputs) (lowPowers midPowers highPowers : list number)
    (canvasWidth canvasHeight : Z) (st : AppState) : AppState :=
  {| audioBuffer := audioBuffer st;
     isProcessing := isProcessing st;
     cachedPowers := None;
     cachedRGBPowers :=
       Some {| low := lowPowers; mid := midPowers; high := highPowers |};
     cachedCanvasWidth := canvasWidth;
     cachedCanvasHeight := canvasHeight;
     cachedSamplesPerBeat := samplesPerBeat inputs;
     cachedVizMode := rgb;
     maxPowerMono := maxPowerMono st;
     maxPowerRGB :=
       {| maxLow := Controller.orOne (Controller.maxOf lowPowers);
          maxMid := Controller.orOne (Controller.maxOf midPowers);
          maxHigh := Controller.orOne (Controller.maxOf highPowers) |} |}.

Definition processRGBMode (inputs : Inputs) (filteredBands : FilteredBands)
    (totalWindows : Z) (windowIntervalSamples : double) (windowSize : Z)
    (zOrderOffset : integral) (canvasWidth canvasHeight : Z) (imageData : ImageData)
  : M unit :=
  bind getState (fun st0 =>
  let tempMaxRGB := maxPowerRGB st0 in
  bind
    (for_rangeM 0 totalWindows
       (rgbStep filteredBands windowIntervalSamples windowSize zOrderOffset
          canvasWidth canvasHeight tempMaxRGB imageData)
       ([], [], [], data imageData))
    (fun acc =>
  let '(lowPowers, midPowers, highPowers, _) := acc in
  bind (setState (cacheRGB inputs lowPowers midPowers highPowers canvasWidth canvasHeight))
    (fun _ => redrawCanvas zOrderOffset))).

(** The sample array whose length [processAudio] divides by the interval. *)
Definition measuredLength (inputs : Inputs) (buffer : AudioBuffer) : Z :=
  match vizMode inputs with
  | rgb => Z.of_nat (length (bandLow (applyFrequencyFiltering buffer
                         (lowMidCutoff inputs) (midHighCutoff inputs))))
  | mono => Z.of_nat (length (channelData0 buffer))
  end.

(** [processAudio] (lines 612-704).  The only tests on entry are
    [state.isProcessing] and [state.audioBuffer].  A window count that is
    not an integer of at least 1 (0, negative, [NaN] or an infinity) gives
    canvas sizes 0, [NaN] or [Infinity]; assigned to [canvas.width] and
    passed to [createImageData] each of them is 0, which
    [createImageData] rejects. *)
Definition processAudio (inputs : Inputs) : M unit :=
  bind getState (fun st =>
  match isProcessing st, audioBuffer st with
  | true, _ | _, None => ret tt
  | false, Some buffer =>
    bind (Controller.setProcessing true) (fun _ =>
    let sampleRate := of_Q (App.sampleRate buffer) in
    let audioLength := measuredLength inputs buffer in
    let windowIntervalSamples :=
      Schedule64.windowIntervalSamples (bpm inputs) (samplesPerBeat inputs) sampleRate in
    let zOrderOffset :=
      Schedule64.zOrderOffset (zOrderOffsetSeconds inputs) (bpm inputs)
        (samplesPerBeat inputs) in
    match Schedule64.totalWindows audioLength windowIntervalSamples with
    | Int totalWindows =>
      if totalWindows <? 1 then
        bind (setCanvas (fun _ => resetCanvas 0 0)) (fun _ => throw IndexSizeError)
      else
        let canvasWidth := Schedule.canvasWidth totalWindows in
        let canvasHeight := Schedule.canvasHeight totalWindows in
        bind (setCanvas (fun _ => resetCanvas canvasWidth canvasHeight)) (fun _ =>
        bind (lift (createImageData canvasWidth canvasHeight)) (fun imageData =>
        bind
          (match vizMode inputs with
           | mono =>
               processMonoMode inputs (channelData0 buffer) totalWindows
                 windowIntervalSamples (windowSize inputs) zOrderOffset
                 canvasWidth canvasHeight imageData
           | rgb =>
               processRGBMode inputs
                 (applyFrequencyFiltering buffer (lowMidCutoff inputs)
                    (midHighCutoff inputs))
                 totalWindows windowIntervalSamples (windowSize inputs) zOrderOffset
                 canvasWidth canvasHeight imageData
           end)
          (fun _ => Controller.setProcessing false)))
    | _ =>
        bind (setCanvas (fun _ => resetCanvas 0 0)) (fun _ => throw IndexSizeError)
    end)
  end).

End WithPlatform.
End Controller64.

(** ** playback.js: time <-> canvas coordinate *)

Module Playback.
Import JSMath.

(** The parameter objects of the two functions; [sampleRate] is
    destructured by both and used by neither.  Times and the tempo are
    binary64 numbers; [zOrderOffset] is the integer-valued number that
    [processAudio] computed with [Math.round]. *)
Record PositionParams : Type :=
  { bpm : Binary64.double;
    sampleRate : Binary64.double;
    cachedSamplesPerBeat : Z;
    cachedCanvasSize : Z;
    zOrderOffset : Binary64.integral }.

Record TimeParams : Type :=
  { t_bpm : Binary64.double;
    t_sampleRate : Binary64.double;
    t_cachedSamplesPerBeat : Z;
    t_zOrderOffset : Binary64.integral;
    audioDuration : Binary64.double }.

(** [None] is the [null] result. *)
Definition getCanvasPositionForTime (time : Binary64.double) (params : PositionParams)
  : option ZOrder.Coordinates :=
  if (cachedSamplesPerBeat params =? 0) || (cachedCanvasSize params =? 0) then None
  else
    let windowIntervalSeconds :=
      Schedule64.windowIntervalSeconds (bpm params) (cachedSamplesPerBeat params) in
    let windowIndex := Binary64.Math_floor (Binary64.div time windowIntervalSeconds) in
    let adjustedIndex := Binary64.iadd windowIndex (zOrderOffset params) in
    let c := ZOrder.getZOrderCoordinates (Binary64.bitwise_operand adjustedIndex)
               (cachedCanvasSize params) in
    if (ZOrder.x c >=? cachedCanvasSize params) || (ZOrder.y c >=? cachedCanvasSize params)
    then None
    else Some c.

Definition getTimeForCanvasClick (canvasX canvasY : Binary64.double) (params : TimeParams)
  : option Binary64.double :=
  if t_cachedSamplesPerBeat params =? 0 then None
  else
    let windowIntervalSeconds :=
      Schedule64.windowIntervalSeconds (t_bpm params) (t_cachedSamplesPerBeat params) in
    let zOrderIndex :=
      ZOrder.interleave (Binary64.bitwise_operand (Binary64.Math_floor canvasX))
                        (Binary64.bitwise_operand (Binary64.Math_floor canvasY)) in
    let windowIndex := Binary64.isub (Binary64.Int zOrderIndex) (t_zOrderOffset params) in
    let time := Binary64.mul (Binary64.to_double windowIndex) windowIntervalSeconds in
    if Binary64.lt time (Binary64.of_Z 0) || Binary64.lt (audioDuration params) time
    then None
    else Some time.

(** *** The time label

    [formatTime] (lines 232-236).  Strings are [String.string]; the
    decimal rendering of an integer is the Standard Library's. *)

Import String.
Local Open Scope string_scope.

(** [Math.trunc]: the rounding towards zero inside [%]. *)
Definition trunc (q : Q) : Z := if Qltb q 0 then Qceiling q else Qfloor q.

(** [a % 60]: the remainder has the sign of the dividend. *)
Definition rem60 (a : Q) : Q := (a - 60 * inject_Z (trunc (a / 60)))%Q.

(** [n.toString()] of an integer. *)
Definition Number_toString (z : Z) : string :=
  DecimalString.NilZero.string_of_int (Z.to_int z).

(** [s.padStart(2, '0')]. *)
Definition padStart2 (s : string) : string :=
  match String.length s with
  | O => "00"
  | S O => "0" ++ s
  | _ => s
  end.

Definition formatTime (seconds : Q) : string :=
  let mins := Math_floor (seconds / 60) in
  let secs := Math_floor (rem60 seconds) in
  Number_toString mins ++ ":" ++ padStart2 (Number_toString secs).

End Playback.

(** ** Definitions used to state and prove the properties *)

(** The counter values of [for_loop n i]. *)
Fixpoint upto (i : Z) (n : nat) : list Z :=
  match n with
  | O => []
  | S n' => i :: upto (i + 1) n'
  end.

(** Values that already are 32-bit two's complement patterns. *)
Definition int32_closed (v : Z) : Prop :=
  forall k, 0 <= k -> Z.testbit v k = Z.testbit v (Z.min k 31).

Import JS App Visualizer Controller AudioProcessor.

Definition window (audioData : list R) (startSample : nat) (windowSize : Z) : list R :=
  firstn (Z.to_nat (Z.min (Z.of_nat startSample + windowSize) (Z.of_nat (length audioData))
                    - Z.of_nat startSample))
         (skipn startSample audioData).

Definition sum_squares (l : list R) : R :=
  fold_right (fun v acc => (v * v + acc)%R) 0%R l.

Definition mean_square (l : list R) : R :=
  (sum_squares l / INR (length l))%R.

Definition sampleMap (i : Z) : RGBColor := (i, 255 - i, 128).

Definition preserves_state {A : Type} (m : M A) : Prop :=
  forall w, state (snd (m w)) = state w.

Definition is_real (a : number) : Prop := exists r, a = Num r.

(** The power recorded for window [i] by a pass over [audioData]. *)
Definition powerAt (audioData : list R) (windowIntervalSamples : Q) (windowSize : Z)
    (i : Z) : number :=
  calculateRMSPower audioData (Schedule.startSample i windowIntervalSamples) windowSize.

(** The state [processAudio] leaves after a completed mono pass. *)
Definition afterMonoPass (inputs : Inputs) (powers : list number)
    (canvasWidth canvasHeight : Z) (st : AppState) : AppState :=
  {| audioBuffer := audioBuffer st;
     isProcessing := false;
     cachedPowers := Some powers;
     cachedRGBPowers := None;
     cachedCanvasWidth := canvasWidth;
     cachedCanvasHeight := canvasHeight;
     cachedSamplesPerBeat := samplesPerBeat inputs;
     cachedVizMode := mono;
     maxPowerMono := orOne (maxOf powers);
     maxPowerRGB := maxPowerRGB st |}.

(** The initial [state] object of the controller (lines 15-27). *)
Definition initialState : AppState :=
  {| audioBuffer := None;
     isProcessing := false;
     cachedPowers := None;
     cachedRGBPowers := None;
     cachedCanvasWidth := 0;
     cachedCanvasHeight := 0;
     cachedSamplesPerBeat := 0;
     cachedVizMode := mono;
     maxPowerMono := of_Z 1;
     maxPowerRGB := {| maxLow := of_Z 1; maxMid := of_Z 1; maxHigh := of_Z 1 |} |}.

(** The state after a file has been decoded into [buffer]. *)
Definition loadedState (buffer : AudioBuffer) : AppState :=
  {| audioBuffer := Some buffer;
     isProcessing := false;
     cachedPowers := None;
     cachedRGBPowers := None;
     cachedCanvasWidth := 0;
     cachedCanvasHeight := 0;
     cachedSamplesPerBeat := 0;
     cachedVizMode := mono;
     maxPowerMono := of_Z 1;
     maxPowerRGB := {| maxLow := of_Z 1; maxMid := of_Z 1; maxHigh := of_Z 1 |} |}.

Definition emptyCanvas : Canvas := {| canvasWidth := 0; canvasHeight := 0; bitmap := [] |}.

(** A band splitter that passes the signal through, for examples. *)
Definition passThrough (b : AudioBuffer) (lowMid midHigh : Q) : FilteredBands :=
  {| bandLow := channelData0 b; bandMid := channelData0 b; bandHigh := channelData0 b |}.

(** One second of a constant signal sampled at 1 Hz, and a form asking for
    one window per second. *)
Definition oneSample : AudioBuffer := {| sampleRate := 1; channelData0 := [1%R] |}.

Definition formWith (windowSize : Z) : Inputs :=
  {| bpm := 60; samplesPerBeat := 1; windowSize := windowSize;
     zOrderOffsetSeconds := 0; vizMode := mono;
     lowMidCutoff := 200; midHighCutoff := 2000 |}.

Definition nonneg_real (a : number) : Prop := exists r, a = Num r /\ (0 <= r)%R.


(** What a run of [redrawCanvas] does to a world, given the image it
    computed. *)
Definition shown (r : outcome (option ImageData)) (st : AppState) (cv : Canvas)
  : outcome unit * World :=
  match r with
  | Exn e => (Exn e, {| state := st; canvas := cv |})
  | Ret None => (Ret tt, {| state := st; canvas := cv |})
  | Ret (Some img) => (Ret tt, {| state := st; canvas := putImageData img cv |})
  end.

(** The fields of the state a redraw reads. *)
Definition same_cache (st st' : AppState) : Prop :=
  cachedPowers st' = cachedPowers st
  /\ cachedRGBPowers st' = cachedRGBPowers st
  /\ cachedCanvasWidth st' = cachedCanvasWidth st
  /\ cachedCanvasHeight st' = cachedCanvasHeight st
  /\ cachedVizMode st' = cachedVizMode st
  /\ maxPowerMono st' = maxPowerMono st
  /\ maxPowerRGB st' = maxPowerRGB st.

(** A world with one cached window on a canvas of one pixel. *)
Definition oneWindowWorld : World :=
  {| state :=
       {| audioBuffer := Some oneSample;
          isProcessing := false;
          cachedPowers := Some [Num 1];
          cachedRGBPowers := None;
          cachedCanvasWidth := 1;
          cachedCanvasHeight := 1;
          cachedSamplesPerBeat := 1;
          cachedVizMode := mono;
          maxPowerMono := Num 1;
          maxPowerRGB := {| maxLow := of_Z 1; maxMid := of_Z 1; maxHigh := of_Z 1 |} |};
     canvas := resetCanvas 1 1 |}.

(** The sign and kind of a binary64 value. *)
Inductive shape : Type :=
| Nan
| Zero (s : bool)
| Fin (s : bool)
| Infty (s : bool).

Definition shape_of (a : Binary64.double) : shape :=
  match a with
  | S754_nan => Nan
  | S754_zero s => Zero s
  | S754_finite s _ _ => Fin s
  | S754_infinity s => Infty s
  end.

Definition shape_eqb (a b : shape) : bool :=
  match a, b with
  | Nan, Nan => true
  | Zero s, Zero s' | Fin s, Fin s' | Infty s, Infty s' => Bool.eqb s s'
  | _, _ => false
  end.

Definition shape_in (a : shape) (l : list shape) : bool := existsb (shape_eqb a) l.

(** The shapes a rounded result of sign [s] can have. *)
Definition rounded (s : bool) : list shape := [Zero s; Fin s; Infty s].

Definition mul_shapes (a b : shape) : list shape :=
  match a, b with
  | Nan, _ | _, Nan => [Nan]
  | Infty s, Infty s' | Infty s, Fin s' | Fin s, Infty s' => [Infty (xorb s s')]
  | Infty _, Zero _ | Zero _, Infty _ => [Nan]
  | Fin s, Zero s' | Zero s, Fin s' | Zero s, Zero s' => [Zero (xorb s s')]
  | Fin s, Fin s' => rounded (xorb s s')
  end.

Definition div_shapes (a b : shape) : list shape :=
  match a, b with
  | Nan, _ | _, Nan => [Nan]
  | Infty _, Infty _ | Zero _, Zero _ => [Nan]
  | Infty s, Fin s' | Infty s, Zero s' | Fin s, Zero s' => [Infty (xorb s s')]
  | Fin s, Infty s' | Zero s, Infty s' | Zero s, Fin s' => [Zero (xorb s s')]
  | Fin s, Fin s' => rounded (xorb s s')
  end.


(** Forms in binary64: mono mode, one sample per beat. *)
Definition formAt (bpm : Binary64.double) (windowSize : Z) : Controller64.Inputs :=
  {| Controller64.bpm := bpm;
     Controller64.samplesPerBeat := 1;
     Controller64.windowSize := windowSize;
     Controller64.zOrderOffsetSeconds := Binary64.of_Z 0;
     Controller64.vizMode := mono;
     Controller64.lowMidCutoff := 200;
     Controller64.midHighCutoff := 2000 |}.

Definition form64 (windowSize : Z) : Controller64.Inputs :=
  formAt (Binary64.of_Z 60) windowSize.


Definition rgbForm64 : Controller64.Inputs :=
  {| Controller64.bpm := Binary64.of_Z 60;
     Controller64.samplesPerBeat := 1;
     Controller64.windowSize := 0;
     Controller64.zOrderOffsetSeconds := Binary64.of_Z 0;
     Controller64.vizMode := rgb;
     Controller64.lowMidCutoff := 200;
     Controller64.midHighCutoff := 2000 |}.

(** A shift record that holds the whole part of [N / D] with its round and
    sticky bits. *)
Definition represents (mrs : shr_record) (N D : Z) : Prop :=
  shr_m mrs = N / D
  /\ shr_r mrs = (D <=? 2 * (N mod D))
  /\ shr_s mrs = negb ((N mod D =? 0) || (2 * (N mod D) =? D)).

(** The unit roundoff of binary64 and half its least positive number. *)
Definition unit_roundoff : Q := 1 # (2 ^ 53).
Definition half_least : Q := Qpower 2 (- 1075).

(** The value of a positive finite number. *)
Definition value (m : positive) (e : Z) : Q := (inject_Z (Z.pos m) * Qpower 2 e)%Q.

(** The slack that three roundings leave around a window. *)
Definition rounding_slack (t i : Q) : Q :=
  ((1 # 2 ^ 50) * (t + i) + Qpower 2 (- 1072) * (i + 1))%Q.

(** The slack that two roundings leave around a start sample. *)
Definition product_slack (exact i : Q) : Q :=
  ((1 # 2 ^ 51) * exact + Qpower 2 (- 1073) * (i + 1))%Q.

(** * Properties *)

Import Int32 ZOrder.

(** ** Bits of the 32-bit operators *)

Lemma testbit_small (m n k : Z) : 0 <= m < 2 ^ n -> n <= k -> Z.testbit m k = false.
Proof.
  intros Hm Hk.
  destruct (Z.eq_dec m 0) as [->|Hne]; [apply Z.testbit_0_l|].
  apply Z.bits_above_log2; [lia|].
  assert (Z.log2 m < n) by (apply Z.log2_lt_pow2; lia). lia.
Qed.

Lemma testbit_top (m n : Z) : 0 <= n -> 2 ^ n <= m < 2 ^ (n + 1) -> Z.testbit m n = true.
Proof.
  intros Hn Hm.
  assert (0 < 2 ^ n) by (apply Z.pow_pos_nonneg; lia).
  assert (Hl : Z.log2 m = n) by (apply Z.log2_unique; lia).
  rewrite <- Hl. apply Z.bit_log2. lia.
Qed.

Lemma wrap_signed_testbit (w z k : Z) :
  0 < w -> 0 <= k ->
  Z.testbit (wrap_signed w z) k = Z.testbit z (Z.min k (w - 1)).
Proof.
  intros Hw Hk. unfold wrap_signed.
  assert (Hp : 0 < 2 ^ w) by (apply Z.pow_pos_nonneg; lia).
  assert (Hpp : 2 ^ w = 2 * 2 ^ (w - 1)).
  { rewrite <- Z.pow_succ_r by lia. f_equal. lia. }
  pose proof (Z.mod_pos_bound z (2 ^ w) Hp) as Hm.
  set (m := z mod 2 ^ w) in *.
  assert (Hlow : forall j, 0 <= j < w -> Z.testbit m j = Z.testbit z j).
  { intros j Hj. unfold m. apply Z.mod_pow2_bits_low. lia. }
  destruct (Z.ltb_spec m (2 ^ (w - 1))) as [Hlt|Hge].
  - destruct (Z.le_gt_cases (w - 1) k) as [Hk'|Hk'].
    + rewrite Z.min_r by lia. rewrite <- Hlow by lia.
      rewrite (testbit_small m (w - 1) k), (testbit_small m (w - 1) (w - 1)) by lia.
      reflexivity.
    + rewrite Z.min_l by lia. apply Hlow. lia.
  - assert (Htop : Z.testbit z (w - 1) = true).
    { rewrite <- Hlow by lia. apply testbit_top; [lia|].
      replace (w - 1 + 1) with w by lia. lia. }
    destruct (Z.le_gt_cases w k) as [Hk'|Hk'].
    + rewrite Z.min_r by lia. rewrite Htop.
      apply Z.bits_iff_neg; [|lia].
      apply Z.log2_lt_pow2; [lia|].
      apply Z.lt_le_trans with (2 ^ w); [lia|].
      apply Z.pow_le_mono_r; lia.
    + replace (Z.testbit (m - 2 ^ w) k) with (Z.testbit ((m - 2 ^ w) mod 2 ^ w) k)
        by (apply Z.mod_pow2_bits_low; lia).
      replace ((m - 2 ^ w) mod 2 ^ w) with m.
      * destruct (Z.eq_dec k (w - 1)) as [->|Hne].
        -- rewrite Z.min_id. apply Hlow. lia.
        -- rewrite Z.min_l by lia. apply Hlow. lia.
      * replace (m - 2 ^ w) with (m + (-1) * 2 ^ w) by lia.
        rewrite Z.mod_add by lia. symmetry. apply Z.mod_small. lia.
Qed.

Lemma ToInt32_testbit (z k : Z) :
  0 <= k -> Z.testbit (ToInt32 z) k = Z.testbit z (Z.min k 31).
Proof. intros. unfold ToInt32. now rewrite wrap_signed_testbit by lia. Qed.

Lemma min_31_idem (k : Z) : Z.min (Z.min k 31) 31 = Z.min k 31.
Proof. lia. Qed.

Lemma js_and_testbit (a b k : Z) :
  0 <= k ->
  Z.testbit (js_and a b) k = Z.testbit a (Z.min k 31) && Z.testbit b (Z.min k 31).
Proof.
  intros. unfold js_and. now rewrite Z.land_spec, !ToInt32_testbit by lia.
Qed.

Lemma js_or_testbit (a b k : Z) :
  0 <= k ->
  Z.testbit (js_or a b) k = Z.testbit a (Z.min k 31) || Z.testbit b (Z.min k 31).
Proof.
  intros. unfold js_or. now rewrite Z.lor_spec, !ToInt32_testbit by lia.
Qed.

Lemma js_shl_testbit (a s k : Z) :
  0 <= s < 32 -> 0 <= k ->
  Z.testbit (js_shl a s) k = (s <=? Z.min k 31) && Z.testbit a (Z.min k 31 - s).
Proof.
  intros Hs Hk. unfold js_shl.
  rewrite Z.mod_small by lia.
  rewrite ToInt32_testbit by lia.
  rewrite Z.shiftl_spec by lia.
  destruct (Z.leb_spec s (Z.min k 31)) as [Hle|Hgt].
  - rewrite ToInt32_testbit by lia. simpl. f_equal. lia.
  - apply Z.testbit_neg_r. lia.
Qed.

Lemma js_sar_testbit (a s k : Z) :
  0 <= s < 32 -> 0 <= k ->
  Z.testbit (js_sar a s) k = Z.testbit a (Z.min (k + s) 31).
Proof.
  intros Hs Hk. unfold js_sar.
  rewrite Z.mod_small by lia.
  rewrite Z.shiftr_spec by lia.
  now rewrite ToInt32_testbit by lia.
Qed.

Lemma js_shl_1_testbit (i k : Z) :
  0 <= i < 32 -> 0 <= k ->
  Z.testbit (js_shl 1 i) k = (Z.min k 31 =? i).
Proof.
  intros Hi Hk. rewrite js_shl_testbit by lia.
  change 1 with (2 ^ 0) at 1. rewrite Z.pow2_bits_eqb by lia.
  destruct (Z.leb_spec i (Z.min k 31)), (Z.eqb_spec 0 (Z.min k 31 - i)),
    (Z.eqb_spec (Z.min k 31) i); simpl; try reflexivity; lia.
Qed.

Lemma int32_closed_0 : int32_closed 0.
Proof. intros k _. now rewrite !Z.testbit_0_l. Qed.

Lemma int32_closed_js_or (a b : Z) : int32_closed (js_or a b).
Proof.
  intros k Hk. rewrite !js_or_testbit by lia. now rewrite min_31_idem.
Qed.

Lemma for_loop_js_or_closed (term : Z -> Z) (n : nat) (i acc : Z) :
  int32_closed acc ->
  int32_closed (for_loop n i (fun j a => js_or a (term j)) acc).
Proof.
  revert i acc. induction n as [|n IH]; intros i acc Hacc; simpl; [exact Hacc|].
  apply IH, int32_closed_js_or.
Qed.

Lemma for_loop_js_or_testbit (term : Z -> Z) (n : nat) (i acc k : Z) :
  0 <= k <= 31 ->
  Z.testbit (for_loop n i (fun j a => js_or a (term j)) acc) k
  = Z.testbit acc k || existsb (fun j => Z.testbit (term j) k) (upto i n).
Proof.
  intros Hk. revert i acc. induction n as [|n IH]; intros i acc; simpl.
  - now rewrite orb_false_r.
  - rewrite IH, js_or_testbit by lia.
    rewrite Z.min_l by lia. now rewrite orb_assoc.
Qed.

Lemma getZ_loop_split (index : Z) (n : nat) (i x0 y0 : Z) :
  for_loop n i (getZOrderCoordinates_body index) (x0, y0)
  = (for_loop n i (fun j a => js_or a (js_sar (js_and index (js_shl 1 (2 * j))) j)) x0,
     for_loop n i (fun j a => js_or a (js_sar (js_and index (js_shl 1 (2 * j + 1))) (j + 1))) y0).
Proof.
  revert i x0 y0. induction n as [|n IH]; intros i x0 y0; simpl; [reflexivity|].
  apply IH.
Qed.

Lemma term_x_testbit (index i k : Z) :
  0 <= i < 16 -> 0 <= k ->
  Z.testbit (js_sar (js_and index (js_shl 1 (2 * i))) i) k
  = (k =? i) && Z.testbit index (2 * i).
Proof.
  intros Hi Hk.
  rewrite js_sar_testbit, js_and_testbit, js_shl_1_testbit by lia.
  rewrite !min_31_idem.
  destruct (Z.eqb_spec (Z.min (k + i) 31) (2 * i)) as [E|E],
    (Z.eqb_spec k i) as [E'|E']; try lia;
    rewrite ?E, ?andb_true_r, ?andb_false_r, ?andb_true_l, ?andb_false_l;
    reflexivity.
Qed.

Lemma term_y_testbit (index i k : Z) :
  0 <= i < 16 -> 0 <= k ->
  Z.testbit (js_sar (js_and index (js_shl 1 (2 * i + 1))) (i + 1)) k
  = (Z.min (k + i + 1) 31 =? 2 * i + 1) && Z.testbit index (2 * i + 1).
Proof.
  intros Hi Hk.
  rewrite js_sar_testbit, js_and_testbit, js_shl_1_testbit by lia.
  rewrite !min_31_idem. rewrite !Z.add_assoc.
  destruct (Z.eqb_spec (Z.min (k + i + 1) 31) (2 * i + 1)) as [E|E];
    rewrite ?E, ?andb_true_r, ?andb_false_r, ?andb_true_l, ?andb_false_l;
    reflexivity.
Qed.

Lemma getZ_x_testbit (index width k : Z) :
  0 <= k ->
  Z.testbit (x (getZOrderCoordinates index width)) k
  = (k <? 16) && Z.testbit index (2 * k).
Proof.
  intros Hk. unfold getZOrderCoordinates, for_range.
  change (Z.to_nat (16 - 0)) with 16%nat.
  rewrite getZ_loop_split. cbn [x].
  rewrite (for_loop_js_or_closed _ 16 0 0 int32_closed_0 k Hk).
  rewrite for_loop_js_or_testbit by lia.
  rewrite Z.testbit_0_l, orb_false_l.
  cbn [upto existsb Z.add Pos.add Pos.succ].
  rewrite !term_x_testbit by lia.
  destruct (Z.ltb_spec k 16) as [Hlt|Hge].
  - rewrite Z.min_l by lia.
    assert (Hcase : k = 0 \/ k = 1 \/ k = 2 \/ k = 3 \/ k = 4 \/ k = 5 \/ k = 6 \/ k = 7
      \/ k = 8 \/ k = 9 \/ k = 10 \/ k = 11 \/ k = 12 \/ k = 13 \/ k = 14 \/ k = 15) by lia.
    repeat (destruct Hcase as [->|Hcase]; [cbn; now rewrite ?orb_false_r|]).
    subst k. cbn. now rewrite ?orb_false_r.
  - repeat match goal with
    | |- context [Z.eqb ?a ?c] => destruct (Z.eqb_spec a c); [lia|]
    end. reflexivity.
Qed.

Ltac bool_tidy :=
  rewrite ?andb_true_r, ?andb_false_r, ?andb_true_l, ?andb_false_l,
    ?orb_false_r, ?orb_false_l.

Lemma getZ_y_testbit (index width k : Z) :
  0 <= k ->
  Z.testbit (y (getZOrderCoordinates index width)) k
  = Z.testbit index (Z.min (2 * k + 1) 31).
Proof.
  intros Hk. unfold getZOrderCoordinates, for_range.
  change (Z.to_nat (16 - 0)) with 16%nat.
  rewrite getZ_loop_split. cbn [y].
  rewrite (for_loop_js_or_closed _ 16 0 0 int32_closed_0 k Hk).
  rewrite for_loop_js_or_testbit by lia.
  rewrite Z.testbit_0_l, orb_false_l.
  cbn [upto existsb Z.add Pos.add Pos.succ].
  rewrite !term_y_testbit by lia.
  destruct (Z.ltb_spec k 15) as [Hlt|Hge].
  - rewrite !(Z.min_l k 31) by lia.
    assert (Hcase : k = 0 \/ k = 1 \/ k = 2 \/ k = 3 \/ k = 4 \/ k = 5 \/ k = 6 \/ k = 7
      \/ k = 8 \/ k = 9 \/ k = 10 \/ k = 11 \/ k = 12 \/ k = 13 \/ k = 14) by lia.
    repeat (destruct Hcase as [->|Hcase]; [cbn -[Z.testbit]; now bool_tidy|]).
    subst k. cbn -[Z.testbit]. now bool_tidy.
  - rewrite (Z.min_r (2 * k + 1) 31) by lia.
    assert (Hcase : Z.min k 31 = 15 \/ Z.min k 31 = 16 \/ Z.min k 31 = 17
      \/ Z.min k 31 = 18 \/ Z.min k 31 = 19 \/ Z.min k 31 = 20 \/ Z.min k 31 = 21
      \/ Z.min k 31 = 22 \/ Z.min k 31 = 23 \/ Z.min k 31 = 24 \/ Z.min k 31 = 25
      \/ Z.min k 31 = 26 \/ Z.min k 31 = 27 \/ Z.min k 31 = 28 \/ Z.min k 31 = 29
      \/ Z.min k 31 = 30 \/ Z.min k 31 = 31) by lia.
    repeat (destruct Hcase as [->|Hcase]; [cbn -[Z.testbit]; now bool_tidy|]).
    rewrite Hcase. cbn -[Z.testbit]. now bool_tidy.
Qed.

Lemma term_ix_testbit (x j m : Z) :
  0 <= j < 16 -> 0 <= m <= 31 ->
  Z.testbit (js_shl (js_and x (js_shl 1 j)) j) m = (m =? 2 * j) && Z.testbit x j.
Proof.
  intros Hj Hm. rewrite js_shl_testbit by lia. rewrite Z.min_l by lia.
  destruct (Z.leb_spec j m) as [Hle|Hgt].
  - rewrite js_and_testbit, js_shl_1_testbit by lia.
    rewrite !min_31_idem, !(Z.min_l (m - j) 31) by lia.
    destruct (Z.eqb_spec (m - j) j) as [E|E], (Z.eqb_spec m (2 * j)) as [E'|E'];
      try lia; rewrite ?E; bool_tidy; reflexivity.
  - destruct (Z.eqb_spec m (2 * j)); [lia|reflexivity].
Qed.

Lemma term_iy_testbit (y j m : Z) :
  0 <= j < 16 -> 0 <= m <= 31 ->
  Z.testbit (js_shl (js_and y (js_shl 1 j)) (j + 1)) m
  = (m =? 2 * j + 1) && Z.testbit y j.
Proof.
  intros Hj Hm. rewrite js_shl_testbit by lia. rewrite Z.min_l by lia.
  destruct (Z.leb_spec (j + 1) m) as [Hle|Hgt].
  - rewrite js_and_testbit, js_shl_1_testbit by lia.
    rewrite !min_31_idem, !(Z.min_l (m - (j + 1)) 31) by lia.
    destruct (Z.eqb_spec (m - (j + 1)) j) as [E|E],
      (Z.eqb_spec m (2 * j + 1)) as [E'|E'];
      try lia; rewrite ?E; bool_tidy; reflexivity.
  - destruct (Z.eqb_spec m (2 * j + 1)); [lia|reflexivity].
Qed.

Lemma interleave_term_testbit (x y j m : Z) :
  0 <= j < 16 -> 0 <= m <= 31 ->
  Z.testbit (js_or (js_shl (js_and x (js_shl 1 j)) j)
                   (js_shl (js_and y (js_shl 1 j)) (j + 1))) m
  = (m =? 2 * j) && Z.testbit x j || (m =? 2 * j + 1) && Z.testbit y j.
Proof.
  intros Hj Hm. rewrite js_or_testbit by lia. rewrite Z.min_l by lia.
  now rewrite term_ix_testbit, term_iy_testbit by lia.
Qed.

Lemma interleave_testbit (x y m : Z) :
  0 <= m ->
  Z.testbit (interleave x y) m
  = if Z.even (Z.min m 31) then Z.testbit x (Z.min m 31 / 2)
    else Z.testbit y (Z.min m 31 / 2).
Proof.
  intros Hm. unfold interleave, for_range, interleave_body.
  change (Z.to_nat (16 - 0)) with 16%nat.
  rewrite (for_loop_js_or_closed _ 16 0 0 int32_closed_0 m Hm).
  rewrite for_loop_js_or_testbit by lia.
  rewrite Z.testbit_0_l, orb_false_l.
  cbn [upto existsb Z.add Pos.add Pos.succ].
  rewrite !interleave_term_testbit by lia.
  assert (Hcase : exists c, Z.min m 31 = c /\ 0 <= c <= 31) by (eexists; split; [reflexivity|lia]).
  destruct Hcase as (c & -> & Hc).
  assert (Hc' : c = 0 \/ c = 1 \/ c = 2 \/ c = 3 \/ c = 4 \/ c = 5 \/ c = 6 \/ c = 7
      \/ c = 8 \/ c = 9 \/ c = 10 \/ c = 11 \/ c = 12 \/ c = 13 \/ c = 14 \/ c = 15
      \/ c = 16 \/ c = 17 \/ c = 18 \/ c = 19 \/ c = 20 \/ c = 21 \/ c = 22 \/ c = 23
      \/ c = 24 \/ c = 25 \/ c = 26 \/ c = 27 \/ c = 28 \/ c = 29 \/ c = 30 \/ c = 31) by lia.
  repeat (destruct Hc' as [->|Hc']; [cbn -[Z.testbit]; now bool_tidy|]).
  subst c. cbn -[Z.testbit]. now bool_tidy.
Qed.

Lemma interleave_getZ (n width : Z) :
  interleave (x (getZOrderCoordinates n width)) (y (getZOrderCoordinates n width))
  = ToInt32 n.
Proof.
  apply Z.bits_inj'. intros k Hk.
  rewrite interleave_testbit, ToInt32_testbit by lia.
  set (m := Z.min k 31). assert (Hm : 0 <= m <= 31) by lia. clearbody m.
  destruct (Z.even m) eqn:Hev.
  - apply Z.even_spec in Hev. destruct Hev as [c ->].
    replace (2 * c / 2) with c by (apply Z.div_unique_exact; lia).
    rewrite getZ_x_testbit by lia.
    destruct (Z.ltb_spec c 16); [reflexivity|lia].
  - assert (Hodd : Z.odd m = true) by (rewrite <- Z.negb_even, Hev; reflexivity).
    apply Z.odd_spec in Hodd. destruct Hodd as [c ->].
    replace ((2 * c + 1) / 2) with c by (apply (Z.div_unique _ _ c 1); lia).
    rewrite getZ_y_testbit by lia. f_equal. lia.
Qed.

Lemma even_double (k : Z) : Z.even (2 * k) = true.
Proof. rewrite Z.even_mul. reflexivity. Qed.

Lemma even_double_succ (k : Z) : Z.even (2 * k + 1) = false.
Proof. rewrite Z.even_add, even_double. reflexivity. Qed.

Lemma getZ_interleave (x0 y0 width : Z) :
  getZOrderCoordinates (interleave x0 y0) width
  = {| x := x0 mod 2 ^ 16; y := wrap_signed 16 y0 |}.
Proof.
  assert (Hx : x (getZOrderCoordinates (interleave x0 y0) width) = x0 mod 2 ^ 16).
  { apply Z.bits_inj'. intros k Hk.
    rewrite getZ_x_testbit, Z.testbit_mod_pow2 by lia.
    destruct (Z.ltb_spec k 16) as [Hlt|Hge]; [|reflexivity].
    rewrite interleave_testbit by lia. rewrite Z.min_l by lia.
    rewrite even_double.
    replace (2 * k / 2) with k by (apply Z.div_unique_exact; lia).
    reflexivity. }
  assert (Hy : y (getZOrderCoordinates (interleave x0 y0) width) = wrap_signed 16 y0).
  { apply Z.bits_inj'. intros k Hk.
    rewrite getZ_y_testbit, wrap_signed_testbit by lia.
    rewrite interleave_testbit by lia. rewrite min_31_idem.
    destruct (Z.le_gt_cases 15 k) as [Hge|Hlt].
    - rewrite (Z.min_r (2 * k + 1) 31), (Z.min_r k (16 - 1)) by lia. reflexivity.
    - rewrite (Z.min_l (2 * k + 1) 31), (Z.min_l k (16 - 1)) by lia.
      rewrite even_double_succ.
      replace ((2 * k + 1) / 2) with k by (apply (Z.div_unique _ _ k 1); lia).
      reflexivity. }
  destruct (getZOrderCoordinates (interleave x0 y0) width) as [a b].
  simpl in Hx, Hy. now subst.
Qed.

(** ** C1: Morton round trip *)

Example interleave_3_5 : interleave 3 5 = 39.
Proof. reflexivity. Qed.

Example getZOrderCoordinates_39 : getZOrderCoordinates 39 8 = {| x := 3; y := 5 |}.
Proof. reflexivity. Qed.

Example getZOrderCoordinates_minus_1 :
  getZOrderCoordinates (-1) 8 = {| x := 65535; y := -1 |}.
Proof. reflexivity. Qed.

Lemma ToInt32_small (n : Z) : - 2 ^ 31 <= n < 2 ^ 31 -> ToInt32 n = n.
Proof.
  intros Hn. unfold ToInt32, wrap_signed.
  change (2 ^ (32 - 1)) with 2147483648. change (2 ^ 32) with 4294967296.
  change (2 ^ 31) with 2147483648 in Hn.
  destruct (Z.ltb_spec (n mod 4294967296) 2147483648);
    Z.div_mod_to_equations; lia.
Qed.

Lemma wrap_signed_16_small (v : Z) : 0 <= v < 2 ^ 15 -> wrap_signed 16 v = v.
Proof.
  intros Hv. unfold wrap_signed.
  change (2 ^ (16 - 1)) with 32768. change (2 ^ 16) with 65536.
  change (2 ^ 15) with 32768 in Hv.
  rewrite Z.mod_small by lia.
  destruct (Z.ltb_spec v 32768); lia.
Qed.

(** C1, as amended.  Decoding an index below 2^31 and interleaving the pair
    gives the index back; interleaving a pair with [x < 2^16] and
    [y < 2^15] and decoding gives the pair back. *)
Theorem morton_round_trip (n x0 y0 width : Z) :
  0 <= n < 2 ^ 31 ->
  0 <= x0 < 2 ^ 16 ->
  0 <= y0 < 2 ^ 15 ->
  interleave (x (getZOrderCoordinates n width)) (y (getZOrderCoordinates n width)) = n
  /\ getZOrderCoordinates (interleave x0 y0) width = {| x := x0; y := y0 |}.
Proof.
  intros Hn Hx Hy. split.
  - rewrite interleave_getZ. apply ToInt32_small. lia.
  - rewrite getZ_interleave, Z.mod_small, wrap_signed_16_small by lia. reflexivity.
Qed.

Lemma morton_round_trip_witness :
  interleave (x (getZOrderCoordinates (2 ^ 30) 32768))
             (y (getZOrderCoordinates (2 ^ 30) 32768)) = 2 ^ 30
  /\ getZOrderCoordinates (interleave 65535 32767) 32768 = {| x := 65535; y := 32767 |}.
Proof.
  apply (morton_round_trip (2 ^ 30) 65535 32767 32768); vm_compute; split; congruence.
Defined.

(** C1, as stated, fails for a 16-bit [y] whose top bit is set: the
    interleaved index is a negative 32-bit integer and [>>] propagates the
    sign into [y]. *)
Lemma morton_round_trip_high_y :
  (0 <= 0 < 2 ^ 16 /\ 0 <= 32768 < 2 ^ 16)
  /\ interleave 0 32768 = - 2 ^ 31
  /\ getZOrderCoordinates (interleave 0 32768) 65536 = {| x := 0; y := -32768 |}
  /\ getZOrderCoordinates (interleave 0 32768) 65536 <> {| x := 0; y := 32768 |}.
Proof.
  repeat split; try (vm_compute; congruence).
Qed.

(** ** Canvas geometry *)

Section CanvasGeometry.
Import JSMath Schedule.

Lemma Math_ceil_log2_least (n : Z) :
1 <= n ->
n <= 2 ^ Math_ceil_log2 n
/\ 0 <= Math_ceil_log2 n
/\ forall t, 0 <= t -> n <= 2 ^ t -> Math_ceil_log2 n <= t.
Proof.
intros Hn. unfold Math_ceil_log2. repeat split.
- destruct (Z.eq_dec n 1) as [->|Hne]; [vm_compute; congruence|].
  apply Z.log2_up_spec. lia.
- apply Z.log2_up_nonneg.
- intros t Ht Hle. apply Z.log2_up_le_pow2; lia.
Qed.

Lemma Qfloor_half (t : Z) : Qfloor (inject_Z t / 2) = t / 2.
Proof. symmetry. apply (Zdiv_Qdiv t 2). Qed.

Lemma Qceiling_half (t : Z) : Qceiling (inject_Z t / 2) = - ((- t) / 2).
Proof.
unfold Qceiling. f_equal.
rewrite (Zdiv_Qdiv (- t) 2). apply Qfloor_comp.
rewrite inject_Z_opp. field.
Qed.

Lemma xBits_yBits (t : Z) : 0 <= t ->
0 <= yBits t /\ 0 <= xBits t /\ xBits t + yBits t = t /\ yBits t <= xBits t <= yBits t + 1.
Proof.
intros Ht. unfold xBits, yBits, Math_ceil, Math_floor.
rewrite Qfloor_half, Qceiling_half.
Z.div_mod_to_equations. lia.
Qed.

Lemma canvas_area (totalWindows : Z) :
1 <= totalWindows ->
canvasWidth totalWindows * canvasHeight totalWindows = 2 ^ totalBits totalWindows.
Proof.
intros Hn. unfold canvasWidth, canvasHeight, Math_pow2.
destruct (Math_ceil_log2_least totalWindows Hn) as (_ & Hnn & _).
destruct (xBits_yBits (totalBits totalWindows) Hnn) as (Hy & Hx & Hsum & _).
rewrite <- Z.pow_add_r by lia. now rewrite Hsum.
Qed.

(** C3.  For a window count of at least 1 the canvas is
  [2^xBits] by [2^yBits] with [totalBits = ceil(log2 totalWindows)],
  [xBits = ceil(totalBits / 2)] and [yBits = floor(totalBits / 2)]; its
  area holds every window and no product of two powers of two that holds
  them is smaller.  1000 windows give 32 x 32, 1025 give 64 x 32. *)
Theorem canvas_sizing_policy (totalWindows : Z) :
1 <= totalWindows ->
let w := canvasWidth totalWindows in
let h := canvasHeight totalWindows in
(w = 2 ^ xBits (totalBits totalWindows) /\ h = 2 ^ yBits (totalBits totalWindows))
/\ totalWindows <= w * h
/\ (forall a b, 0 <= a -> 0 <= b -> totalWindows <= 2 ^ a * 2 ^ b -> w * h <= 2 ^ a * 2 ^ b)
/\ (canvasWidth 1000 = 32 /\ canvasHeight 1000 = 32)
/\ (canvasWidth 1025 = 64 /\ canvasHeight 1025 = 32).
Proof.
intros Hn w h. subst w h.
rewrite canvas_area by assumption.
destruct (Math_ceil_log2_least totalWindows Hn) as (Hle & Hnn & Hleast).
split; [split; reflexivity|].
split; [exact Hle|].
split.
- intros a b Ha Hb Hab. rewrite <- Z.pow_add_r in * by lia.
  apply Z.pow_le_mono_r; [lia|]. apply Hleast; [lia|exact Hab].
- split; split; reflexivity.
Qed.

Lemma canvas_sizing_policy_witness :
let w := canvasWidth 1000 in
let h := canvasHeight 1000 in
(w = 2 ^ xBits (totalBits 1000) /\ h = 2 ^ yBits (totalBits 1000))
/\ 1000 <= w * h
/\ (forall a b, 0 <= a -> 0 <= b -> 1000 <= 2 ^ a * 2 ^ b -> w * h <= 2 ^ a * 2 ^ b)
/\ (canvasWidth 1000 = 32 /\ canvasHeight 1000 = 32)
/\ (canvasWidth 1025 = 64 /\ canvasHeight 1025 = 32).
Proof. apply (canvas_sizing_policy 1000). lia. Defined.

End CanvasGeometry.

(** ** Rational floor and the window schedule *)

Section WindowSchedule.
Import JSMath Schedule Playback.

Lemma Qfloor_bounds (q : Q) : (inject_Z (Qfloor q) <= q /\ q < inject_Z (Qfloor q) + 1)%Q.
Proof.
split; [apply Qfloor_le|].
pose proof (Qlt_floor q) as H. rewrite inject_Z_plus in H. exact H.
Qed.

Lemma Qfloor_unique (q : Q) (z : Z) :
(inject_Z z <= q)%Q -> (q < inject_Z z + 1)%Q -> Qfloor q = z.
Proof.
intros Hlo Hhi. destruct (Qfloor_bounds q) as [Hl Hh].
assert (H1 : (inject_Z z < inject_Z (Qfloor q + 1))%Q).
{ rewrite inject_Z_plus. eapply Qle_lt_trans; [exact Hlo|exact Hh]. }
assert (H2 : (inject_Z (Qfloor q) < inject_Z (z + 1))%Q).
{ rewrite inject_Z_plus. eapply Qle_lt_trans; [exact Hl|exact Hhi]. }
rewrite <- Zlt_Qlt in H1, H2. lia.
Qed.

Lemma Math_round_le (q : Q) (z : Z) : (q <= inject_Z z)%Q -> Math_round q <= z.
Proof.
intros Hq. unfold Math_round.
destruct (Qfloor_bounds (q + (1 # 2))) as [Hl _].
assert (H : (inject_Z (Qfloor (q + (1 # 2))) < inject_Z (z + 1))%Q).
{ rewrite inject_Z_plus. eapply Qle_lt_trans; [exact Hl|].
  change (inject_Z 1) with 1%Q. lra. }
rewrite <- Zlt_Qlt in H. lia.
Qed.

Lemma Math_round_nonneg (q : Q) : (0 <= q)%Q -> 0 <= Math_round q.
Proof.
intros Hq. unfold Math_round.
destruct (Qfloor_bounds (q + (1 # 2))) as [_ Hh].
assert (H : (inject_Z 0 < inject_Z (Qfloor (q + (1 # 2)) + 1))%Q).
{ rewrite inject_Z_plus. eapply Qle_lt_trans; [|exact Hh].
  change (inject_Z 0) with 0%Q. lra. }
rewrite <- Zlt_Qlt in H. lia.
Qed.

Lemma div_mul_cancel (a b : Q) : (0 < b)%Q -> (a / b * b == a)%Q.
Proof. intros Hb. field. lra. Qed.

(** Every window the pass visits starts inside the signal. *)
Lemma startSample_in_range (audioLength i : Z) (interval : Q) :
(1 <= interval)%Q ->
0 <= i < totalWindows audioLength interval ->
0 <= startSample i interval < audioLength.
Proof.
intros Hw Hi. unfold totalWindows, Math_floor in Hi. unfold startSample.
destruct (Qfloor_bounds (inject_Z audioLength / interval)) as [Hfl _].
assert (Hi1 : (inject_Z (i + 1) <= inject_Z (Qfloor (inject_Z audioLength / interval)))%Q)
  by (rewrite <- Zle_Qle; lia).
assert (Hi0 : (0 <= inject_Z i)%Q) by (change 0%Q with (inject_Z 0); rewrite <- Zle_Qle; lia).
rewrite inject_Z_plus in Hi1.
assert (Hmul : ((inject_Z i + 1) * interval <= inject_Z audioLength)%Q).
{ rewrite <- (div_mul_cancel (inject_Z audioLength) interval) by lra.
  apply Qmult_le_compat_r; [|lra]. eapply Qle_trans; [exact Hi1|exact Hfl]. }
clear Hfl Hi1 Hi.
split.
- apply Math_round_nonneg. apply Qmult_le_0_compat; lra.
- assert (Hle : Math_round (inject_Z i * interval) <= audioLength - 1); [|lia].
  apply Math_round_le. unfold Zminus. rewrite inject_Z_plus.
  set (a := inject_Z i) in *. set (l := inject_Z audioLength) in *.
  clearbody a l.
  assert (E : ((a + 1) * interval == a * interval + interval)%Q) by ring.
  rewrite E in Hmul. set (p := (a * interval)%Q) in *. clearbody p. clear E.
  change (inject_Z (- (1))) with (-1 # 1)%Q. lra.
Qed.

Lemma Qltb_false (a b : Q) : (b <= a)%Q -> Qltb a b = false.
Proof.
intros H. unfold Qltb. apply Qle_bool_iff in H. now rewrite H.
Qed.

End WindowSchedule.

(** ** RMS power *)

Lemma is_zero_false (r : R) : r <> 0%R -> is_zero r = false.
Proof. intros H. unfold is_zero. destruct (Req_dec_T r 0); [contradiction|reflexivity]. Qed.

Lemma is_zero_true (r : R) : r = 0%R -> is_zero r = true.
Proof. intros H. unfold is_zero. destruct (Req_dec_T r 0); [reflexivity|contradiction]. Qed.

Lemma is_neg_false (r : R) : (0 <= r)%R -> is_neg r = false.
Proof. intros H. unfold is_neg. destruct (Rlt_dec r 0); [lra|reflexivity]. Qed.

Lemma is_neg_true (r : R) : (r < 0)%R -> is_neg r = true.
Proof. intros H. unfold is_neg. destruct (Rlt_dec r 0); [reflexivity|lra]. Qed.

Lemma sum_squares_nonneg (l : list R) : (0 <= sum_squares l)%R.
Proof.
  induction l as [|v l IH]; simpl; [lra|].
  pose proof (Rle_0_sqr v) as Hv. unfold Rsqr in Hv. lra.
Qed.

Lemma sample_in_range (a : list R) (i : nat) (v : R) :
  nth_error a i = Some v -> sample a (Z.of_nat i) = Num v.
Proof.
  intros H. unfold sample.
  destruct (Z.ltb_spec (Z.of_nat i) 0); [lia|].
  now rewrite Nat2Z.id, H.
Qed.

Lemma rms_loop (a : list R) (n i : nat) (acc : R) :
  (i + n <= length a)%nat ->
  for_loop n (Z.of_nat i)
    (fun j sum => add sum (mul (sample a j) (sample a j))) (Num acc)
  = Num (acc + sum_squares (firstn n (skipn i a))).
Proof.
  revert i acc. induction n as [|n IH]; intros i acc Hlen; simpl.
  - f_equal. lra.
  - destruct (nth_error a i) as [v|] eqn:Hv.
    2:{ apply nth_error_None in Hv. lia. }
    rewrite (sample_in_range a i v Hv). simpl.
    replace (Z.of_nat i + 1) with (Z.of_nat (S i)) by lia.
    rewrite IH by lia.
    assert (Hskip : skipn i a = v :: skipn (S i) a).
    { clear -Hv. revert a Hv. induction i as [|i IHi]; intros [|h t] Hv; simpl in *;
        try discriminate.
      - now inversion Hv.
      - now apply IHi. }
    rewrite Hskip. simpl. f_equal. lra.
Qed.

Lemma window_length (a : list R) (s : nat) (ws : Z) :
  (s < length a)%nat -> 0 < ws ->
  length (window a s ws)
  = Z.to_nat (Z.min (Z.of_nat s + ws) (Z.of_nat (length a)) - Z.of_nat s)
  /\ (1 <= length (window a s ws))%nat.
Proof.
  intros Hs Hws. unfold window.
  rewrite length_firstn, length_skipn. lia.
Qed.

(** RMS over a window with at least one sample. *)
Lemma calculateRMSPower_window (a : list R) (s : nat) (ws : Z) :
  (s < length a)%nat -> 0 < ws ->
  calculateRMSPower a (Z.of_nat s) ws = Num (sqrt (mean_square (window a s ws))).
Proof.
  intros Hs Hws.
  destruct (window_length a s ws Hs Hws) as [Hlen Hpos].
  unfold calculateRMSPower, for_range.
  set (count := Z.min (Z.of_nat s + ws) (Z.of_nat (length a)) - Z.of_nat s) in *.
  rewrite rms_loop by lia.
  fold (window a s ws). rewrite Rplus_0_l.
  unfold of_Z, div.
  assert (Hc : IZR count = INR (length (window a s ws))).
  { rewrite Hlen, INR_IZR_INZ. f_equal. lia. }
  assert (Hcpos : (0 < IZR count)%R).
  { rewrite Hc. apply lt_0_INR. lia. }
  rewrite is_zero_false by lra.
  unfold Math_sqrt.
  rewrite is_neg_false.
  - unfold mean_square. now rewrite Hc.
  - apply Rmult_le_pos; [apply sum_squares_nonneg|].
    left. now apply Rinv_0_lt_compat.
Qed.

Lemma calculateRMSPower_nonneg (a : list R) (s : nat) (ws : Z) :
  (s < length a)%nat -> 0 < ws ->
  exists r, calculateRMSPower a (Z.of_nat s) ws = Num r /\ (0 <= r)%R.
Proof.
  intros Hs Hws. eexists. split; [now apply calculateRMSPower_window|apply sqrt_pos].
Qed.

(** ** Colour mapping and state preservation *)

Lemma to_index_of_Z (z : Z) : to_index (of_Z z) = Some z.
Proof.
  unfold to_index, of_Z. rewrite ZfloorZ.
  destruct (Req_dec_T (IZR z) (IZR z)); [reflexivity|contradiction].
Qed.

Lemma clamp_unit (q : R) :
  exists c, Math_max (of_Z 0) (Math_min (of_Z 1) (Num q)) = Num c /\ (0 <= c <= 1)%R.
Proof.
  unfold Math_min, Math_max, of_Z, leb.
  destruct (Rle_dec 1 q) as [H1|H1].
  - destruct (Rle_dec 0 1) as [H0|H0]; [|lra]. exists 1%R. split; [reflexivity|lra].
  - destruct (Rle_dec 0 q) as [H0|H0].
    + exists q. split; [reflexivity|lra].
    + exists 0%R. split; [reflexivity|lra].
Qed.

Lemma strict_eq_real (a b : R) : strict_eq (Num a) (Num b) = false -> a <> b.
Proof. unfold strict_eq. destruct (Req_dec_T a b); [discriminate|auto]. Qed.

(** On real arguments the colour mapper always finds a table entry. *)
Lemma powerToColor_real (viridisMap : Z -> RGBColor) (p a b : R) :
  exists c, powerToColor viridisMap (Num p) (Num a) (Num b) = Ret c.
Proof.
  unfold powerToColor.
  destruct (strict_eq (Num a) (Num b)) eqn:Heq.
  - unfold viridisMap_at. rewrite to_index_of_Z. simpl.
    destruct (viridisMap 128) as [[r g] bl]. eexists. reflexivity.
  - apply strict_eq_real in Heq.
    cbn [sub opp add div].
    rewrite is_zero_false by lra.
    destruct (clamp_unit ((p + - a) / (b + - a))) as (c & -> & Hc).
    cbn [mul of_Z Math_floor].
    unfold viridisMap_at. fold (of_Z (Zfloor (c * 255))). rewrite to_index_of_Z.
    assert (0 <= Zfloor (c * 255) < 256).
    { split.
      - apply Zfloor_lub. simpl. nra.
      - pose proof (Zfloor_bound (c * 255)) as [Hlo _].
        apply lt_IZR. nra. }
    destruct (Z.leb_spec 0 (Zfloor (c * 255))); [|lia].
    destruct (Z.ltb_spec (Zfloor (c * 255)) 256); [|lia].
    simpl. destruct (viridisMap (Zfloor (c * 255))) as [[r g] bl].
    eexists. reflexivity.
Qed.

Lemma powerToColor_degenerate (viridisMap : Z -> RGBColor) (power minPower maxPower : number) :
  strict_eq minPower maxPower = true ->
  powerToColor viridisMap power minPower maxPower
  = let '(r, g, b) := viridisMap 128 in Ret (of_Z r, of_Z g, of_Z b, of_Z 255).
Proof.
  intros Heq. unfold powerToColor. rewrite Heq.
  unfold viridisMap_at. rewrite to_index_of_Z. simpl.
  destruct (viridisMap 128) as [[r g] bl]. reflexivity.
Qed.

Lemma powerToColor_NaN (viridisMap : Z -> RGBColor) (power minPower maxPower : number) :
  strict_eq minPower maxPower = false ->
  div (sub power minPower) (sub maxPower minPower) = NaN ->
  powerToColor viridisMap power minPower maxPower = Exn TypeError.
Proof.
  intros Heq Hnan. unfold powerToColor. rewrite Heq, Hnan. reflexivity.
Qed.


Lemma preserves_ret {A : Type} (a : A) : preserves_state (ret a).
Proof. intros w. reflexivity. Qed.

Lemma preserves_throw {A : Type} (e : error) : preserves_state (@throw A e).
Proof. intros w. reflexivity. Qed.

Lemma preserves_lift {A : Type} (o : outcome A) : preserves_state (lift o).
Proof. intros w. reflexivity. Qed.

Lemma preserves_getState : preserves_state getState.
Proof. intros w. reflexivity. Qed.

Lemma preserves_setCanvas (f : Canvas -> Canvas) : preserves_state (setCanvas f).
Proof. intros w. reflexivity. Qed.

Lemma preserves_bind {A B : Type} (m : M A) (k : A -> M B) :
  preserves_state m -> (forall a, preserves_state (k a)) -> preserves_state (bind m k).
Proof.
  intros Hm Hk w. unfold bind. specialize (Hm w).
  destruct (m w) as [[a|e] w']; simpl in *.
  - now rewrite Hk.
  - exact Hm.
Qed.

Lemma preserves_for_loopM {S : Type} (body : Z -> S -> M S) :
  (forall i s, preserves_state (body i s)) ->
  forall n i s, preserves_state (for_loopM n i body s).
Proof.
  intros Hb. induction n as [|n IH]; intros i s; simpl.
  - apply preserves_ret.
  - apply preserves_bind; [apply Hb|]. intros s'. apply IH.
Qed.

Create HintDb preserves.

#[local] Hint Resolve preserves_ret preserves_throw preserves_lift preserves_getState
  preserves_setCanvas : preserves.

Lemma redrawCanvas_preserves (viridisMap : Z -> RGBColor) (zOrderOffset : Z) :
  preserves_state (redrawCanvas viridisMap zOrderOffset).
Proof.
  unfold redrawCanvas.
  apply preserves_bind; [apply preserves_getState|]. intros st.
  assert (Hgo : forall X : M (list Z), preserves_state X -> forall img,
    preserves_state (bind X (fun d => setCanvas (putImageData
       {| width := width img; height := height img; data := d |})))).
  { intros X HX img. apply preserves_bind; [exact HX|]. intros d. apply preserves_setCanvas. }
  destruct (cachedPowers st) as [powers|], (cachedRGBPowers st) as [bands|];
    try apply preserves_ret;
    (apply preserves_bind; [apply preserves_lift|]; intros img; apply Hgo);
    destruct (cachedVizMode st);
    try apply preserves_ret;
    unfold for_rangeM; apply preserves_for_loopM; intros i d;
    unfold redrawMonoStep, redrawRGBStep; auto with preserves.
Qed.

(** ** Off-canvas windows *)

Lemma getZ_x_range (index width : Z) :
  0 <= ZOrder.x (ZOrder.getZOrderCoordinates index width) < 2 ^ 16.
Proof.
  set (v := ZOrder.x (ZOrder.getZOrderCoordinates index width)).
  assert (Hv : v = v mod 2 ^ 16).
  { apply Z.bits_inj'. intros k Hk.
    rewrite Z.testbit_mod_pow2 by lia. unfold v.
    rewrite getZ_x_testbit by lia.
    destruct (k <? 16); reflexivity. }
  rewrite Hv. apply Z.mod_pos_bound. reflexivity.
Qed.

Lemma getZ_y_negative (index width : Z) :
  - 2 ^ 31 <= index < 0 ->
  ZOrder.y (ZOrder.getZOrderCoordinates index width) < 0.
Proof.
  intros Hi.
  set (v := ZOrder.y (ZOrder.getZOrderCoordinates index width)).
  destruct (Z.lt_ge_cases v 0) as [Hneg|Hnn]; [exact Hneg|exfalso].
  assert (Hbit : Z.testbit v (Z.max 15 (Z.log2 v + 1)) = false).
  { destruct (Z.eq_dec v 0) as [->|Hne]; [apply Z.testbit_0_l|].
    apply Z.bits_above_log2; lia. }
  unfold v in Hbit. rewrite getZ_y_testbit in Hbit by lia.
  rewrite Z.min_r in Hbit by lia.
  assert (Htop : Z.testbit index 31 = true).
  { rewrite <- (Z.mod_pow2_bits_low index 32 31) by lia.
    apply testbit_top; [lia|].
    replace (index mod 2 ^ 32) with (index + 2 ^ 32).
    - change (2 ^ 31) with 2147483648 in *. change (2 ^ (31 + 1)) with 4294967296.
      change (2 ^ 32) with 4294967296. lia.
    - apply Z.mod_unique with (q := -1); [left|];
        change (2 ^ 31) with 2147483648 in *; change (2 ^ 32) with 4294967296; lia. }
  congruence.
Qed.

Lemma store_negative (d : list Z) (i : Z) (v : number) : i < 0 -> store d i v = d.
Proof.
  intros Hi. unfold store.
  destruct (Z.leb_spec 0 i); [lia|reflexivity].
Qed.

Lemma putPixel_negative (d : list Z) (pixelIndex : Z) (color : RGBAColor) :
  pixelIndex + 3 < 0 -> putPixel d pixelIndex color = d.
Proof.
  intros Hi. destruct color as [[[r g] b] a]. unfold putPixel.
  now rewrite !store_negative by lia.
Qed.

(** A window whose coordinates pass the two upper-bound tests and still lie
    outside the canvas has a negative row, hence a negative pixel index. *)
Lemma off_canvas_pixelIndex (index canvasWidth canvasHeight : Z) :
  let c := ZOrder.getZOrderCoordinates index canvasWidth in
  ~ (0 <= ZOrder.x c < canvasWidth /\ 0 <= ZOrder.y c < canvasHeight) ->
  (ZOrder.x c <? canvasWidth) && (ZOrder.y c <? canvasHeight) = true ->
  (ZOrder.y c * canvasWidth + ZOrder.x c) * 4 + 3 < 0.
Proof.
  intros c Hout Hin.
  apply andb_true_iff in Hin. destruct Hin as [Hx Hy].
  apply Z.ltb_lt in Hx, Hy.
  pose proof (getZ_x_range index canvasWidth) as Hxr. fold c in Hxr.
  assert (Hyneg : ZOrder.y c < 0) by lia.
  assert (Hw : 0 < canvasWidth) by lia.
  assert (ZOrder.y c * canvasWidth <= - canvasWidth).
  { replace (- canvasWidth) with ((-1) * canvasWidth) by lia.
    apply Z.mul_le_mono_nonneg_r; lia. }
  lia.
Qed.

(** ** The mono pass *)

Lemma bind_Ret {A B : Type} (m : M A) (k : A -> M B) (w w' : World) (a : A) :
  m w = (Ret a, w') -> bind m k w = k a w'.
Proof. intros H. unfold bind. now rewrite H. Qed.

Lemma In_upto (j i : Z) (n : nat) : In j (upto i n) <-> i <= j < i + Z.of_nat n.
Proof.
  revert i. induction n as [|n IH]; intros i; simpl.
  - lia.
  - rewrite IH. lia.
Qed.

Lemma length_upto (i : Z) (n : nat) : length (upto i n) = n.
Proof. revert i. induction n as [|n IH]; intros i; simpl; [reflexivity|now rewrite IH]. Qed.

Lemma drawMonoWindow_real (viridisMap : Z -> RGBColor) (W H index : Z) (a b p : R) (d : list Z) :
  exists d', drawMonoWindow viridisMap W H (Num a) (Num b) index (Num p) d = Ret d'.
Proof.
  unfold drawMonoWindow.
  destruct (_ && _); [|eexists; reflexivity].
  destruct (powerToColor_real viridisMap p a b) as [c ->]. eexists. reflexivity.
Qed.

Section MonoPass.
Variable viridisMap : Z -> RGBColor.
Variables (audioData : list R) (windowIntervalSamples : Q).
Variables (windowSize zOrderOffset canvasWidth canvasHeight : Z).
Variable imageData : ImageData.

Local Abbreviation powerAt' := (powerAt audioData windowIntervalSamples windowSize).

Lemma showProgress_canvas (i : Z) (img : ImageData) (w : World) :
  exists cv, showProgress i img w = (Ret tt, {| state := state w; canvas := cv |}).
Proof.
  unfold showProgress. destruct (i mod 1000 =? 0).
  - eexists. reflexivity.
  - exists (canvas w). destruct w. reflexivity.
Qed.

Lemma monoStep_real (a m : R) (i : Z) (ps : list number) (d : list Z) (w : World) :
  is_real (powerAt' i) ->
  exists d' cv,
    monoStep viridisMap audioData windowIntervalSamples windowSize zOrderOffset
      canvasWidth canvasHeight (Num a) (Num m) imageData i (ps, d) w
    = (Ret (ps ++ [powerAt' i], d'), {| state := state w; canvas := cv |}).
Proof.
  intros [p Hp]. unfold monoStep, bind, lift. fold (powerAt audioData windowIntervalSamples windowSize i). rewrite Hp.
  destruct (drawMonoWindow_real viridisMap canvasWidth canvasHeight (i + zOrderOffset)
              a m p d) as [d1 ->].
  match goal with |- context [showProgress i ?img w] =>
    destruct (showProgress_canvas i img w) as [cv ->] end.
  exists d1, cv. reflexivity.
Qed.

Lemma monoLoop_real (a m : R) (n : nat) (i : Z) (ps : list number) (d : list Z) (w : World) :
  (forall j, In j (upto i n) -> is_real (powerAt' j)) ->
  exists d' cv,
    for_loopM n i
      (monoStep viridisMap audioData windowIntervalSamples windowSize zOrderOffset
         canvasWidth canvasHeight (Num a) (Num m) imageData) (ps, d) w
    = (Ret (ps ++ map powerAt' (upto i n), d'), {| state := state w; canvas := cv |}).
Proof.
  revert i ps d w. induction n as [|n IH]; intros i ps d w Hreal; cbn [for_loopM upto map].
  - exists d, (canvas w). rewrite app_nil_r. destruct w. reflexivity.
  - destruct (monoStep_real a m i ps d w (Hreal i (or_introl eq_refl)))
      as (d1 & cv1 & Hstep).
    rewrite (bind_Ret _ _ _ _ _ Hstep).
    destruct (IH (i + 1) (ps ++ [powerAt' i]) d1 {| state := state w; canvas := cv1 |})
      as (d2 & cv2 & Hloop).
    { intros j Hj. apply Hreal. now right. }
    exists d2, cv2. rewrite Hloop. simpl. now rewrite <- app_assoc.
Qed.

End MonoPass.

Lemma Math_max_real (a b : R) : is_real (Math_max (Num a) (Num b)).
Proof. unfold Math_max, leb. destruct (Rle_dec a b); eexists; reflexivity. Qed.

Lemma maxOf_real (ps : list number) : Forall is_real ps -> is_real (maxOf ps).
Proof.
  unfold maxOf. assert (H0 : is_real (of_Z 0)) by (eexists; reflexivity).
  revert H0. generalize (of_Z 0). induction ps as [|p ps IH]; intros acc Hacc Hps; simpl.
  - exact Hacc.
  - inversion Hps as [|? ? [r ->] Hps']; subst. destruct Hacc as [a ->].
    apply IH; [apply Math_max_real|exact Hps'].
Qed.

Lemma orOne_real (m : number) : is_real m -> is_real (orOne m).
Proof.
  intros [r ->]. unfold orOne. destruct (strict_eq _ _); eexists; reflexivity.
Qed.

Lemma element_real (ps : list number) (i : Z) :
  Forall is_real ps -> 0 <= i < Z.of_nat (length ps) -> is_real (element ps i).
Proof.
  intros Hps Hi. unfold element.
  destruct (Z.ltb_spec i 0); [lia|].
  destruct (nth_error ps (Z.to_nat i)) as [v|] eqn:Hv.
  - rewrite Forall_forall in Hps. apply Hps. eapply nth_error_In; eauto.
  - apply nth_error_None in Hv. lia.
Qed.

Lemma redrawMonoLoop_real (viridisMap : Z -> RGBColor) (st : AppState) (off : Z)
    (ps : list number) (a m : R) (n : nat) (i : Z) (d : list Z) (w : World) :
  Forall is_real ps -> 0 <= i -> i + Z.of_nat n <= Z.of_nat (length ps) ->
  exists d', for_loopM n i (redrawMonoStep viridisMap st off ps (Num a) (Num m)) d w
             = (Ret d', w).
Proof.
  intros Hps. revert i d. induction n as [|n IH]; intros i d Hi Hn; cbn [for_loopM].
  - eexists. reflexivity.
  - destruct (element_real ps i Hps) as [p Hp]; [lia|].
    unfold bind at 1. unfold redrawMonoStep at 1. unfold lift. rewrite Hp.
    destruct (drawMonoWindow_real viridisMap (cachedCanvasWidth st) (cachedCanvasHeight st)
                (i + off) a m p d) as [d1 ->].
    apply IH; lia.
Qed.

(** A redraw of a mono cache of real powers completes. *)
Lemma redrawCanvas_mono_returns (viridisMap : Z -> RGBColor) (off : Z) (w : World)
    (ps : list number) (m : R) :
  cachedVizMode (state w) = mono ->
  cachedPowers (state w) = Some ps ->
  Forall is_real ps ->
  maxPowerMono (state w) = Num m ->
  cachedCanvasWidth (state w) <> 0 ->
  cachedCanvasHeight (state w) <> 0 ->
  exists cv, redrawCanvas viridisMap off w = (Ret tt, {| state := state w; canvas := cv |}).
Proof.
  intros Hmode Hps Hreal Hmax HW HH.
  unfold redrawCanvas, bind at 1, getState. rewrite Hps.
  assert (Hc : exists img, createImageData (cachedCanvasWidth (state w))
                             (cachedCanvasHeight (state w)) = Ret img).
  { unfold createImageData.
    destruct (Z.eqb_spec (cachedCanvasWidth (state w)) 0); [contradiction|].
    destruct (Z.eqb_spec (cachedCanvasHeight (state w)) 0); [contradiction|].
    eexists. reflexivity. }
  destruct Hc as [img Himg].
  assert (Hgo :
    bind (lift (createImageData (cachedCanvasWidth (state w)) (cachedCanvasHeight (state w))))
      (fun imageData =>
         bind
           (for_rangeM 0 (Z.of_nat (length ps))
              (redrawMonoStep viridisMap (state w) off ps (of_Z 0) (maxPowerMono (state w)))
              (clearToBlack (data imageData)))
           (fun d => setCanvas (putImageData
              {| width := width imageData; height := height imageData; data := d |}))) w
    = (Ret tt, {| state := state w;
                  canvas := canvas (snd (
                    bind (lift (createImageData (cachedCanvasWidth (state w)) (cachedCanvasHeight (state w))))
      (fun imageData =>
         bind
           (for_rangeM 0 (Z.of_nat (length ps))
              (redrawMonoStep viridisMap (state w) off ps (of_Z 0) (maxPowerMono (state w)))
              (clearToBlack (data imageData)))
           (fun d => setCanvas (putImageData
              {| width := width imageData; height := height imageData; data := d |}))) w)) |})).
  { unfold bind at 1 3, lift. rewrite Himg. rewrite Hmax. unfold for_rangeM, of_Z.
    destruct (redrawMonoLoop_real viridisMap (state w) off ps (IZR 0) m
                (Z.to_nat (Z.of_nat (length ps) - 0)) 0 (clearToBlack (data img)) w Hreal)
      as [d' Hloop]; [lia|lia|].
    unfold bind. rewrite Hloop. reflexivity. }
  rewrite Hmode.
  destruct (cachedRGBPowers (state w)); eexists; exact Hgo.
Qed.

(** When every window power is a real number and the provisional maximum
    is one, the pass completes. *)
Lemma processMonoMode_returns (viridisMap : Z -> RGBColor) (inputs : Inputs)
    (audioData : list R) (totalWindows : Z) (windowIntervalSamples : Q)
    (windowSize zOrderOffset canvasWidth canvasHeight : Z) (imageData : ImageData)
    (w : World) (m : R) :
  maxPowerMono (state w) = Num m ->
  canvasWidth <> 0 -> canvasHeight <> 0 ->
  (forall i, 0 <= i < totalWindows ->
     is_real (powerAt audioData windowIntervalSamples windowSize i)) ->
  exists cv,
    processMonoMode viridisMap inputs audioData totalWindows windowIntervalSamples
      windowSize zOrderOffset canvasWidth canvasHeight imageData w
    = (Ret tt,
       {| state := cacheMono inputs
                     (map (powerAt audioData windowIntervalSamples windowSize)
                          (upto 0 (Z.to_nat totalWindows)))
                     canvasWidth canvasHeight (state w);
          canvas := cv |}).
Proof.
  intros Hmax HW HH Hreal.
  unfold processMonoMode, bind at 1, getState, for_rangeM. rewrite Hmax, Z.sub_0_r.
  destruct (monoLoop_real viridisMap audioData windowIntervalSamples windowSize zOrderOffset
              canvasWidth canvasHeight imageData (IZR 0) m (Z.to_nat totalWindows) 0 []
              (data imageData) w) as (d' & cv & Hloop).
  { intros j Hj. apply In_upto in Hj. apply Hreal. lia. }
  unfold of_Z. rewrite (bind_Ret _ _ _ _ _ Hloop). simpl fst.
  unfold bind at 1, setState. cbn [state canvas].
  set (ps := map (powerAt audioData windowIntervalSamples windowSize)
               (upto 0 (Z.to_nat totalWindows))).
  assert (Hps : Forall is_real ps).
  { apply Forall_forall. intros p Hp. apply in_map_iff in Hp.
    destruct Hp as (j & <- & Hj). apply In_upto in Hj. apply Hreal. lia. }
  destruct (orOne_real _ (maxOf_real ps Hps)) as [m' Hm'].
  destruct (redrawCanvas_mono_returns viridisMap zOrderOffset
              {| state := cacheMono inputs ps canvasWidth canvasHeight (state w);
                 canvas := cv |} ps m') as [cv' Hred]; try assumption; try reflexivity.
  exists cv'. exact Hred.
Qed.


(** An empty window in range gives [NaN]. *)
Lemma calculateRMSPower_zero_size (audioData : list R) (startSample : Z) :
  startSample <= Z.of_nat (length audioData) ->
  calculateRMSPower audioData startSample 0 = NaN.
Proof.
  intros Hs. unfold calculateRMSPower, for_range.
  rewrite Z.add_0_r, Z.min_l by lia. rewrite Z.sub_diag.
  cbn [Z.to_nat for_loop]. unfold of_Z, div.
  now rewrite !is_zero_true by reflexivity.
Qed.

Lemma geometry_positive (totalWindows : Z) :
  1 <= totalWindows ->
  0 < Schedule.canvasWidth totalWindows /\ 0 < Schedule.canvasHeight totalWindows.
Proof.
  intros Hn. unfold Schedule.canvasWidth, Schedule.canvasHeight, JSMath.Math_pow2.
  destruct (Math_ceil_log2_least totalWindows Hn) as (_ & Hnn & _).
  destruct (xBits_yBits (Schedule.totalBits totalWindows) Hnn) as (Hy & Hx & _).
  split; apply Z.pow_pos_nonneg; lia.
Qed.


Lemma processAudio_mono_returns (viridisMap : Z -> RGBColor)
    (applyFrequencyFiltering : AudioBuffer -> Q -> Q -> FilteredBands)
    (inputs : Inputs) (w : World) (buffer : AudioBuffer) (m : R) :
  isProcessing (state w) = false ->
  audioBuffer (state w) = Some buffer ->
  vizMode inputs = mono ->
  maxPowerMono (state w) = Num m ->
  let interval := Schedule.windowIntervalSamples (bpm inputs) (samplesPerBeat inputs)
                    (sampleRate buffer) in
  let total := Schedule.totalWindows (Z.of_nat (length (channelData0 buffer))) interval in
  ~ (Schedule.windowsPerSecond (bpm inputs) (samplesPerBeat inputs) == 0)%Q ->
  1 <= total ->
  (forall i, 0 <= i < total ->
     is_real (powerAt (channelData0 buffer) interval (windowSize inputs) i)) ->
  exists cv,
    processAudio viridisMap applyFrequencyFiltering inputs w
    = (Ret tt,
       {| state := afterMonoPass inputs
                     (map (powerAt (channelData0 buffer) interval (windowSize inputs))
                          (upto 0 (Z.to_nat total)))
                     (Schedule.canvasWidth total) (Schedule.canvasHeight total) (state w);
          canvas := cv |}).
Proof.
  intros Hproc Hbuf Hmode Hmax interval total Hwps Htotal Hreal.
  unfold processAudio, bind at 1, getState. rewrite Hproc, Hbuf, Hmode.
  unfold bind at 1, setProcessing, setState. cbn [state canvas].
  destruct (Qeq_bool _ 0) eqn:Hq; [apply Qeq_bool_iff in Hq; contradiction|].
  fold interval. fold total.
  destruct (Z.ltb_spec total 1); [lia|].
  unfold bind at 1, setCanvas. cbn [state canvas].
  destruct (geometry_positive total Htotal) as [HW HH].
  unfold bind at 1, lift, createImageData.
  destruct (Z.eqb_spec (Schedule.canvasWidth total) 0); [lia|].
  destruct (Z.eqb_spec (Schedule.canvasHeight total) 0); [lia|].
  cbn [orb].
  match goal with
  | |- context [processMonoMode ?vm ?inp ?a ?t ?iv ?ws ?off ?cw ?ch ?img] =>
      destruct (processMonoMode_returns vm inp a t iv ws off cw ch img
        {| state :=
             {| audioBuffer := audioBuffer (state w);
                isProcessing := true;
                cachedPowers := cachedPowers (state w);
                cachedRGBPowers := cachedRGBPowers (state w);
                cachedCanvasWidth := cachedCanvasWidth (state w);
                cachedCanvasHeight := cachedCanvasHeight (state w);
                cachedSamplesPerBeat := cachedSamplesPerBeat (state w);
                cachedVizMode := cachedVizMode (state w);
                maxPowerMono := maxPowerMono (state w);
                maxPowerRGB := maxPowerRGB (state w) |};
           canvas := resetCanvas cw ch |} m) as [cv Hrun];
        [exact Hmax|lia|lia|exact Hreal|]
  end.
  unfold bind. rewrite Hrun. unfold setProcessing, setState.
  exists cv. reflexivity.
Qed.

(** ** Sign and kind of binary64 results *)

Lemma shape_eqb_refl (a : shape) : shape_eqb a a = true.
Proof. destruct a as [|[]|[]|[]]; reflexivity. Qed.

Lemma shape_eqb_eq (a b : shape) : shape_eqb a b = true -> a = b.
Proof. destruct a as [|[]|[]|[]], b as [|[]|[]|[]]; simpl; congruence. Qed.

Lemma shape_in_head (a : shape) (l : list shape) : shape_in a (a :: l) = true.
Proof. unfold shape_in. simpl. now rewrite shape_eqb_refl. Qed.

Lemma shape_in_In (a : shape) (l : list shape) : shape_in a l = true <-> In a l.
Proof.
  unfold shape_in. rewrite existsb_exists. split.
  - intros (b & Hb & E). apply shape_eqb_eq in E. now subst.
  - intros H. exists a. split; [exact H|apply shape_eqb_refl].
Qed.

Section Rounding.
Let prec := Binary64.prec.
Let emax := Binary64.emax.

Lemma shr_1_nonneg (mrs : shr_record) : 0 <= shr_m mrs -> 0 <= shr_m (shr_1 mrs).
Proof.
  destruct mrs as [m r s]. cbn [shr_m]. intros Hm.
  destruct m as [|[p|p|]|p]; cbn; lia.
Qed.

Lemma iter_shr_1_nonneg (p : positive) (mrs : shr_record) :
  0 <= shr_m mrs -> 0 <= shr_m (iter_pos shr_1 p mrs).
Proof.
  revert mrs. induction p as [p IH|p IH|]; intros mrs Hm; cbn [iter_pos].
  - apply IH, IH, shr_1_nonneg, Hm.
  - apply IH, IH, Hm.
  - apply shr_1_nonneg, Hm.
Qed.

Lemma shr_fexp_nonneg (m e : Z) (l : location) :
  0 <= m -> 0 <= shr_m (fst (shr_fexp prec emax m e l)).
Proof.
  intros Hm. unfold shr_fexp, shr.
  assert (H0 : 0 <= shr_m (shr_record_of_loc m l)).
  { destruct l as [|[]]; exact Hm. }
  destruct (fexp prec emax (Zdigits2 m + e) - e) as [|p|p]; cbn [fst]; try exact H0.
  apply iter_shr_1_nonneg, H0.
Qed.

Lemma round_nearest_even_nonneg (m : Z) (l : location) :
  0 <= m -> 0 <= round_nearest_even m l.
Proof.
  intros Hm. unfold round_nearest_even.
  destruct l as [|[]]; try destruct (Z.even m); lia.
Qed.

(** Rounding a non-negative mantissa keeps the sign and never gives
    [NaN]. *)
Lemma binary_round_aux_shape (s : bool) (m e : Z) (l : location) :
  0 <= m ->
  In (shape_of (binary_round_aux prec emax s m e l)) (rounded s).
Proof.
  intros Hm. unfold binary_round_aux.
  pose proof (shr_fexp_nonneg m e l Hm) as H1.
  destruct (shr_fexp prec emax m e l) as [mrs' e']. cbn [fst] in H1.
  pose proof (shr_fexp_nonneg _ e' loc_Exact
                (round_nearest_even_nonneg _ (loc_of_shr_record mrs') H1)) as H2.
  destruct (shr_fexp prec emax _ e' loc_Exact) as [mrs'' e'']. cbn [fst] in H2.
  destruct (shr_m mrs'') as [|p|p]; [left; reflexivity| |lia].
  destruct (e'' <=? emax - prec); [right; left|right; right; left]; reflexivity.
Qed.

Lemma binary_round_shape (s : bool) (m : positive) (e : Z) :
  In (shape_of (binary_round prec emax s m e)) (rounded s).
Proof.
  unfold binary_round. destruct (shl_align m e _) as [mz ez].
  apply binary_round_aux_shape. lia.
Qed.

End Rounding.

Section BinaryShapes.
Import Binary64.

Lemma mul_shape (a b : double) :
  In (shape_of (mul a b)) (mul_shapes (shape_of a) (shape_of b)).
Proof.
  destruct a as [sa|sa| |sa ma ea], b as [sb|sb| |sb mb eb]; cbn; auto.
  apply (binary_round_aux_shape (xorb sa sb)). lia.
Qed.

Lemma div_shape (a b : double) :
  In (shape_of (div a b)) (div_shapes (shape_of a) (shape_of b)).
Proof.
  destruct a as [sa|sa| |sa ma ea], b as [sb|sb| |sb mb eb]; cbn -[SFdiv_core_binary]; auto.
  unfold div, SFdiv.
  destruct (SFdiv_core_binary prec emax (Z.pos ma) ea (Z.pos mb) eb) as [[mz ez] lz] eqn:Hc.
  apply (binary_round_aux_shape (xorb sa sb)).
  unfold SFdiv_core_binary in Hc.
  destruct (Z.div_eucl _ (Z.pos mb)) as [q r] eqn:Hq.
  injection Hc as <- _ _.
  match type of Hq with Z.div_eucl ?n _ = _ =>
    assert (Hn : 0 <= n) by (destruct (_ - _ - _) as [|p|p]; [lia|apply Z.shiftl_nonneg; lia|lia]);
    pose proof (Z.div_pos n (Z.pos mb) Hn ltac:(lia)) as Hd;
    unfold Z.div in Hd; rewrite Hq in Hd; exact Hd
  end.
Qed.

Lemma of_Z_shape (z : Z) :
  In (shape_of (of_Z z))
     (if z =? 0 then [Zero false] else rounded (z <? 0)).
Proof.
  unfold of_Z, binary_normalize. destruct z as [|p|p]; cbn [Z.eqb Z.ltb Z.compare].
  - left. reflexivity.
  - apply binary_round_shape.
  - apply binary_round_shape.
Qed.


Lemma Math_floor_shape (a : double) :
  match shape_of a with
  | Nan => Math_floor a = NotANumber
  | Zero _ => Math_floor a = Int 0
  | Fin true => exists z, Math_floor a = Int z /\ z < 0
  | Fin false => exists z, Math_floor a = Int z /\ 0 <= z
  | Infty true => Math_floor a = MinusInfinity
  | Infty false => Math_floor a = PlusInfinity
  end.
Proof.
  destruct a as [s|[]| |[] m e]; cbn; try reflexivity.
  - eexists. split; [reflexivity|]. apply Z.shiftl_neg. lia.
  - eexists. split; [reflexivity|]. apply Z.shiftl_nonneg. lia.
Qed.

End BinaryShapes.

Ltac split_shapes :=
  repeat (cbn beta iota delta [mul_shapes div_shapes rounded xorb In] in *;
          match goal with
          | H : False |- _ => destruct H
          | H : _ \/ _ |- _ => destruct H as [H|H]
          | H : _ = ?v |- _ => is_var v; subst v
          | H : ?v = _ |- _ => is_var v; subst v
          end).




Lemma of_Z_nonneg_shape (z : Z) :
  0 <= z -> In (shape_of (Binary64.of_Z z)) [Zero false; Fin false; Infty false].
Proof.
  intros Hz. pose proof (of_Z_shape z) as H.
  destruct (Z.eqb_spec z 0).
  - destruct H as [<-|[]]. now left.
  - destruct (Z.ltb_spec z 0); [lia|]. exact H.
Qed.


(** A window count of at least 1 comes from a finite positive interval. *)
Lemma windows_need_interval (audioLength n : Z) (interval : Binary64.double) :
  0 <= audioLength ->
  Schedule64.totalWindows audioLength interval = Binary64.Int n -> 1 <= n ->
  shape_of interval = Fin false.
Proof.
  intros HL Ht Hn. unfold Schedule64.totalWindows in Ht.
  pose proof (of_Z_nonneg_shape audioLength HL) as H4.
  pose proof (div_shape (Binary64.of_Z audioLength) interval) as H5.
  pose proof (Math_floor_shape (Binary64.div (Binary64.of_Z audioLength) interval)) as H6.
  rewrite Ht in H6. revert H4 H5 H6.
  generalize (shape_of (Binary64.div (Binary64.of_Z audioLength) interval)).
  generalize (shape_of (Binary64.of_Z audioLength)).
  generalize (shape_of interval).
  intros s3 s4 s5 H4 H5 H6.
  destruct s3 as [|[]|[]|[]]; try reflexivity; exfalso; split_shapes;
    try discriminate; try (injection H6 as H6; lia);
    try (destruct H6 as (z & E & Hz); injection E as E; lia).
Qed.

(** The start sample of a window of a pass is an integer or [+Infinity]:
    never [NaN]. *)
Lemma startSample_of_pass (i : Z) (interval : Binary64.double) :
  0 <= i -> shape_of interval = Fin false ->
  (exists s, Schedule64.startSample i interval = Binary64.Int s /\ 0 <= s)
  \/ Schedule64.startSample i interval = Binary64.PlusInfinity.
Proof.
  intros Hi Hs. unfold Schedule64.startSample.
  pose proof (of_Z_nonneg_shape i Hi) as H1.
  pose proof (mul_shape (Binary64.of_Z i) interval) as H2. rewrite Hs in H2.
  destruct (Binary64.mul (Binary64.of_Z i) interval) as [s|s| |s m e];
    cbn [shape_of] in H2; revert H1 H2; generalize (shape_of (Binary64.of_Z i));
    intros s1 H1 H2; split_shapes; try discriminate.
  all: try (left; exists 0; split; [reflexivity|lia]).
  all: try (injection H2 as <-).
  all: try (right; reflexivity).
  all: left; unfold Binary64.Math_round, Binary64.signed, cond_Zopp;
    destruct (e <? 0); eexists; (split; [reflexivity|]).
  all: try (apply Z.shiftr_nonneg; pose proof (Z.pow_nonneg 2 (- e) ltac:(lia)); lia).
  all: try (apply Z.shiftl_nonneg; lia).
Qed.

Lemma startSample_0 (interval : Binary64.double) :
  shape_of interval = Fin false -> Schedule64.startSample 0 interval = Binary64.Int 0.
Proof.
  intros Hs. unfold Schedule64.startSample.
  destruct interval as [s|s| |[] m e]; try discriminate. reflexivity.
Qed.

(** ** The pass in binary64 *)

Lemma preserves_showProgress (i : Z) (img : ImageData) : preserves_state (showProgress i img).
Proof. unfold showProgress. destruct (i mod 1000 =? 0); auto with preserves. Qed.


(** For an integer offset the redraw is the one of [Visualizer]. *)
Lemma redrawCanvas64_Int (viridisMap : Z -> RGBColor) (z : Z) :
  Controller64.redrawCanvas viridisMap (Binary64.Int z) = redrawCanvas viridisMap z.
Proof. reflexivity. Qed.

Lemma redrawMonoLoop64_real (viridisMap : Z -> RGBColor) (st : AppState) (off : Binary64.integral)
    (ps : list number) (a m : R) (n : nat) (i : Z) (d : list Z) (w : World) :
  Forall is_real ps -> 0 <= i -> i + Z.of_nat n <= Z.of_nat (length ps) ->
  exists d',
    for_loopM n i (Controller64.redrawMonoStep viridisMap st off ps (Num a) (Num m)) d w
    = (Ret d', w).
Proof.
  intros Hps. revert i d. induction n as [|n IH]; intros i d Hi Hn; cbn [for_loopM].
  - eexists. reflexivity.
  - destruct (element_real ps i Hps) as [p Hp]; [lia|].
    unfold bind at 1. unfold Controller64.redrawMonoStep at 1. unfold lift. rewrite Hp.
    destruct (drawMonoWindow_real viridisMap (cachedCanvasWidth st) (cachedCanvasHeight st)
                (Controller64.adjustedIndex i off) a m p d) as [d1 ->].
    apply IH; lia.
Qed.

Lemma createImageData_returns (sw sh : Z) :
  sw <> 0 -> sh <> 0 -> exists img, createImageData sw sh = Ret img.
Proof.
  intros Hw Hh. unfold createImageData.
  destruct (Z.eqb_spec sw 0); [contradiction|].
  destruct (Z.eqb_spec sh 0); [contradiction|].
  eexists. reflexivity.
Qed.

(** A redraw of a mono cache of real powers completes. *)
Lemma redrawCanvas64_mono_returns (viridisMap : Z -> RGBColor) (off : Binary64.integral)
    (st : AppState) (cv0 : Canvas) (ps : list number) (m : R) :
  cachedVizMode st = mono ->
  cachedPowers st = Some ps ->
  Forall is_real ps ->
  maxPowerMono st = Num m ->
  cachedCanvasWidth st <> 0 ->
  cachedCanvasHeight st <> 0 ->
  exists cv,
    Controller64.redrawCanvas viridisMap off {| state := st; canvas := cv0 |}
    = (Ret tt, {| state := st; canvas := cv |}).
Proof.
  intros Hmode Hps Hreal Hmax HW HH.
  unfold Controller64.redrawCanvas, bind at 1, getState. cbn [state].
  rewrite Hps, Hmode, Hmax.
  destruct (createImageData_returns _ _ HW HH) as [img Himg].
  assert (Hrun : exists cv,
    bind (lift (createImageData (cachedCanvasWidth st) (cachedCanvasHeight st)))
      (fun imageData =>
         bind
           (for_rangeM 0 (Z.of_nat (length ps))
              (Controller64.redrawMonoStep viridisMap st off ps (of_Z 0) (Num m))
              (clearToBlack (data imageData)))
           (fun d => setCanvas (putImageData
              {| width := width imageData; height := height imageData; data := d |})))
      {| state := st; canvas := cv0 |}
    = (Ret tt, {| state := st; canvas := cv |})).
  { unfold bind at 1, lift. rewrite Himg. unfold for_rangeM, of_Z.
    destruct (redrawMonoLoop64_real viridisMap st off ps (IZR 0) m
                (Z.to_nat (Z.of_nat (length ps) - 0)) 0 (clearToBlack (data img))
                {| state := st; canvas := cv0 |} Hreal) as [d' Hloop]; [lia|lia|].
    unfold bind. rewrite Hloop. eexists. reflexivity. }
  destruct Hrun as [cv Hrun]. exists cv.
  destruct (cachedRGBPowers st); exact Hrun.
Qed.

Lemma redrawCanvas64_rgb_returns (viridisMap : Z -> RGBColor) (off : Binary64.integral)
    (st : AppState) (cv0 : Canvas) (bands : RGBPowers) :
  cachedPowers st = None ->
  cachedRGBPowers st = Some bands ->
  cachedCanvasWidth st <> 0 ->
  cachedCanvasHeight st <> 0 ->
  exists cv,
    Controller64.redrawCanvas viridisMap off {| state := st; canvas := cv0 |}
    = (Ret tt, {| state := st; canvas := cv |}).
Proof.
  intros Hp Hb HW HH.
  unfold Controller64.redrawCanvas, bind at 1, getState. cbn [state]. rewrite Hp, Hb.
  destruct (createImageData_returns _ _ HW HH) as [img Himg].
  unfold bind at 1, lift. rewrite Himg.
  assert (Hloop : forall n i d w0, exists d',
            for_loopM n i (Controller64.redrawRGBStep st off bands) d w0 = (Ret d', w0)).
  { induction n as [|n IH]; intros i d w0.
    - exists d. reflexivity.
    - cbn [for_loopM]. unfold bind, Controller64.redrawRGBStep at 1, ret at 1. apply IH. }
  unfold for_rangeM.
  destruct (Hloop (Z.to_nat (Z.of_nat (length (low bands)) - 0)) 0
              (clearToBlack (data img)) {| state := st; canvas := cv0 |}) as [d' Hd].
  destruct (cachedVizMode st); unfold bind; rewrite Hd; eexists; reflexivity.
Qed.

Section MonoPass64.
Variable viridisMap : Z -> RGBColor.
Variables (audioData : list R) (windowIntervalSamples : Binary64.double).
Variables (windowSize : Z) (zOrderOffset : Binary64.integral) (canvasWidth canvasHeight : Z).
Variable imageData : ImageData.

Local Abbreviation power64 :=
  (fun i => Controller64.calculateRMSPowerAt audioData
              (Schedule64.startSample i windowIntervalSamples) windowSize).

Local Abbreviation step64 :=
  (Controller64.monoStep viridisMap audioData windowIntervalSamples windowSize
     zOrderOffset canvasWidth canvasHeight).




Lemma monoStep64_real (a m : R) (i : Z) (ps : list number) (d : list Z) (w : World) :
  is_real (power64 i) ->
  exists d' cv,
    step64 (Num a) (Num m) imageData i (ps, d) w
    = (Ret (ps ++ [power64 i], d'), {| state := state w; canvas := cv |}).
Proof.
  intros [p Hp]. unfold Controller64.monoStep, bind, lift. rewrite Hp.
  destruct (drawMonoWindow_real viridisMap canvasWidth canvasHeight
              (Controller64.adjustedIndex i zOrderOffset) a m p d) as [d1 ->].
  match goal with |- context [showProgress i ?img w] =>
    destruct (showProgress_canvas i img w) as [cv ->] end.
  exists d1, cv. reflexivity.
Qed.

Lemma monoLoop64_real (a m : R) (n : nat) (i : Z) (ps : list number) (d : list Z)
    (w : World) :
  (forall j, In j (upto i n) -> is_real (power64 j)) ->
  exists d' cv,
    for_loopM n i (step64 (Num a) (Num m) imageData) (ps, d) w
    = (Ret (ps ++ map power64 (upto i n), d'), {| state := state w; canvas := cv |}).
Proof.
  revert i ps d w. induction n as [|n IH]; intros i ps d w Hreal; cbn [for_loopM upto map].
  - exists d, (canvas w). rewrite app_nil_r. destruct w. reflexivity.
  - destruct (monoStep64_real a m i ps d w (Hreal i (or_introl eq_refl)))
      as (d1 & cv1 & Hstep).
    rewrite (bind_Ret _ _ _ _ _ Hstep).
    destruct (IH (i + 1) (ps ++ [power64 i]) d1 {| state := state w; canvas := cv1 |})
      as (d2 & cv2 & Hloop).
    { intros j Hj. apply Hreal. now right. }
    exists d2, cv2. rewrite Hloop. cbn [state]. now rewrite <- app_assoc.
Qed.

End MonoPass64.

(** When every window power is a real number and the provisional maximum
    is one, the mono pass completes and caches the powers. *)
Lemma processMonoMode64_returns (viridisMap : Z -> RGBColor) (inputs : Controller64.Inputs)
    (audioData : list R) (totalWindows : Z) (windowIntervalSamples : Binary64.double)
    (windowSize : Z) (zOrderOffset : Binary64.integral) (canvasWidth canvasHeight : Z)
    (imageData : ImageData) (w : World) (m : R) :
  maxPowerMono (state w) = Num m ->
  canvasWidth <> 0 -> canvasHeight <> 0 ->
  (forall i, 0 <= i < totalWindows ->
     is_real (Controller64.calculateRMSPowerAt audioData
                (Schedule64.startSample i windowIntervalSamples) windowSize)) ->
  exists cv,
    Controller64.processMonoMode viridisMap inputs audioData totalWindows
      windowIntervalSamples windowSize zOrderOffset canvasWidth canvasHeight imageData w
    = (Ret tt,
       {| state := Controller64.cacheMono inputs
                     (map (fun i => Controller64.calculateRMSPowerAt audioData
                                      (Schedule64.startSample i windowIntervalSamples)
                                      windowSize)
                          (upto 0 (Z.to_nat totalWindows)))
                     canvasWidth canvasHeight (state w);
          canvas := cv |}).
Proof.
  intros Hmax HW HH Hreal.
  unfold Controller64.processMonoMode, bind at 1, getState, for_rangeM.
  rewrite Z.sub_0_r, Hmax. unfold of_Z.
  destruct (monoLoop64_real viridisMap audioData windowIntervalSamples windowSize
              zOrderOffset canvasWidth canvasHeight imageData (IZR 0) m
              (Z.to_nat totalWindows) 0 [] (data imageData) w) as (d' & cv1 & Hloop).
  { intros j Hj. apply In_upto in Hj. apply Hreal. lia. }
  rewrite (bind_Ret _ _ _ _ _ Hloop). cbn [app fst].
  unfold bind at 1, setState. cbn [state canvas].
  set (ps := map _ (upto 0 (Z.to_nat totalWindows))).
  assert (Hps : Forall is_real ps).
  { apply Forall_forall. intros p Hp. apply in_map_iff in Hp.
    destruct Hp as (j & <- & Hj). apply In_upto in Hj. apply Hreal. lia. }
  destruct (orOne_real _ (maxOf_real ps Hps)) as [m' Hm'].
  apply (redrawCanvas64_mono_returns viridisMap zOrderOffset
           (Controller64.cacheMono inputs ps canvasWidth canvasHeight (state w)) cv1 ps m');
    try reflexivity; assumption.
Qed.

Section RGBPass64.
Variables (filteredBands : FilteredBands) (windowIntervalSamples : Binary64.double).
Variables (windowSize : Z) (zOrderOffset : Binary64.integral) (canvasWidth canvasHeight : Z).
Variables (tempMaxRGB : MaxPowerRGB) (imageData : ImageData).

Local Abbreviation band64 :=
  (fun band i => Controller64.calculateRMSPowerAt band
                   (Schedule64.startSample i windowIntervalSamples) windowSize).

Local Abbreviation rgbStep64 :=
  (Controller64.rgbStep filteredBands windowIntervalSamples windowSize
     zOrderOffset canvasWidth canvasHeight tempMaxRGB imageData).

Lemma rgbStep64_preserves (i : Z) (acc : list number * list number * list number * list Z) :
  preserves_state (rgbStep64 i acc).
Proof.
  unfold Controller64.rgbStep. destruct acc as [[[ls ms] hs] d].
  apply preserves_bind; [apply preserves_showProgress|]. intros _. apply preserves_ret.
Qed.

Lemma rgbLoop64_returns (n : nat) (i : Z) (ls ms hs : list number) (d : list Z) (w : World) :
  exists d' cv,
    for_loopM n i rgbStep64 (ls, ms, hs, d) w
    = (Ret (ls ++ map (band64 (bandLow filteredBands)) (upto i n),
            ms ++ map (band64 (bandMid filteredBands)) (upto i n),
            hs ++ map (band64 (bandHigh filteredBands)) (upto i n),
            d'),
       {| state := state w; canvas := cv |}).
Proof.
  revert i ls ms hs d w. induction n as [|n IH]; intros i ls ms hs d w.
  - exists d, (canvas w). cbn [for_loopM upto map]. rewrite !app_nil_r.
    destruct w; reflexivity.
  - cbn [for_loopM upto map]. unfold bind at 1, Controller64.rgbStep at 1, bind at 1.
    match goal with |- context [showProgress i ?img w] =>
      destruct (showProgress_canvas i img w) as [cv1 Hs] end.
    rewrite Hs. unfold ret at 1.
    match goal with |- context [for_loopM n (i + 1) _ (?a, ?b, ?c, ?d1) ?w1] =>
      destruct (IH (i + 1) a b c d1 w1) as (d' & cv & Hn) end.
    exists d', cv. rewrite Hn. rewrite <- !app_assoc. reflexivity.
Qed.

End RGBPass64.

(** The RGB pass always completes. *)
Lemma processRGBMode64_returns (viridisMap : Z -> RGBColor) (inputs : Controller64.Inputs)
    (filteredBands : FilteredBands) (totalWindows : Z)
    (windowIntervalSamples : Binary64.double) (windowSize : Z)
    (zOrderOffset : Binary64.integral) (canvasWidth canvasHeight : Z)
    (imageData : ImageData) (w : World) :
  canvasWidth <> 0 -> canvasHeight <> 0 ->
  exists cv,
    Controller64.processRGBMode viridisMap inputs filteredBands totalWindows
      windowIntervalSamples windowSize zOrderOffset canvasWidth canvasHeight imageData w
    = (Ret tt,
       {| state :=
            Controller64.cacheRGB inputs
              (map (fun i => Controller64.calculateRMSPowerAt (bandLow filteredBands)
                               (Schedule64.startSample i windowIntervalSamples) windowSize)
                   (upto 0 (Z.to_nat totalWindows)))
              (map (fun i => Controller64.calculateRMSPowerAt (bandMid filteredBands)
                               (Schedule64.startSample i windowIntervalSamples) windowSize)
                   (upto 0 (Z.to_nat totalWindows)))
              (map (fun i => Controller64.calculateRMSPowerAt (bandHigh filteredBands)
                               (Schedule64.startSample i windowIntervalSamples) windowSize)
                   (upto 0 (Z.to_nat totalWindows)))
              canvasWidth canvasHeight (state w);
          canvas := cv |}).
Proof.
  intros HW HH.
  unfold Controller64.processRGBMode, bind at 1, getState, for_rangeM.
  rewrite Z.sub_0_r.
  destruct (rgbLoop64_returns filteredBands windowIntervalSamples windowSize zOrderOffset
              canvasWidth canvasHeight (maxPowerRGB (state w)) imageData
              (Z.to_nat totalWindows) 0 [] [] [] (data imageData) w) as (d' & cv1 & Hl).
  rewrite (bind_Ret _ _ _ _ _ Hl). cbn [app].
  unfold bind at 1, setState. cbn [state canvas].
  eapply redrawCanvas64_rgb_returns; try reflexivity; assumption.
Qed.



Ltac enter_pass Hproc Hbuf :=
  unfold Controller64.processAudio, bind at 1, getState; rewrite Hproc, Hbuf;
  unfold bind at 1, setProcessing at 1, setState at 1; cbn [state canvas].

Ltac size_canvas n Hn :=
  destruct (Z.ltb_spec n 1); [lia|];
  unfold bind at 1, setCanvas at 1; cbn [state canvas];
  let HW := fresh "HW" in let HH := fresh "HH" in
  destruct (geometry_positive n Hn) as [HW HH];
  unfold bind at 1, lift, createImageData;
  destruct (Z.eqb_spec (Schedule.canvasWidth n) 0) as [?E|_]; [lia|];
  destruct (Z.eqb_spec (Schedule.canvasHeight n) 0) as [?E|_]; [lia|];
  cbn [orb].

Section Pass64.
Variable viridisMap : Z -> RGBColor.
Variable applyFrequencyFiltering : AudioBuffer -> Q -> Q -> FilteredBands.
Variable inputs : Controller64.Inputs.
Variable w : World.
Variable buffer : AudioBuffer.
Hypothesis Hproc : isProcessing (state w) = false.
Hypothesis Hbuf : audioBuffer (state w) = Some buffer.

Local Abbreviation run :=
  (Controller64.processAudio viridisMap applyFrequencyFiltering inputs w).
Local Abbreviation interval :=
  (Schedule64.windowIntervalSamples (Controller64.bpm inputs)
     (Controller64.samplesPerBeat inputs) (Binary64.of_Q (sampleRate buffer))).
Local Abbreviation total :=
  (Schedule64.totalWindows
     (Controller64.measuredLength applyFrequencyFiltering inputs buffer) interval).




(** A mono pass over windows whose powers are real numbers completes. *)
Lemma processAudio64_mono_returns (m : R) (n : Z) :
  Controller64.vizMode inputs = mono ->
  maxPowerMono (state w) = Num m ->
  total = Binary64.Int n -> 1 <= n ->
  (forall i, 0 <= i < n ->
     is_real (Controller64.calculateRMSPowerAt (channelData0 buffer)
                (Schedule64.startSample i interval) (Controller64.windowSize inputs))) ->
  exists w',
    run = (Ret tt, w')
    /\ isProcessing (state w') = false
    /\ cachedPowers (state w')
       = Some (map (fun i => Controller64.calculateRMSPowerAt (channelData0 buffer)
                               (Schedule64.startSample i interval)
                               (Controller64.windowSize inputs))
                   (upto 0 (Z.to_nat n))).
Proof.
  intros Hmode Hmax Htotal Hn Hreal.
  enter_pass Hproc Hbuf. rewrite Htotal. size_canvas n Hn. rewrite Hmode.
  match goal with
  | |- context [bind (Controller64.processMonoMode ?vm ?inp ?a ?t ?iv ?ws ?off ?cw ?ch ?img) _ ?w1] =>
      destruct (processMonoMode64_returns vm inp a t iv ws off cw ch img w1 m)
        as (cv & Hrun); [exact Hmax|lia|lia|exact Hreal|]
  end.
  unfold bind. rewrite Hrun. unfold setProcessing, setState.
  eexists. split; [reflexivity|]. cbn. split; reflexivity.
Qed.

End Pass64.





(** ** Whole parts of binary64 values *)

Lemma inject_Z_pow2 (n : Z) : 0 <= n -> (inject_Z (2 ^ n) == Qpower 2 n)%Q.
Proof.
  intros Hn. destruct n as [|p|p]; [reflexivity| |lia].
  change 2%Q with (2 # 1). rewrite Qpower_decomp_pos.
  assert (H1 : (1 ^ p)%positive = 1%positive).
  { apply Pos2Z.inj. rewrite Pos2Z.inj_pow. apply Z.pow_1_l. lia. }
  rewrite H1. reflexivity.
Qed.

(** [Math.floor] gives the whole part of the value. *)
Lemma Math_floor_bounds (a : Binary64.double) (k : Z) :
  Binary64.Math_floor a = Binary64.Int k ->
  exists q, Binary64.to_Q a = Some q /\ (inject_Z k <= q)%Q /\ (q < inject_Z k + 1)%Q.
Proof.
  destruct a as [s|[]| |s m e]; cbn [Binary64.Math_floor Binary64.to_Q]; try discriminate.
  - intros E. injection E as <-. exists 0%Q. split; [reflexivity|].
    split; [apply Qle_refl|reflexivity].
  - intros E. injection E as <-. eexists. split; [reflexivity|].
    set (M := Binary64.signed s m).
    destruct (Z.le_gt_cases 0 e) as [He|He].
    + rewrite Z.shiftl_mul_pow2 by exact He.
      assert (Hq : (inject_Z (M * 2 ^ e) == inject_Z M * Qpower 2 e)%Q).
      { rewrite inject_Z_mult. apply Qmult_comp; [reflexivity|].
        apply inject_Z_pow2, He. }
      rewrite <- Hq. split; [apply Qle_refl|].
      rewrite <- (Qplus_0_r (inject_Z (M * 2 ^ e))) at 1.
      apply Qplus_lt_r. reflexivity.
    + assert (Hn : 0 < - e) by lia.
      replace e with (- - e) by lia. clear He. revert Hn. generalize (- e). intros n Hn.
      rewrite Z.shiftl_opp_r, Z.shiftr_div_pow2 by lia.
      assert (Hp : 0 < 2 ^ n) by (apply Z.pow_pos_nonneg; lia).
      assert (Hq : (Qpower 2 (- n) == 1 / inject_Z (2 ^ n))%Q).
      { rewrite Qpower_opp. rewrite <- (inject_Z_pow2 n) by lia.
        unfold Qdiv. now rewrite Qmult_1_l. }
      rewrite Hq.
      pose proof (Z.div_mod M (2 ^ n) ltac:(lia)) as Hd.
      pose proof (Z.mod_pos_bound M (2 ^ n) Hp) as Hm.
      assert (H1 : (inject_Z (2 ^ n) * inject_Z (M / 2 ^ n) <= inject_Z M)%Q).
      { rewrite <- inject_Z_mult, <- Zle_Qle. lia. }
      assert (H2 : (inject_Z M < inject_Z (2 ^ n) * (inject_Z (M / 2 ^ n) + 1))%Q).
      { change 1%Q with (inject_Z 1). rewrite <- inject_Z_plus, <- inject_Z_mult, <- Zlt_Qlt.
        lia. }
      assert (H0 : (0 < inject_Z (2 ^ n))%Q).
      { change 0%Q with (inject_Z 0). now rewrite <- Zlt_Qlt. }
      revert H0 H1 H2.
      generalize (inject_Z (2 ^ n)) (inject_Z (M / 2 ^ n)) (inject_Z M).
      intros d k x H0 H1 H2.
      assert (E : (x * (1 / d) == x / d)%Q) by (field; lra).
      rewrite E. split.
      * apply Qle_shift_div_l; [exact H0|]. rewrite Qmult_comm. exact H1.
      * apply Qlt_shift_div_r; [exact H0|]. rewrite Qmult_comm. exact H2.
Qed.

(** ** Rounding error of the binary64 operations *)

Lemma shr_1_represents (mrs : shr_record) (N D : Z) :
  0 <= N -> 0 < D -> represents mrs N D -> represents (shr_1 mrs) N (2 * D).
Proof.
  intros HN HD (Hm & Hr & Hs).
  pose proof (Z.mod_pos_bound N D HD) as Hrho.
  pose proof (Z.div_pos N D HN HD) as Hq.
  assert (Hdiv : N / (2 * D) = N / D / 2).
  { rewrite (Z.mul_comm 2 D), Z.div_div by lia. reflexivity. }
  assert (Hmod : N mod (2 * D) = N mod D + D * ((N / D) mod 2)).
  { rewrite (Z.mul_comm 2 D). apply Z.rem_mul_r; lia. }
  pose proof (Z.mod_pos_bound (N / D) 2 ltac:(lia)) as Hb.
  pose proof (Z.div_mod (N / D) 2 ltac:(lia)) as Hdm.
  destruct mrs as [m r s]. cbn [shr_m shr_r shr_s] in Hm, Hr, Hs.
  assert (Hrs : orb r s = negb (N mod D =? 0)).
  { rewrite Hr, Hs.
    destruct (Z.leb_spec D (2 * (N mod D))), (Z.eqb_spec (N mod D) 0),
      (Z.eqb_spec (2 * (N mod D)) D); cbn; try reflexivity; lia. }
  unfold represents. rewrite Hdiv, Hmod. rewrite <- Hm in *. clear Hm.
  assert (Hcases : (m mod 2 = 0 \/ m mod 2 = 1)) by lia.
  unfold shr_1. rewrite Hrs.
  destruct m as [|[p|p|]|p]; try lia; cbn [shr_m shr_r shr_s].
  - (* 0 *)
    change (0 / 2) with 0. change (0 mod 2) with 0. split; [reflexivity|]. split.
    + destruct (Z.leb_spec (2 * D) (2 * (N mod D + D * 0))); [lia|reflexivity].
    + destruct (Z.eqb_spec (N mod D) 0), (Z.eqb_spec (N mod D + D * 0) 0),
        (Z.eqb_spec (2 * (N mod D + D * 0)) (2 * D)); cbn; try reflexivity; lia.
  - (* xI *)
    assert (E : Z.pos p~1 / 2 = Z.pos p /\ Z.pos p~1 mod 2 = 1).
    { rewrite Pos2Z.inj_xI. split.
      - symmetry. apply (Z.div_unique _ 2 _ 1); lia.
      - symmetry. apply (Z.mod_unique _ 2 (Z.pos p) 1); lia. }
    destruct E as [E1 E2]. rewrite E1, E2. split; [reflexivity|]. split.
    + destruct (Z.leb_spec (2 * D) (2 * (N mod D + D * 1))); [reflexivity|lia].
    + destruct (Z.eqb_spec (N mod D) 0), (Z.eqb_spec (N mod D + D * 1) 0),
        (Z.eqb_spec (2 * (N mod D + D * 1)) (2 * D)); cbn; try reflexivity; lia.
  - (* xO *)
    assert (E : Z.pos p~0 / 2 = Z.pos p /\ Z.pos p~0 mod 2 = 0).
    { rewrite Pos2Z.inj_xO. split.
      - symmetry. apply (Z.div_unique _ 2 _ 0); lia.
      - symmetry. apply (Z.mod_unique _ 2 (Z.pos p) 0); lia. }
    destruct E as [E1 E2]. rewrite E1, E2. split; [reflexivity|]. split.
    + destruct (Z.leb_spec (2 * D) (2 * (N mod D + D * 0))); [lia|reflexivity].
    + destruct (Z.eqb_spec (N mod D) 0), (Z.eqb_spec (N mod D + D * 0) 0),
        (Z.eqb_spec (2 * (N mod D + D * 0)) (2 * D)); cbn; try reflexivity; lia.
  - (* 1 *)
    change (1 / 2) with 0. change (1 mod 2) with 1. split; [reflexivity|]. split.
    + destruct (Z.leb_spec (2 * D) (2 * (N mod D + D * 1))); [reflexivity|lia].
    + destruct (Z.eqb_spec (N mod D) 0), (Z.eqb_spec (N mod D + D * 1) 0),
        (Z.eqb_spec (2 * (N mod D + D * 1)) (2 * D)); cbn; try reflexivity; lia.
Qed.

Lemma iter_shr_1_represents (p : positive) (mrs : shr_record) (N D : Z) :
  0 <= N -> 0 < D -> represents mrs N D ->
  represents (iter_pos shr_1 p mrs) N (D * 2 ^ Z.pos p).
Proof.
  intros HN. revert mrs D.
  induction p as [p IH|p IH|]; intros mrs D HD H; cbn [iter_pos].
  - replace (D * 2 ^ Z.pos p~1) with (2 * D * 2 ^ Z.pos p * 2 ^ Z.pos p).
    + apply IH; [|apply IH; [lia|apply shr_1_represents; assumption]].
      apply Z.mul_pos_pos; [lia|apply Z.pow_pos_nonneg; lia].
    + replace (Z.pos p~1) with (1 + Z.pos p + Z.pos p) by lia.
      rewrite !Z.pow_add_r by lia. change (2 ^ 1) with 2. ring.
  - replace (D * 2 ^ Z.pos p~0) with (D * 2 ^ Z.pos p * 2 ^ Z.pos p).
    + apply IH; [|apply IH; assumption].
      apply Z.mul_pos_pos; [lia|apply Z.pow_pos_nonneg; lia].
    + replace (Z.pos p~0) with (Z.pos p + Z.pos p) by lia.
      rewrite Z.pow_add_r by lia. ring.
  - change (2 ^ 1) with 2. rewrite Z.mul_comm. apply shr_1_represents; assumption.
Qed.

Lemma digits2_pos_bounds (p : positive) :
  2 ^ (Z.pos (digits2_pos p) - 1) <= Z.pos p < 2 ^ Z.pos (digits2_pos p).
Proof.
  induction p as [p IH|p IH|]; cbn [digits2_pos].
  - rewrite Pos2Z.inj_succ. replace (Z.succ (Z.pos (digits2_pos p)) - 1)
      with (1 + (Z.pos (digits2_pos p) - 1)) by lia.
    rewrite Z.pow_succ_r, Z.pow_add_r by lia. change (2 ^ 1) with 2. lia.
  - rewrite Pos2Z.inj_succ. replace (Z.succ (Z.pos (digits2_pos p)) - 1)
      with (1 + (Z.pos (digits2_pos p) - 1)) by lia.
    rewrite Z.pow_succ_r, Z.pow_add_r by lia. change (2 ^ 1) with 2. lia.
  - cbn. lia.
Qed.

Lemma Zdigits2_bounds (m : Z) :
  0 < m -> 2 ^ (Zdigits2 m - 1) <= m < 2 ^ Zdigits2 m.
Proof. destruct m as [|p|p]; try lia. intros _. apply digits2_pos_bounds. Qed.

Lemma Zdigits2_nonneg (m : Z) : 0 <= Zdigits2 m.
Proof. destruct m; cbn; lia. Qed.

(** The number of digits from a bound on the value. *)
Lemma Zdigits2_le (m d : Z) : 0 <= m < 2 ^ d -> 0 <= d -> Zdigits2 m <= d.
Proof.
  intros Hm Hd. destruct (Z.eq_dec m 0) as [->|Hne]; [cbn; lia|].
  pose proof (Zdigits2_bounds m ltac:(lia)) as [Hlo _].
  destruct (Z.le_gt_cases (Zdigits2 m) d) as [|Hgt]; [assumption|exfalso].
  assert (2 ^ d <= 2 ^ (Zdigits2 m - 1)) by (apply Z.pow_le_mono_r; lia). lia.
Qed.

Lemma Zdigits2_ge (m d : Z) : 2 ^ (d - 1) <= m -> 0 < d -> d <= Zdigits2 m.
Proof.
  intros Hm Hd. assert (0 < 2 ^ (d - 1)) by (apply Z.pow_pos_nonneg; lia).
  pose proof (Zdigits2_bounds m ltac:(lia)) as [_ Hhi].
  destruct (Z.le_gt_cases d (Zdigits2 m)) as [|Hgt]; [assumption|exfalso].
  assert (2 ^ Zdigits2 m <= 2 ^ (d - 1)).
  { apply Z.pow_le_mono_r; [lia|]. pose proof (Zdigits2_nonneg m). lia. }
  lia.
Qed.

(** [shr] divides by [2 ^ n], for the shift [n] it performs. *)
Lemma shr_represents (mrs : shr_record) (e n N D : Z) :
  0 <= N -> 0 < D -> represents mrs N D ->
  represents (fst (shr mrs e n)) N (D * 2 ^ Z.max n 0)
  /\ snd (shr mrs e n) = e + Z.max n 0.
Proof.
  intros HN HD H. unfold shr. destruct n as [|p|p]; cbn [fst snd].
  - change (Z.max 0 0) with 0. rewrite Z.mul_1_r, Z.add_0_r. split; [exact H|reflexivity].
  - rewrite Z.max_l by lia. split; [|reflexivity].
    apply iter_shr_1_represents; assumption.
  - rewrite Z.max_r by lia. rewrite Z.mul_1_r, Z.add_0_r. split; [exact H|reflexivity].
Qed.

(** Rounding to nearest, ties to even: the result is within a half. *)
Lemma round_nearest_even_represents (mrs : shr_record) (N D : Z) :
  0 <= N -> 0 < D -> represents mrs N D ->
  let m := round_nearest_even (shr_m mrs) (loc_of_shr_record mrs) in
  2 * Z.abs (m * D - N) <= D
  /\ N / D <= m <= N / D + 1
  /\ (N mod D = 0 -> m = N / D).
Proof.
  intros HN HD (Hm & Hr & Hs). cbv zeta.
  pose proof (Z.mod_pos_bound N D HD) as Hrho.
  pose proof (Z.div_mod N D ltac:(lia)) as Hdm.
  destruct mrs as [m r s]. cbn [shr_m shr_r shr_s] in *. subst m.
  unfold loc_of_shr_record, round_nearest_even.
  destruct (Z.leb_spec D (2 * (N mod D))), (Z.eqb_spec (N mod D) 0),
    (Z.eqb_spec (2 * (N mod D)) D); cbn in Hs; subst r s;
    try destruct (Z.even (N / D)); repeat split; try nia.
Qed.

Lemma represents_exact (m : Z) : represents (shr_record_of_loc m loc_Exact) m 1.
Proof.
  unfold represents. cbn [shr_record_of_loc shr_m shr_r shr_s].
  rewrite Z.div_1_r, Z.mod_1_r. repeat split.
Qed.

Lemma pow2_pos (n : Z) : 0 <= n -> 0 < 2 ^ n.
Proof. intros. apply Z.pow_pos_nonneg; lia. Qed.

(** What [binary_round_aux] computes at precision 53: a mantissa [mz] and
    an exponent [ez = ex + n] with [mz * 2 ^ n] within half a unit of
    [N / D]; the mantissa has 53 bits unless the exponent is the least
    one or nothing was shifted. *)
Lemma binary_round_aux_spec (s : bool) (mx ex : Z) (lx : location) (N D : Z) :
  0 <= N -> 0 < D -> represents (shr_record_of_loc mx lx) N D ->
  exists mz ez n,
    0 <= mz /\ 0 <= n /\ ez = ex + n /\ - 1074 <= ez
    /\ 2 * Z.abs (mz * (D * 2 ^ n) - N) <= D * 2 ^ n
    /\ (2 ^ 52 <= mz \/ ez = - 1074 \/ (n = 0 /\ mx <= mz))
    /\ binary_round_aux 53 1024 s mx ex lx
       = match mz with
         | Z0 => S754_zero s
         | Zpos m => if ez <=? 971 then S754_finite s m ez else S754_infinity s
         | Zneg _ => S754_nan
         end.
Proof.
  intros HN HD Hrep.
  assert (Hmx : mx = N / D).
  { destruct Hrep as [H _]. destruct lx as [|[]]; exact H. }
  pose proof (Z.div_pos N D HN HD) as Hmx0. rewrite <- Hmx in Hmx0.
  pose proof (Z.mod_pos_bound N D HD) as Hrho.
  pose proof (Z.div_mod N D ltac:(lia)) as Hdm. rewrite <- Hmx in Hdm.
  unfold binary_round_aux, shr_fexp.
  set (d := Zdigits2 mx).
  set (n1 := fexp 53 1024 (d + ex) - ex).
  assert (Hn1 : n1 = Z.max (d + ex - 53) (- 1074) - ex) by reflexivity.
  destruct (shr_represents (shr_record_of_loc mx lx) ex n1 N D HN HD Hrep) as [H1 He1].
  destruct (shr (shr_record_of_loc mx lx) ex n1) as [mrs' e']. cbn [fst snd] in H1, He1.
  set (k1 := Z.max n1 0) in *.
  assert (Hk1 : 0 <= k1) by lia.
  pose proof (pow2_pos k1 Hk1) as Hp1.
  assert (HD1 : 0 < D * 2 ^ k1) by (apply Z.mul_pos_pos; lia).
  pose proof (Zdigits2_nonneg mx) as Hd0. fold d in Hd0.
  (* the shifted mantissa has at most 53 bits *)
  assert (Hm1 : 0 <= N / (D * 2 ^ k1) < 2 ^ 53).
  { split; [apply Z.div_pos; lia|].
    apply Z.div_lt_upper_bound; [lia|].
    assert (Hlt : N < D * 2 ^ d).
    { destruct (Z.eq_dec mx 0) as [E|E].
      - rewrite E in Hdm. pose proof (pow2_pos d Hd0). nia.
      - pose proof (Zdigits2_bounds mx ltac:(lia)) as [_ Hhi]. fold d in Hhi. nia. }
    assert (Hle : 2 ^ d <= 2 ^ k1 * 2 ^ 53).
    { rewrite <- Z.pow_add_r by lia. apply Z.pow_le_mono_r; lia. }
    nia. }
  assert (He' : - 1074 <= e') by lia.
  destruct (round_nearest_even_represents mrs' N (D * 2 ^ k1) HN HD1 H1)
    as (Herr & Hrange & Hexact).
  set (m' := round_nearest_even (shr_m mrs') (loc_of_shr_record mrs')) in *.
  assert (Hm'0 : 0 <= m' <= 2 ^ 53) by lia.
  set (n2 := fexp 53 1024 (Zdigits2 m' + e') - e').
  assert (Hn2 : n2 = Z.max (Zdigits2 m' + e' - 53) (- 1074) - e') by reflexivity.
  destruct (shr_represents (shr_record_of_loc m' loc_Exact) e' n2 m' 1
              ltac:(lia) ltac:(lia) (represents_exact m')) as [H2 He2].
  destruct (shr (shr_record_of_loc m' loc_Exact) e' n2) as [mrs'' e''].
  cbn [fst snd] in H2, He2. destruct H2 as [H2 _]. rewrite Z.mul_1_l in H2.
  destruct (Z.eq_dec m' (2 ^ 53)) as [Etop|Ntop].
  - (* the rounding carried into bit 54 *)
    assert (Hd' : Zdigits2 m' = 54).
    { apply Z.le_antisymm.
      - apply Zdigits2_le; [rewrite Etop; split; [lia|reflexivity]|lia].
      - apply Zdigits2_ge; [rewrite Etop; cbn; lia|lia]. }
    assert (En2 : n2 = 1) by lia.
    rewrite En2 in H2, He2. change (Z.max 1 0) with 1 in H2, He2.
    change (2 ^ 1) with 2 in H2.
    exists (2 ^ 52), e'', (k1 + 1).
    split; [cbn; lia|]. split; [lia|]. split; [lia|]. split; [lia|].
    split.
    { rewrite Z.pow_add_r by lia. change (2 ^ 1) with 2.
      replace (2 ^ 52 * (D * (2 ^ k1 * 2)) - N) with (m' * (D * 2 ^ k1) - N)
        by (rewrite Etop; change (2 ^ 53) with (2 ^ 52 * 2); ring).
      lia. }
    split; [left; lia|].
    rewrite H2, Etop. change (2 ^ 53 / 2) with (2 ^ 52). reflexivity.
  - (* no carry *)
    assert (Hd' : Zdigits2 m' <= 53) by (apply Zdigits2_le; lia).
    assert (En2 : Z.max n2 0 = 0) by lia.
    rewrite En2 in H2, He2. change (2 ^ 0) with 1 in H2. rewrite Z.div_1_r in H2.
    rewrite Z.add_0_r in He2. subst e''.
    exists m', e', k1.
    split; [lia|]. split; [lia|]. split; [lia|]. split; [lia|].
    split; [exact Herr|]. split.
    + destruct (Z.eq_dec k1 0) as [E0|E0].
      * right. right. split; [exact E0|].
        rewrite E0 in Hrange. change (2 ^ 0) with 1 in Hrange.
        rewrite Z.mul_1_r in Hrange. lia.
      * destruct (Z.le_gt_cases (d + ex - 53) (- 1074)) as [Hsub|Hnorm].
        -- right. left. lia.
        -- left.
           assert (Ek : k1 = d - 53) by lia.
           assert (Hmxpos : 0 < mx).
           { destruct (Z.eq_dec mx 0) as [E|E]; [|lia].
             exfalso. unfold d in Ek. rewrite E in Ek. cbn in Ek. lia. }
           pose proof (Zdigits2_bounds mx Hmxpos) as [Hlo _]. fold d in Hlo.
           assert (Hpow : 2 ^ (d - 1) = 2 ^ k1 * 2 ^ 52).
           { rewrite <- Z.pow_add_r by lia. f_equal. lia. }
           assert (H52 : 2 ^ 52 <= N / (D * 2 ^ k1)).
           { apply Z.div_le_lower_bound; [lia|]. nia. }
           lia.
    + rewrite H2. reflexivity.
Qed.

Lemma Qpower_2_pos (e : Z) : (0 < Qpower 2 e)%Q.
Proof. apply Qpower_0_lt. reflexivity. Qed.

Lemma Qpower_2_add (a b : Z) : (Qpower 2 (a + b) == Qpower 2 a * Qpower 2 b)%Q.
Proof. apply Qpower_plus. discriminate. Qed.

Lemma inject_Z_le (a b : Z) : a <= b -> (inject_Z a <= inject_Z b)%Q.
Proof. intros H. rewrite <- Zle_Qle. exact H. Qed.

Lemma inject_Z_lt (a b : Z) : a < b -> (inject_Z a < inject_Z b)%Q.
Proof. intros H. rewrite <- Zlt_Qlt. exact H. Qed.

(** From the integer bound of [binary_round_aux_spec] to the error of the
    rounded value. *)
Lemma round_error (mz ez n ex N D : Z) :
  0 <= mz -> 0 <= n -> ez = ex + n -> 0 <= N -> 0 < D ->
  2 * Z.abs (mz * (D * 2 ^ n) - N) <= D * 2 ^ n ->
  2 ^ 52 <= mz \/ ez = - 1074 \/ mz * (D * 2 ^ n) = N ->
  let qr := (inject_Z mz * Qpower 2 ez)%Q in
  let exact := (inject_Z N / inject_Z D * Qpower 2 ex)%Q in
  (exact - qr <= unit_roundoff * qr + half_least)%Q
  /\ (qr - exact <= unit_roundoff * qr + half_least)%Q.
Proof.
  intros Hmz Hn -> HN HD Herr Hcase qr exact.
  pose proof (pow2_pos n Hn) as HT.
  assert (Hlo : - (D * 2 ^ n) <= 2 * (mz * (D * 2 ^ n) - N)) by lia.
  assert (Hhi : 2 * (mz * (D * 2 ^ n) - N) <= D * 2 ^ n) by lia.
  rewrite Zle_Qle in Hlo, Hhi. unfold Z.sub in Hlo, Hhi.
  repeat (rewrite inject_Z_plus in Hlo || rewrite inject_Z_mult in Hlo
          || rewrite inject_Z_opp in Hlo).
  repeat (rewrite inject_Z_plus in Hhi || rewrite inject_Z_mult in Hhi
          || rewrite inject_Z_opp in Hhi).
  change (inject_Z 2) with 2%Q in Hlo, Hhi.
  assert (Ha : (0 <= inject_Z mz)%Q) by exact (inject_Z_le 0 mz Hmz).
  assert (HDq : (0 < inject_Z D)%Q) by exact (inject_Z_lt 0 D HD).
  assert (HTq : (0 < inject_Z (2 ^ n))%Q) by exact (inject_Z_lt 0 (2 ^ n) HT).
  assert (Hcase' : (inject_Z (2 ^ 52) <= inject_Z mz)%Q \/ ex + n = - 1074
                   \/ (inject_Z mz * (inject_Z D * inject_Z (2 ^ n)) == inject_Z N)%Q).
  { destruct Hcase as [H|[H|H]]; [left; exact (inject_Z_le _ _ H)|right; left; exact H|].
    right. right. rewrite <- !inject_Z_mult. now rewrite H. }
  assert (HE : (Qpower 2 (ex + n) == Qpower 2 ex * inject_Z (2 ^ n))%Q).
  { rewrite Qpower_2_add, (inject_Z_pow2 n Hn). reflexivity. }
  pose proof (Qpower_2_pos ex) as HEpos.
  assert (Hhalf : (2 * half_least == Qpower 2 (- 1074))%Q) by reflexivity.
  pose proof (Qpower_2_pos (- 1074)) as Hleast.
  assert (Hexact : (exact == inject_Z N / inject_Z D * Qpower 2 ex)%Q) by reflexivity.
  assert (Hqr : (qr == inject_Z mz * (Qpower 2 ex * inject_Z (2 ^ n)))%Q).
  { unfold qr. now rewrite HE. }
  clearbody qr exact.
  assert (Hpow : ex + n = - 1074 -> (Qpower 2 ex * inject_Z (2 ^ n) == Qpower 2 (- 1074))%Q).
  { intros E. rewrite <- HE, E. reflexivity. }
  revert Hlo Hhi Ha HDq HTq Hcase' Hexact Hqr Hpow Hhalf Hleast HEpos.
  generalize (Qpower 2 (- 1074)) half_least.
  generalize (inject_Z mz) (inject_Z D) (inject_Z (2 ^ n)) (inject_Z N) (Qpower 2 ex).
  change (inject_Z (2 ^ 52)) with (4503599627370496 # 1)%Q.
  unfold unit_roundoff. change (2 ^ 53)%positive with 9007199254740992%positive.
  clear. intros a d t nn e least half Hlo Hhi Ha Hd Ht Hcase Hexact Hqr Hpow Hhalf Hleast He.
  assert (Hy : (exact * d == nn * e)%Q).
  { rewrite Hexact. field. intros E0. lra. }
  assert (Hx : (0 < e * t)%Q) by nra.
  (* |a t - nn / d| <= t / 2, times e *)
  assert (H1 : (- (e * t) * d <= 2 * (qr - exact) * d)%Q).
  { rewrite Hqr. nra. }
  assert (H2 : (2 * (qr - exact) * d <= e * t * d)%Q).
  { rewrite Hqr. nra. }
  assert (H3 : (- (e * t) <= 2 * (qr - exact))%Q) by nra.
  assert (H4 : (2 * (qr - exact) <= e * t)%Q) by nra.
  assert (Hq0 : (0 <= qr)%Q) by (rewrite Hqr; nra).
  destruct Hcase as [H|[H|H]].
  - assert (Hw : (4503599627370496 * (e * t) <= qr)%Q) by (rewrite Hqr; nra).
    split; lra.
  - specialize (Hpow H). split; lra.
  - assert (E : (qr * d == exact * d)%Q).
    { rewrite Hy, Hqr, <- H. ring. }
    assert (E' : (qr == exact)%Q) by nra.
    split; lra.
Qed.

(** The location that the division attaches to its quotient. *)
Lemma new_location_represents (N D : Z) :
  0 <= N -> 0 < D ->
  represents (shr_record_of_loc (N / D) (new_location D (N mod D))) N D.
Proof.
  intros HN HD. pose proof (Z.mod_pos_bound N D HD) as Hr.
  unfold represents, new_location, new_location_even, new_location_odd.
  destruct (Z.even D) eqn:Hev.
  - destruct (Z.eqb_spec (N mod D) 0) as [E|E].
    + cbn [shr_record_of_loc shr_m shr_r shr_s]. rewrite E. cbn.
      destruct (Z.leb_spec D 0); [lia|]. repeat split.
    + destruct (Z.compare_spec (2 * (N mod D)) D) as [C|C|C];
        cbn [shr_record_of_loc shr_m shr_r shr_s];
        destruct (Z.leb_spec D (2 * (N mod D))), (Z.eqb_spec (2 * (N mod D)) D);
        try lia; repeat split.
  - assert (Hodd : Z.odd D = true) by (rewrite <- Z.negb_even, Hev; reflexivity).
    apply Z.odd_spec in Hodd. destruct Hodd as [h Hh].
    destruct (Z.eqb_spec (N mod D) 0) as [E|E].
    + cbn [shr_record_of_loc shr_m shr_r shr_s]. rewrite E. cbn.
      destruct (Z.leb_spec D 0); [lia|]. repeat split.
    + destruct (Z.compare_spec (2 * (N mod D) + 1) D) as [C|C|C];
        cbn [shr_record_of_loc shr_m shr_r shr_s];
        destruct (Z.leb_spec D (2 * (N mod D))), (Z.eqb_spec (2 * (N mod D)) D);
        try lia; repeat split.
Qed.

Lemma value_pos (m : positive) (e : Z) : (0 < value m e)%Q.
Proof.
  unfold value. apply Qmult_lt_0_compat; [|apply Qpower_2_pos].
  exact (inject_Z_lt 0 (Z.pos m) (Pos2Z.is_pos m)).
Qed.

(** What a rounded result is worth, when it is finite. *)
Lemma rounded_value (s : bool) (mz ez : Z) (qr : Q) :
  0 <= mz ->
  Binary64.to_Q
    match mz with
    | Z0 => S754_zero s
    | Zpos m => if ez <=? 971 then S754_finite s m ez else S754_infinity s
    | Zneg _ => S754_nan
    end = Some qr ->
  s = false ->
  (qr == inject_Z mz * Qpower 2 ez)%Q.
Proof.
  intros Hmz H ->. destruct mz as [|m|m]; [| |lia].
  - injection H as <-. ring.
  - destruct (ez <=? 971); [|discriminate]. injection H as <-. reflexivity.
Qed.

(** The product of two positive numbers is rounded with a relative error
    of at most 2^-53 (and an absolute one of half the least positive
    number when it underflows). *)
Lemma mul_error (ma mb : positive) (ea eb : Z) (qr : Q) :
  Binary64.to_Q (Binary64.mul (S754_finite false ma ea) (S754_finite false mb eb)) = Some qr ->
  let exact := (value ma ea * value mb eb)%Q in
  (0 <= qr)%Q
  /\ (exact - qr <= unit_roundoff * qr + half_least)%Q
  /\ (qr - exact <= unit_roundoff * qr + half_least)%Q.
Proof.
  unfold Binary64.mul, SFmul, Binary64.prec, Binary64.emax. cbn [xorb].
  destruct (binary_round_aux_spec false (Z.pos (ma * mb)) (ea + eb) loc_Exact
              (Z.pos (ma * mb)) 1 ltac:(lia) ltac:(lia) (represents_exact _))
    as (mz & ez & n & Hmz & Hn & Hez & Hmin & Herr & Hcase & ->).
  intros Hq. set (exact := (value ma ea * value mb eb)%Q). apply rounded_value in Hq; [|exact Hmz|reflexivity].
  assert (Hcase' : 2 ^ 52 <= mz \/ ez = - 1074 \/ mz * (1 * 2 ^ n) = Z.pos (ma * mb)).
  { destruct Hcase as [H|[H|[H1 H2]]]; [now left|now right; left|right; right].
    subst n. change (2 ^ 0) with 1 in *. lia. }
  destruct (round_error mz ez n (ea + eb) (Z.pos (ma * mb)) 1 Hmz Hn Hez
              ltac:(lia) ltac:(lia) Herr Hcase') as [H1 H2].
  assert (Hexact : (inject_Z (Z.pos (ma * mb)) / inject_Z 1 * Qpower 2 (ea + eb) == exact)%Q).
  { unfold exact, value. rewrite Pos2Z.inj_mul, inject_Z_mult, Qpower_2_add.
    change (inject_Z 1) with 1%Q. field. }
  rewrite Hexact, <- Hq in H1, H2. split; [|split; assumption].
  rewrite Hq. apply Qmult_le_0_compat; [exact (inject_Z_le 0 mz Hmz)|].
  apply Qlt_le_weak, Qpower_2_pos.
Qed.

Lemma rounded_nonneg (mz ez : Z) (qr : Q) :
  0 <= mz -> (qr == inject_Z mz * Qpower 2 ez)%Q -> (0 <= qr)%Q.
Proof.
  intros Hmz ->. apply Qmult_le_0_compat; [exact (inject_Z_le 0 mz Hmz)|].
  apply Qlt_le_weak, Qpower_2_pos.
Qed.

Lemma Qpower_2_split (a s e b : Z) :
  a = s + e + b -> (Qpower 2 a == Qpower 2 s * Qpower 2 e * Qpower 2 b)%Q.
Proof. intros ->. rewrite !Qpower_2_add. reflexivity. Qed.

(** The quotient of two positive numbers is rounded with a relative error
    of at most 2^-53 (and an absolute one of half the least positive
    number when it underflows). *)
Lemma div_error (ma mb : positive) (ea eb : Z) (qr : Q) :
  Binary64.to_Q (Binary64.div (S754_finite false ma ea) (S754_finite false mb eb)) = Some qr ->
  let exact := (value ma ea / value mb eb)%Q in
  (0 <= qr)%Q
  /\ (exact - qr <= unit_roundoff * qr + half_least)%Q
  /\ (qr - exact <= unit_roundoff * qr + half_least)%Q.
Proof.
  unfold Binary64.div, SFdiv, SFdiv_core_binary, Binary64.prec, Binary64.emax.
  cbn [xorb].
  set (d1 := Zdigits2 (Z.pos ma)). set (d2 := Zdigits2 (Z.pos mb)).
  set (delta := d1 + ea - (d2 + eb)).
  set (e' := Z.min (fexp 53 1024 delta) (ea - eb)).
  set (s := ea - eb - e').
  assert (Hs : 0 <= s) by (unfold s, e'; lia).
  assert (Hfexp : fexp 53 1024 delta = Z.max (delta - 53) (- 1074)) by reflexivity.
  set (m' := match s with Z.pos _ => Z.shiftl (Z.pos ma) s | 0 => Z.pos ma | Z.neg _ => 0 end).
  assert (Hm' : m' = Z.pos ma * 2 ^ s).
  { unfold m'. destruct s as [|p|p]; [lia| |lia]. apply Z.shiftl_mul_pow2. lia. }
  pose proof (pow2_pos s Hs) as Hps.
  assert (Hm'0 : 0 <= m') by nia.
  pose proof (new_location_represents m' (Z.pos mb) Hm'0 ltac:(lia)) as Hrep.
  unfold Z.div, Z.modulo in Hrep.
  destruct (Z.div_eucl m' (Z.pos mb)) as [q r] eqn:Hde.
  assert (Hq : q = m' / Z.pos mb) by (unfold Z.div; now rewrite Hde).
  destruct (binary_round_aux_spec false q e' (new_location (Z.pos mb) r) m' (Z.pos mb)
              Hm'0 ltac:(lia) Hrep)
    as (mz & ez & n & Hmz & Hn & Hez & Hmin & Herr & Hcase & ->).
  intros Hqr. set (exact := (value ma ea / value mb eb)%Q).
  apply rounded_value in Hqr; [|exact Hmz|reflexivity].
  pose proof (Zdigits2_bounds (Z.pos ma) ltac:(lia)) as [Hlo1 _]. fold d1 in Hlo1.
  pose proof (Zdigits2_bounds (Z.pos mb) ltac:(lia)) as [Hlo2 Hhi2]. fold d2 in Hlo2, Hhi2.
  assert (Hd1 : 0 < d1) by (unfold d1; cbn; lia).
  assert (Hd2 : 0 < d2) by (unfold d2; cbn; lia).
  assert (Hcase' : 2 ^ 52 <= mz \/ ez = - 1074
                   \/ mz * (Z.pos mb * 2 ^ n) = m').
  { destruct Hcase as [H|[H|[H1 H2]]]; [now left|now right; left|].
    destruct (Z.eq_dec ez (- 1074)) as [E|E]; [now right; left|left].
    assert (He' : e' <= delta - 53) by (unfold e' in *; lia).
    assert (Hs' : 53 - d1 + d2 <= s) by (unfold s, delta in *; lia).
    assert (H52 : 2 ^ 52 <= q).
    { rewrite Hq. apply Z.div_le_lower_bound; [lia|].
      assert (Hp : 2 ^ (52 + d2) <= 2 ^ (d1 - 1 + s)) by (apply Z.pow_le_mono_r; lia).
      rewrite !Z.pow_add_r in Hp by lia. rewrite Hm'.
      pose proof (pow2_pos (d1 - 1) ltac:(lia)).
      nia. }
    lia. }
  destruct (round_error mz ez n e' m' (Z.pos mb) Hmz Hn Hez Hm'0 ltac:(lia) Herr Hcase')
    as [H1 H2].
  assert (Hexact : (inject_Z m' / inject_Z (Z.pos mb) * Qpower 2 e' == exact)%Q).
  { unfold exact, value. rewrite Hm', inject_Z_mult, (inject_Z_pow2 s Hs).
    rewrite (Qpower_2_split ea s e' eb) by (unfold s; lia).
    pose proof (Qpower_2_pos eb) as Hb.
    pose proof (inject_Z_lt 0 (Z.pos mb) ltac:(lia)) as HB. change (inject_Z 0) with 0%Q in HB.
    revert Hb HB. generalize (Qpower 2 eb) (inject_Z (Z.pos mb)) (Qpower 2 s) (Qpower 2 e')
      (inject_Z (Z.pos ma)).
    intros pb b ps pe a Hb HB. field. split; intros E0; lra. }
  rewrite Hexact, <- Hqr in H1, H2. split; [|split; assumption].
  exact (rounded_nonneg mz ez qr Hmz Hqr).
Qed.

Lemma iter_xO (p d : positive) : Z.pos (Pos.iter xO p d) = Z.pos p * 2 ^ Z.pos d.
Proof.
  induction d as [|d IH] using Pos.peano_ind.
  - cbn [Pos.iter]. change (2 ^ 1) with 2. lia.
  - rewrite Pos.iter_succ, Pos2Z.inj_xO, IH, Pos2Z.inj_succ, Z.pow_succ_r by lia. ring.
Qed.

(** An integer is converted with the same error (none below 2^53). *)
Lemma of_Z_error (k : Z) (qr : Q) :
  0 < k ->
  Binary64.to_Q (Binary64.of_Z k) = Some qr ->
  (0 <= qr)%Q
  /\ (inject_Z k - qr <= unit_roundoff * qr + half_least)%Q
  /\ (qr - inject_Z k <= unit_roundoff * qr + half_least)%Q.
Proof.
  intros Hk. destruct k as [|p|p]; try lia.
  unfold Binary64.of_Z, binary_normalize, binary_round, Binary64.prec, Binary64.emax.
  generalize (fexp 53 1024 (Z.pos (digits2_pos p) + 0)). intros f.
  destruct (shl_align p 0 f) as [m0 e0] eqn:Hsh.
  assert (Hval : (inject_Z (Z.pos m0) / inject_Z 1 * Qpower 2 e0 == inject_Z (Z.pos p))%Q).
  { unfold shl_align in Hsh.
    destruct (f - 0) as [|d|d] eqn:Hd; injection Hsh as <- <-.
    - change (inject_Z 1) with 1%Q. change (Qpower 2 0) with 1%Q. field.
    - change (inject_Z 1) with 1%Q. change (Qpower 2 0) with 1%Q. field.
    - assert (E : f = - Z.pos d) by lia.
      rewrite E, iter_xO, inject_Z_mult, (inject_Z_pow2 (Z.pos d)) by lia.
      rewrite Qpower_opp. change (inject_Z 1) with 1%Q.
      pose proof (Qpower_2_pos (Z.pos d)) as Hp. revert Hp.
      generalize (Qpower 2 (Z.pos d)) (inject_Z (Z.pos p)). intros pd a Hp.
      field. intros E0. lra. }
  destruct (binary_round_aux_spec false (Z.pos m0) e0 loc_Exact (Z.pos m0) 1
              ltac:(lia) ltac:(lia) (represents_exact _))
    as (mz & ez & n & Hmz & Hn & Hez & Hmin & Herr & Hcase & ->).
  intros Hqr. apply rounded_value in Hqr; [|exact Hmz|reflexivity].
  assert (Hcase' : 2 ^ 52 <= mz \/ ez = - 1074 \/ mz * (1 * 2 ^ n) = Z.pos m0).
  { destruct Hcase as [H|[H|[H1 H2]]]; [now left|now right; left|right; right].
    subst n. change (2 ^ 0) with 1 in *. lia. }
  destruct (round_error mz ez n e0 (Z.pos m0) 1 Hmz Hn Hez
              ltac:(lia) ltac:(lia) Herr Hcase') as [H1 H2].
  rewrite Hval, <- Hqr in H1, H2. split; [|split; assumption].
  exact (rounded_nonneg mz ez qr Hmz Hqr).
Qed.

Ltac numerals :=
  unfold rounding_slack, unit_roundoff, half_least in *;
  let c := eval vm_compute in (Qpower 2 (- 1075)) in
  change (Qpower 2 (- 1075)) with c in *;
  let c' := eval vm_compute in (Qpower 2 (- 1072)) in
  change (Qpower 2 (- 1072)) with c' in *;
  change (2 ^ 53)%positive with 9007199254740992%positive in *;
  change (2 ^ 50)%positive with 1125899906842624%positive in *.

(** The arithmetic of the round trip: [qq] is the rounded quotient
    [t / i], [kq] its whole part, [qK] the converted index and [t'] the
    rounded product. *)
Lemma round_trip_arith (t i x qq kq qK t' : Q) :
  (0 < i)%Q -> (0 <= x)%Q -> (t == x * i)%Q ->
  (0 <= qq)%Q ->
  (x - qq <= unit_roundoff * qq + half_least)%Q ->
  (qq - x <= unit_roundoff * qq + half_least)%Q ->
  (kq <= qq)%Q -> (qq < kq + 1)%Q ->
  (0 <= qK)%Q ->
  (kq - qK <= unit_roundoff * qK + half_least)%Q ->
  (qK - kq <= unit_roundoff * qK + half_least)%Q ->
  (0 <= t')%Q ->
  (qK * i - t' <= unit_roundoff * t' + half_least)%Q ->
  (t' - qK * i <= unit_roundoff * t' + half_least)%Q ->
  (- rounding_slack t i <= t - t')%Q /\ (t - t' < i + rounding_slack t i)%Q.
Proof.
  intros Hi Hx Ht Hqq D1 D2 F1 F2 HK Z1 Z2 Ht' M1 M2.
  numerals.
  set (u := (1 # 9007199254740992)%Q) in *.
  match type of D1 with (_ <= _ + ?e)%Q => set (eta := e) in * end.
  assert (L1 : (qK <= (1 + 4 * u) * x + 4 * eta)%Q) by (unfold u, eta in *; lra).
  assert (L2 : ((1 - 2 * u) * x - (1 + 2 * eta) < qK)%Q) by (unfold u, eta in *; lra).
  assert (LP1 : (qK * i <= ((1 + 4 * u) * x + 4 * eta) * i)%Q).
  { apply Qmult_le_compat_r; [exact L1|lra]. }
  assert (LP2 : (((1 - 2 * u) * x - (1 + 2 * eta)) * i < qK * i)%Q).
  { apply Qmult_lt_compat_r; [exact Hi|exact L2]. }
  assert (E1 : (((1 + 4 * u) * x + 4 * eta) * i == (1 + 4 * u) * t + 4 * eta * i)%Q)
    by (rewrite Ht; ring).
  assert (E2 : (((1 - 2 * u) * x - (1 + 2 * eta)) * i == (1 - 2 * u) * t - (1 + 2 * eta) * i)%Q)
    by (rewrite Ht; ring).
  rewrite E1 in LP1. rewrite E2 in LP2.
  assert (Ht0 : (0 <= t)%Q).
  { rewrite Ht. apply Qmult_le_0_compat; lra. }
  revert M1 M2 LP1 LP2. generalize (qK * i)%Q. intros P M1 M2 LP1 LP2.
  clear - Hi Ht0 Ht' M1 M2 LP1 LP2.
  unfold u, eta in *. split; lra.
Qed.

(** A finite number with a positive value has a clear sign bit. *)
Lemma to_Q_positive (a : Binary64.double) (q : Q) :
  Binary64.to_Q a = Some q -> (0 < q)%Q ->
  exists m e, a = S754_finite false m e /\ (q == value m e)%Q.
Proof.
  destruct a as [s|s| |[] m e]; cbn [Binary64.to_Q]; try discriminate.
  - intros E. injection E as <-. intros H. exfalso. lra.
  - intros E. injection E as <-. intros H. exfalso.
    cbn [Binary64.signed cond_Zopp] in H.
    pose proof (Qpower_2_pos e) as Hp.
    pose proof (inject_Z_lt (Z.neg m) 0 ltac:(lia)) as Hn. change (inject_Z 0) with 0%Q in Hn.
    revert H Hp Hn. change (- Z.pos m) with (Z.neg m).
    generalize (Qpower 2 e) (inject_Z (Z.neg m)). intros p n H Hp Hn. nra.
  - intros E. injection E as <-. intros _. exists m, e. split; reflexivity.
Qed.

Lemma to_Q_nonneg (a : Binary64.double) (q : Q) :
  Binary64.to_Q a = Some q -> (0 <= q)%Q ->
  (exists s, a = S754_zero s /\ (q == 0)%Q)
  \/ exists m e, a = S754_finite false m e /\ (q == value m e)%Q.
Proof.
  intros E Hq. destruct (Qlt_le_dec 0 q) as [H|H].
  - right. exact (to_Q_positive a q E H).
  - assert (H0 : (q == 0)%Q) by lra.
    destruct a as [s|s| |[] m e]; cbn [Binary64.to_Q] in E; try discriminate.
    + left. exists s. split; [reflexivity|exact H0].
    + exfalso. injection E as <-. cbn [Binary64.signed cond_Zopp] in H0.
      pose proof (Qpower_2_pos e) as Hp.
      pose proof (inject_Z_lt (Z.neg m) 0 ltac:(lia)) as Hn. change (inject_Z 0) with 0%Q in Hn.
      revert H0 Hp Hn. change (- Z.pos m) with (Z.neg m).
      generalize (Qpower 2 e) (inject_Z (Z.neg m)). intros p n H0 Hp Hn. nra.
    + exfalso. injection E as <-. pose proof (value_pos m e) as Hv.
      cbn [Binary64.signed cond_Zopp] in H0. unfold value in Hv. lra.
Qed.

Lemma unit_roundoff_pos : (0 < unit_roundoff)%Q.
Proof. reflexivity. Qed.

Lemma half_least_pos : (0 < half_least)%Q.
Proof. apply Qpower_2_pos. Qed.

Lemma half_least_small : (half_least < 1 # 2)%Q.
Proof. unfold half_least. vm_compute. reflexivity. Qed.

(** The time of the window that a time falls in: within one interval below
    the time, up to the rounding of the quotient, of the index and of the
    product. *)
Lemma window_time_error (time interval : Binary64.double) (k : Z) (qt qi qt' : Q) :
  Binary64.Math_floor (Binary64.div time interval) = Binary64.Int k ->
  Binary64.to_Q time = Some qt -> (0 <= qt)%Q ->
  Binary64.to_Q interval = Some qi -> (0 < qi)%Q ->
  Binary64.to_Q (Binary64.mul (Binary64.of_Z k) interval) = Some qt' ->
  (- rounding_slack qt qi <= qt - qt')%Q /\ (qt - qt' < qi + rounding_slack qt qi)%Q.
Proof.
  intros Hk Ht Ht0 Hi Hi0 Ht'.
  destruct (to_Q_positive interval qi Hi Hi0) as (mi & ei & -> & Eqi).
  pose proof unit_roundoff_pos as Hu. pose proof half_least_pos as Heta.
  destruct (to_Q_nonneg time qt Ht Ht0) as [(s & -> & Eqt)|(mt & et & -> & Eqt)].
  - (* time zero *)
    cbn in Hk. injection Hk as <-. cbn in Ht'. injection Ht' as <-.
    apply (round_trip_arith qt qi 0 0 0 0 0); lra.
  - destruct (Math_floor_bounds _ _ Hk) as (qq & Hqq & F1 & F2).
    destruct (div_error mt mi et ei qq Hqq) as (Hqq0 & D1 & D2).
    rewrite <- Eqt, <- Eqi in D1, D2.
    assert (Hx : (0 <= qt / qi)%Q) by (apply Qle_shift_div_l; lra).
    assert (Hxt : (qt == qt / qi * qi)%Q) by (field; lra).
    assert (Hk0 : 0 <= k).
    { assert (H : (inject_Z (- 1) < inject_Z k)%Q) by (change (inject_Z (- 1)) with (- 1)%Q; lra).
      rewrite <- Zlt_Qlt in H. lia. }
    destruct (Z.eq_dec k 0) as [->|Hne].
    + cbn in Ht'. injection Ht' as <-.
      change (inject_Z 0) with 0%Q in F1, F2.
      apply (round_trip_arith qt qi (qt / qi) qq 0 0 0); try lra.
    + destruct (Binary64.of_Z k) as [sk|sk| |sk mk ek] eqn:HK.
      * (* the index cannot round to zero *)
        exfalso. destruct (of_Z_error k 0 ltac:(lia)) as (_ & Z1 & _);
          [rewrite HK; reflexivity|].
        assert (H1 : (inject_Z 1 <= inject_Z k)%Q) by (apply inject_Z_le; lia).
        change (inject_Z 1) with 1%Q in H1. pose proof half_least_small. lra.
      * destruct sk; cbn in Ht'; discriminate.
      * cbn in Ht'. discriminate.
      * destruct (of_Z_error k _ ltac:(lia) ltac:(rewrite HK; reflexivity))
          as (HqK0 & Z1 & Z2).
        destruct sk.
        { exfalso. cbn [Binary64.to_Q Binary64.signed cond_Zopp] in HqK0.
          pose proof (Qpower_2_pos ek) as Hp.
          pose proof (inject_Z_lt (Z.neg mk) 0 ltac:(lia)) as Hn.
          change (inject_Z 0) with 0%Q in Hn.
          revert HqK0 Hp Hn. change (- Z.pos mk) with (Z.neg mk).
          generalize (Qpower 2 ek) (inject_Z (Z.neg mk)). intros p n H0 Hp Hn. nra. }
        destruct (mul_error mk mi ek ei qt' Ht') as (Ht'0 & M1 & M2).
        rewrite <- Eqi in M1, M2.
        apply (round_trip_arith qt qi (qt / qi) qq (inject_Z k) (value mk ek) qt');
          try assumption; try lra.
Qed.

(** [Math.round] gives the integer nearest to the value, a tie going
    up. *)
Lemma Math_round_bounds (a : Binary64.double) (s : Z) :
  Binary64.Math_round a = Binary64.Int s ->
  exists p,
    Binary64.to_Q a = Some p
    /\ (inject_Z s <= p + (1 # 2))%Q /\ (p + (1 # 2) < inject_Z s + 1)%Q.
Proof.
  destruct a as [sg|[]| |sg m e]; cbn [Binary64.Math_round Binary64.to_Q]; try discriminate.
  - intros E. injection E as <-. exists 0%Q. split; [reflexivity|].
    split; [vm_compute; discriminate|vm_compute; reflexivity].
  - set (M := Binary64.signed sg m).
    destruct (Z.ltb_spec e 0) as [He|He]; intros E; injection E as <-;
      eexists; (split; [reflexivity|]).
    + assert (Hn : 0 < - e) by lia.
      replace (Qpower 2 e) with (Qpower 2 (- - e)) by (f_equal; lia).
      clear He. revert Hn. generalize (- e). intros n Hn.
      rewrite Z.shiftr_div_pow2 by lia.
      assert (Hp : 0 < 2 ^ n) by (apply Z.pow_pos_nonneg; lia).
      assert (Hp1 : 2 ^ (n + 1) = 2 * 2 ^ n) by (rewrite Z.pow_add_r by lia; change (2 ^ 1) with 2; ring).
      assert (Hq : (Qpower 2 (- n) == 1 / inject_Z (2 ^ n))%Q).
      { rewrite Qpower_opp. rewrite <- (inject_Z_pow2 n) by lia.
        unfold Qdiv. now rewrite Qmult_1_l. }
      rewrite Hq.
      match goal with |- context [inject_Z (?a / ?b)] => set (S := a / b) end.
      assert (HS : S = (2 * M + 2 ^ n) / (2 * 2 ^ n)) by (rewrite <- Hp1; reflexivity).
      pose proof (Z.div_mod (2 * M + 2 ^ n) (2 * 2 ^ n) ltac:(lia)) as Hd.
      pose proof (Z.mod_pos_bound (2 * M + 2 ^ n) (2 * 2 ^ n) ltac:(lia)) as Hm.
      rewrite <- HS in Hd. clearbody S.
      assert (H1 : (2 * inject_Z (2 ^ n) * inject_Z S <= 2 * inject_Z M + inject_Z (2 ^ n))%Q).
      { change 2%Q with (inject_Z 2).
        rewrite <- !inject_Z_mult, <- inject_Z_plus, <- Zle_Qle. lia. }
      assert (H2 : (2 * inject_Z M + inject_Z (2 ^ n)
                    < 2 * inject_Z (2 ^ n) * (inject_Z S + 1))%Q).
      { change 2%Q with (inject_Z 2). change 1%Q with (inject_Z 1).
        rewrite <- !inject_Z_mult, <- !inject_Z_plus, <- inject_Z_mult, <- Zlt_Qlt. lia. }
      pose proof (inject_Z_lt 0 (2 ^ n) Hp) as H0. change (inject_Z 0) with 0%Q in H0.
      revert H0 H1 H2.
      generalize (inject_Z (2 ^ n)) (inject_Z S) (inject_Z M).
      intros d k x H0 H1 H2.
      assert (E : (x * (1 / d) == x / d)%Q) by (field; lra).
      rewrite E.
      assert (Ex : (x == x / d * d)%Q) by (field; lra).
      revert Ex. generalize (x / d)%Q. intros y Ex. rewrite Ex in H1, H2.
      split.
      * apply Qnot_lt_le. intros C.
        assert (P : (0 < (k - y - (1 # 2)) * d)%Q) by (apply Qmult_lt_0_compat; lra).
        lra.
      * apply Qnot_le_lt. intros C.
        assert (P : (0 <= (y + (1 # 2) - k - 1) * d)%Q) by (apply Qmult_le_0_compat; lra).
        lra.
    + rewrite Z.shiftl_mul_pow2 by exact He.
      assert (Hq : (inject_Z (M * 2 ^ e) == inject_Z M * Qpower 2 e)%Q).
      { rewrite inject_Z_mult. apply Qmult_comp; [reflexivity|].
        apply inject_Z_pow2, He. }
      rewrite <- Hq. split; lra.
Qed.

Lemma start_arith (iq K qi p sQ : Q) :
  (0 < qi)%Q -> (0 <= iq)%Q -> (0 <= K)%Q ->
  (iq - K <= unit_roundoff * K + half_least)%Q ->
  (K - iq <= unit_roundoff * K + half_least)%Q ->
  (0 <= p)%Q ->
  (K * qi - p <= unit_roundoff * p + half_least)%Q ->
  (p - K * qi <= unit_roundoff * p + half_least)%Q ->
  (sQ <= p + (1 # 2))%Q -> (p + (1 # 2) < sQ + 1)%Q ->
  (- (1 # 2) - product_slack (iq * qi) qi <= sQ - iq * qi)%Q
  /\ (sQ - iq * qi <= (1 # 2) + product_slack (iq * qi) qi)%Q.
Proof.
  intros Hi Hiq HK Z1 Z2 Hp M1 M2 R1 R2.
  unfold product_slack, unit_roundoff, half_least in *.
  let c := eval vm_compute in (Qpower 2 (- 1075)) in
  change (Qpower 2 (- 1075)) with c in *.
  let c := eval vm_compute in (Qpower 2 (- 1073)) in
  change (Qpower 2 (- 1073)) with c in *.
  change (2 ^ 53)%positive with 9007199254740992%positive in *.
  change (2 ^ 51)%positive with 2251799813685248%positive in *.
  set (u := (1 # 9007199254740992)%Q) in *.
  match type of Z1 with (_ <= _ + ?e)%Q => set (eta := e) in * end.
  assert (L1 : (K <= (1 + 2 * u) * iq + 2 * eta)%Q) by (unfold u, eta in *; lra).
  assert (L2 : ((1 - u) * iq - eta <= K)%Q) by (unfold u, eta in *; lra).
  assert (LP1 : (K * qi <= ((1 + 2 * u) * iq + 2 * eta) * qi)%Q).
  { apply Qmult_le_compat_r; [exact L1|lra]. }
  assert (LP2 : (((1 - u) * iq - eta) * qi <= K * qi)%Q).
  { apply Qmult_le_compat_r; [exact L2|lra]. }
  assert (E1 : (((1 + 2 * u) * iq + 2 * eta) * qi == (1 + 2 * u) * (iq * qi) + 2 * eta * qi)%Q)
    by ring.
  assert (E2 : (((1 - u) * iq - eta) * qi == (1 - u) * (iq * qi) - eta * qi)%Q) by ring.
  rewrite E1 in LP1. rewrite E2 in LP2.
  assert (HE : (0 <= iq * qi)%Q) by (apply Qmult_le_0_compat; lra).
  revert M1 M2 LP1 LP2 HE. generalize (K * qi)%Q (iq * qi)%Q. intros P E M1 M2 LP1 LP2 HE.
  clear - Hi Hp M1 M2 LP1 LP2 HE R1 R2.
  unfold u, eta in *. split; lra.
Qed.

(** A rounding overflows only from 2^971 on. *)
Lemma round_overflow (mz ez n ex N D : Z) :
  1 <= mz -> 0 <= n -> ez = ex + n -> 972 <= ez -> 0 <= N -> 0 < D ->
  2 * Z.abs (mz * (D * 2 ^ n) - N) <= D * 2 ^ n ->
  (Qpower 2 971 <= inject_Z N / inject_Z D * Qpower 2 ex)%Q.
Proof.
  intros Hmz Hn -> Hez HN HD Herr.
  pose proof (pow2_pos n Hn) as HT.
  assert (Hlo : D * 2 ^ n <= 2 * N) by nia.
  rewrite Zle_Qle in Hlo.
  repeat (rewrite inject_Z_mult in Hlo).
  change (inject_Z 2) with 2%Q in Hlo.
  pose proof (inject_Z_lt 0 D HD) as HDq. change (inject_Z 0) with 0%Q in HDq.
  pose proof (inject_Z_lt 0 (2 ^ n) HT) as HTq. change (inject_Z 0) with 0%Q in HTq.
  assert (HE : (Qpower 2 (ex + n) == Qpower 2 ex * inject_Z (2 ^ n))%Q).
  { rewrite Qpower_2_add, (inject_Z_pow2 n Hn). reflexivity. }
  pose proof (Qpower_le_compat_l 2 972 (ex + n) Hez ltac:(lra)) as Hbig.
  rewrite HE in Hbig.
  assert (H972 : (Qpower 2 972 == 2 * Qpower 2 971)%Q) by reflexivity.
  rewrite H972 in Hbig.
  pose proof (Qpower_2_pos ex) as HEpos.
  revert Hlo HDq HTq Hbig HEpos.
  generalize (Qpower 2 971) (Qpower 2 ex) (inject_Z (2 ^ n)) (inject_Z D) (inject_Z N).
  intros big e t d nn Hlo Hd Ht Hbig He.
  assert (Ey : (nn == nn / d * d)%Q) by (field; lra).
  revert Ey. generalize (nn / d)%Q. intros y Ey. rewrite Ey in Hlo.
  assert (H1 : (t <= 2 * y)%Q).
  { apply Qnot_lt_le. intros C.
    assert (P : (0 < (t - 2 * y) * d)%Q) by (apply Qmult_lt_0_compat; lra). lra. }
  assert (H2 : (0 <= (2 * y - t) * e)%Q) by (apply Qmult_le_0_compat; lra).
  lra.
Qed.

Lemma mul_overflow (ma mb : positive) (ea eb : Z) (s : bool) :
  Binary64.mul (S754_finite false ma ea) (S754_finite false mb eb) = S754_infinity s ->
  (Qpower 2 971 <= value ma ea * value mb eb)%Q.
Proof.
  unfold Binary64.mul, SFmul, Binary64.prec, Binary64.emax. cbn [xorb].
  destruct (binary_round_aux_spec false (Z.pos (ma * mb)) (ea + eb) loc_Exact
              (Z.pos (ma * mb)) 1 ltac:(lia) ltac:(lia) (represents_exact _))
    as (mz & ez & n & Hmz & Hn & Hez & Hmin & Herr & Hcase & ->).
  destruct mz as [|m|m]; try discriminate.
  destruct (Z.leb_spec ez 971) as [|Hbig]; [discriminate|]. intros _.
  pose proof (round_overflow (Z.pos m) ez n (ea + eb) (Z.pos (ma * mb)) 1
                ltac:(lia) Hn Hez ltac:(lia) ltac:(lia) ltac:(lia) Herr) as H.
  assert (Hexact : (inject_Z (Z.pos (ma * mb)) / inject_Z 1 * Qpower 2 (ea + eb)
                    == value ma ea * value mb eb)%Q).
  { unfold value. rewrite Pos2Z.inj_mul, inject_Z_mult, Qpower_2_add.
    change (inject_Z 1) with 1%Q. field. }
  now rewrite Hexact in H.
Qed.

Lemma of_Z_overflow (k : Z) (s : bool) :
  0 < k -> Binary64.of_Z k = S754_infinity s -> (Qpower 2 971 <= inject_Z k)%Q.
Proof.
  intros Hk. destruct k as [|p|p]; try lia.
  unfold Binary64.of_Z, binary_normalize, binary_round, Binary64.prec, Binary64.emax.
  generalize (fexp 53 1024 (Z.pos (digits2_pos p) + 0)). intros f.
  destruct (shl_align p 0 f) as [m0 e0] eqn:Hsh.
  assert (Hval : (inject_Z (Z.pos m0) / inject_Z 1 * Qpower 2 e0 == inject_Z (Z.pos p))%Q).
  { unfold shl_align in Hsh.
    destruct (f - 0) as [|d|d] eqn:Hd; injection Hsh as <- <-.
    - change (inject_Z 1) with 1%Q. change (Qpower 2 0) with 1%Q. field.
    - change (inject_Z 1) with 1%Q. change (Qpower 2 0) with 1%Q. field.
    - assert (E : f = - Z.pos d) by lia.
      rewrite E, iter_xO, inject_Z_mult, (inject_Z_pow2 (Z.pos d)) by lia.
      rewrite Qpower_opp. change (inject_Z 1) with 1%Q.
      pose proof (Qpower_2_pos (Z.pos d)) as Hp. revert Hp.
      generalize (Qpower 2 (Z.pos d)) (inject_Z (Z.pos p)). intros pd a Hp.
      field. intros E0. lra. }
  destruct (binary_round_aux_spec false (Z.pos m0) e0 loc_Exact (Z.pos m0) 1
              ltac:(lia) ltac:(lia) (represents_exact _))
    as (mz & ez & n & Hmz & Hn & Hez & Hmin & Herr & Hcase & ->).
  destruct mz as [|m|m]; try discriminate.
  destruct (Z.leb_spec ez 971) as [|Hbig]; [discriminate|]. intros _.
  pose proof (round_overflow (Z.pos m) ez n e0 (Z.pos m0) 1
                ltac:(lia) Hn Hez ltac:(lia) ltac:(lia) ltac:(lia) Herr) as H.
  now rewrite Hval in H.
Qed.

(** The arithmetic of the last window: with [nq] at most the rounded
    quotient [qq] of [L / interval], an interval of at least one sample
    and a length of at most 2^32, a window [i <= n - 1] has a small index
    and a small product [i * interval], and the rounded product rounds to
    an integer below [L]. *)
Lemma start_below_length_arith (Lq KL y qi qq nq iq : Q) :
  (1 <= qi)%Q -> (0 <= Lq)%Q -> (Lq <= 4294967296)%Q ->
  (0 <= KL)%Q ->
  (KL - Lq <= unit_roundoff * KL + half_least)%Q ->
  (KL == y * qi)%Q -> (0 <= y)%Q ->
  (0 <= qq)%Q ->
  (qq - y <= unit_roundoff * qq + half_least)%Q ->
  (nq <= qq)%Q -> (iq <= nq - 1)%Q ->
  (iq <= 8589934592)%Q
  /\ (forall Ki,
      (0 <= Ki)%Q ->
      (Ki - iq <= unit_roundoff * Ki + half_least)%Q ->
      (Ki * qi <= 8589934592)%Q
      /\ forall p sQ,
           (0 <= p)%Q ->
           (p - Ki * qi <= unit_roundoff * p + half_least)%Q ->
           (sQ <= p + (1 # 2))%Q ->
           (sQ < Lq)%Q).
Proof.
  intros Hqi HL0 HL HKL ZL Hy Hy0 Hqq D2 F1 Hi.
  unfold unit_roundoff, half_least in *.
  let c := eval vm_compute in (Qpower 2 (- 1075)) in
  change (Qpower 2 (- 1075)) with c in *.
  change (2 ^ 53)%positive with 9007199254740992%positive in *.
  set (u := (1 # 9007199254740992)%Q) in *.
  match type of ZL with (_ <= _ + ?e)%Q => set (eta := e) in * end.
  assert (Hyl : (0 <= y * (qi - 1))%Q) by (apply Qmult_le_0_compat; lra).
  assert (HyKL : (y <= KL)%Q) by (rewrite Hy; lra).
  split; [unfold u, eta in *; lra|].
  intros Ki HKi Z2.
  assert (L1 : (Ki <= (1 + 4 * u) * y - (1 - 4 * eta))%Q) by (unfold u, eta in *; lra).
  assert (LP1 : (Ki * qi <= ((1 + 4 * u) * y - (1 - 4 * eta)) * qi)%Q).
  { apply Qmult_le_compat_r; [exact L1|lra]. }
  assert (E1 : (((1 + 4 * u) * y - (1 - 4 * eta)) * qi
                == (1 + 4 * u) * KL - (1 - 4 * eta) * qi)%Q) by (rewrite Hy; ring).
  rewrite E1 in LP1.
  revert LP1. generalize (Ki * qi)%Q. intros P LP1.
  clear - Hqi HL0 HL HKL ZL LP1.
  split; [unfold u, eta in *; lra|].
  intros p sQ Hp M2 R1. unfold u, eta in *. lra.
Qed.

Lemma negative_value (m : positive) (e : Z) :
  (0 <= inject_Z (Binary64.signed true m) * Qpower 2 e)%Q -> False.
Proof.
  cbn [Binary64.signed cond_Zopp]. intros H.
  pose proof (Qpower_2_pos e) as Hp.
  pose proof (inject_Z_lt (Z.neg m) 0 ltac:(lia)) as Hneg.
  change (inject_Z 0) with 0%Q in Hneg.
  revert H Hp Hneg. change (- Z.pos m) with (Z.neg m).
  generalize (Qpower 2 e) (inject_Z (Z.neg m)). intros pw ng H Hp Hneg. nra.
Qed.

(** With an interval of at least one sample and an array shorter than
    2^32, every window below the count starts inside the array. *)
Lemma startSample_below_length (L n i : Z) (interval : Binary64.double) (qi : Q) :
  0 <= L < 2 ^ 32 ->
  Binary64.to_Q interval = Some qi -> (1 <= qi)%Q ->
  Schedule64.totalWindows L interval = Binary64.Int n ->
  0 <= i < n ->
  exists s, Schedule64.startSample i interval = Binary64.Int s /\ 0 <= s < L.
Proof.
  intros HL Hi Hqi Hn Hin.
  destruct (to_Q_positive interval qi Hi ltac:(lra)) as (mi & ei & -> & Eqi).
  unfold Schedule64.totalWindows in Hn.
  destruct (Math_floor_bounds _ _ Hn) as (qq & Hqq & F1 & _).
  pose proof unit_roundoff_pos as Hu. pose proof half_least_pos as Heta.
  pose proof half_least_small as Hsmall.
  assert (HL1 : 0 < L).
  { destruct (Z.eq_dec L 0) as [E|E]; [|lia]. exfalso. subst L. cbn in Hn.
    injection Hn as <-. lia. }
  assert (HLq0 : (0 <= inject_Z L)%Q) by exact (inject_Z_le 0 L ltac:(lia)).
  assert (HLq1 : (inject_Z L <= 4294967296)%Q).
  { change 4294967296%Q with (inject_Z (2 ^ 32)). apply inject_Z_le. lia. }
  assert (HLq2 : (1 <= inject_Z L)%Q).
  { change 1%Q with (inject_Z 1). apply inject_Z_le. lia. }
  assert (Hiq : (inject_Z i <= inject_Z n - 1)%Q).
  { change 1%Q with (inject_Z 1). unfold Qminus. rewrite <- inject_Z_opp, <- inject_Z_plus.
    apply inject_Z_le. lia. }
  assert (Hbig : (8589934592 < Qpower 2 971)%Q) by (vm_compute; reflexivity).
  destruct (Binary64.of_Z L) as [sL|sL| |sL mL eL] eqn:HKL.
  - exfalso. destruct (of_Z_error L 0 HL1) as (_ & Z1 & _); [rewrite HKL; reflexivity|]. lra.
  - destruct sL; cbn in Hn; discriminate.
  - cbn in Hn. discriminate.
  - destruct (of_Z_error L _ HL1 ltac:(rewrite HKL; reflexivity)) as (HqL0 & _ & ZL).
    destruct sL; [exfalso; exact (negative_value mL eL HqL0)|].
    destruct (div_error mL mi eL ei qq Hqq) as (Hqq0 & _ & D2).
    rewrite <- Eqi in D2.
    change (Binary64.to_Q (S754_finite false mL eL)) with (Some (value mL eL)) in *.
    pose proof (value_pos mL eL) as HvL.
    assert (Hy0 : (0 <= value mL eL / qi)%Q) by (apply Qle_shift_div_l; lra).
    assert (Hy : (value mL eL == value mL eL / qi * qi)%Q) by (field; lra).
    destruct (start_below_length_arith (inject_Z L) (value mL eL) (value mL eL / qi) qi qq
                (inject_Z n) (inject_Z i)
                Hqi HLq0 HLq1 (Qlt_le_weak _ _ HvL) ZL Hy Hy0 Hqq0 D2 F1 Hiq)
      as [Hismall Hrest].
    unfold Schedule64.startSample.
    destruct (Z.eq_dec i 0) as [->|Hne].
    { exists 0. split; [reflexivity|lia]. }
    destruct (Binary64.of_Z i) as [sk|sk| |sk mk ek] eqn:HK.
    + exfalso. destruct (of_Z_error i 0 ltac:(lia)) as (_ & Z1 & _);
        [rewrite HK; reflexivity|].
      assert (H1 : (inject_Z 1 <= inject_Z i)%Q) by (apply inject_Z_le; lia).
      change (inject_Z 1) with 1%Q in H1. lra.
    + exfalso. pose proof (of_Z_overflow i sk ltac:(lia) HK). lra.
    + exfalso. pose proof (of_Z_shape i) as Hsh. rewrite HK in Hsh. cbn [shape_of] in Hsh.
      destruct (i =? 0), (i <? 0); cbn in Hsh; intuition discriminate.
    + destruct (of_Z_error i _ ltac:(lia) ltac:(rewrite HK; reflexivity))
        as (HqK0 & _ & Z2).
      destruct sk; [exfalso; exact (negative_value mk ek HqK0)|].
      change (Binary64.to_Q (S754_finite false mk ek)) with (Some (value mk ek)) in *.
      destruct (Hrest (value mk ek) HqK0 Z2) as [Hprod Hstart].
      destruct (Binary64.mul (S754_finite false mk ek) (S754_finite false mi ei))
        as [sp|sp| |sp mp ep] eqn:Hmul.
      * exists 0. split; [reflexivity|lia].
      * exfalso. pose proof (mul_overflow mk mi ek ei sp Hmul) as Hov.
        rewrite <- Eqi in Hov. lra.
      * exfalso. pose proof (mul_shape (S754_finite false mk ek) (S754_finite false mi ei))
          as Hsh. rewrite Hmul in Hsh. cbn in Hsh. intuition discriminate.
      * destruct (mul_error mk mi ek ei _ ltac:(rewrite Hmul; reflexivity))
          as (Hp0 & _ & M2).
        rewrite <- Eqi in M2.
        destruct sp; [exfalso; exact (negative_value mp ep Hp0)|].
        destruct (Binary64.Math_round (S754_finite false mp ep)) as [s| | |] eqn:Hs;
          try (cbn in Hs; destruct (ep <? 0); discriminate).
        destruct (Math_round_bounds _ _ Hs) as (p & Hp & R1 & R2).
        injection Hp as Ep. cbn [Binary64.to_Q Binary64.signed cond_Zopp] in Hp0, M2, Ep.
        rewrite Ep in Hp0, M2.
        exists s. split; [reflexivity|]. split.
        -- assert (H : (inject_Z (- 1) < inject_Z s)%Q).
           { change (inject_Z (- 1)) with (- 1)%Q. lra. }
           rewrite <- Zlt_Qlt in H. lia.
        -- rewrite Zlt_Qlt. exact (Hstart p (inject_Z s) Hp0 M2 R1).
Qed.

(** ** The claims *)

Lemma powerAt_nonneg (audioData : list R) (interval : Q) (windowSize i : Z) :
  (1 <= interval)%Q -> 0 < windowSize ->
  0 <= i < Schedule.totalWindows (Z.of_nat (length audioData)) interval ->
  nonneg_real (powerAt audioData interval windowSize i).
Proof.
  intros Hw Hws Hi.
  destruct (startSample_in_range _ _ _ Hw Hi) as [Hs0 Hs1].
  unfold powerAt.
  rewrite <- (Z2Nat.id (Schedule.startSample i interval)) by exact Hs0.
  apply calculateRMSPower_nonneg; [lia|exact Hws].
Qed.

Lemma nonneg_real_is_real (a : number) : nonneg_real a -> is_real a.
Proof. intros (r & -> & _). now exists r. Qed.

Lemma strict_eq_0_1 : strict_eq (of_Z 0) (of_Z 1) = false.
Proof.
  unfold strict_eq, of_Z. destruct (Req_dec_T (IZR 0) (IZR 1)) as [E|E]; [|reflexivity].
  apply eq_IZR in E. discriminate.
Qed.

Lemma strict_eq_refl_real (r : R) : strict_eq (Num r) (Num r) = true.
Proof. unfold strict_eq. destruct (Req_dec_T r r); [reflexivity|contradiction]. Qed.

(* ================= C2 ================= *)





(* ================= C4 ================= *)

(** C4.  For a start inside the array and a positive window size,
    [calculateRMSPower] is the square root of the mean of the squared
    samples of the window truncated at the end of the array, the mean being
    taken over the samples actually present.  [1,1,1,1] gives 1, [3,4]
    gives sqrt(12.5), and [1,1] from index 1 with size 4 averages over the
    one sample left (1, where a division by 4 would give 1/2). *)
Theorem rms_power_truncated_window (audioData : list R) (startSample : nat) (windowSize : Z) :
  (startSample < length audioData)%nat ->
  0 < windowSize ->
  calculateRMSPower audioData (Z.of_nat startSample) windowSize
  = Num (sqrt (mean_square (window audioData startSample windowSize)))
  /\ length (window audioData startSample windowSize)
     = Z.to_nat (Z.min (Z.of_nat startSample + windowSize) (Z.of_nat (length audioData))
                 - Z.of_nat startSample)
  /\ (1 <= length (window audioData startSample windowSize))%nat
  /\ calculateRMSPower [1; 1; 1; 1]%R 0 4 = Num 1
  /\ calculateRMSPower [3; 4]%R 0 2 = Num (sqrt (25 / 2))
  /\ (window [1; 1]%R 1 4 = [1%R]
      /\ calculateRMSPower [1; 1]%R 1 4 = Num 1
      /\ calculateRMSPower [1; 1]%R 1 4 <> Num (sqrt (1 / 4))).
Proof.
  intros Hs Hws.
  assert (Hlast : calculateRMSPower [1; 1]%R 1 4 = Num 1).
  { change (calculateRMSPower [1; 1]%R 1 4)
      with (calculateRMSPower [1; 1]%R (Z.of_nat 1) 4).
    rewrite (calculateRMSPower_window [1; 1]%R 1 4) by (simpl; lia).
    f_equal. transitivity (sqrt 1); [f_equal|apply sqrt_1].
    unfold mean_square, window, sum_squares. simpl. lra. }
  split; [now apply calculateRMSPower_window|].
  split; [now apply window_length|].
  split; [now apply window_length|].
  split; [|split; [|split; [|split]]].
  - change 0 with (Z.of_nat 0).
    rewrite (calculateRMSPower_window [1; 1; 1; 1]%R 0 4) by (simpl; lia).
    f_equal. transitivity (sqrt 1); [f_equal|apply sqrt_1].
    unfold mean_square, window, sum_squares. simpl. lra.
  - change 0 with (Z.of_nat 0).
    rewrite (calculateRMSPower_window [3; 4]%R 0 2) by (simpl; lia).
    f_equal. f_equal. unfold mean_square, window, sum_squares. simpl. lra.
  - reflexivity.
  - exact Hlast.
  - rewrite Hlast. intros E. injection E as E.
    assert (Hsq : (sqrt (1 / 4) * sqrt (1 / 4) = 1 / 4)%R) by (apply sqrt_sqrt; lra).
    rewrite <- E in Hsq. lra.
Qed.

Lemma rms_power_truncated_window_witness :
  calculateRMSPower [3; 4; 5]%R (Z.of_nat 1) 7
  = Num (sqrt (mean_square (window [3; 4; 5]%R 1 7)))
  /\ length (window [3; 4; 5]%R 1 7)
     = Z.to_nat (Z.min (Z.of_nat 1 + 7) (Z.of_nat (length [3; 4; 5]%R)) - Z.of_nat 1)
  /\ (1 <= length (window [3; 4; 5]%R 1 7))%nat
  /\ calculateRMSPower [1; 1; 1; 1]%R 0 4 = Num 1
  /\ calculateRMSPower [3; 4]%R 0 2 = Num (sqrt (25 / 2))
  /\ (window [1; 1]%R 1 4 = [1%R]
      /\ calculateRMSPower [1; 1]%R 1 4 = Num 1
      /\ calculateRMSPower [1; 1]%R 1 4 <> Num (sqrt (1 / 4))).
Proof. apply (rms_power_truncated_window [3; 4; 5]%R 1 7); simpl; lia. Defined.

(* ================= C5 ================= *)




Lemma oneSample_schedule :
  ~ (Schedule.windowsPerSecond (bpm (formWith (-1))) (samplesPerBeat (formWith (-1))) == 0)%Q
  /\ 1 <= Schedule.totalWindows (Z.of_nat (length (channelData0 oneSample)))
            (Schedule.windowIntervalSamples (bpm (formWith (-1)))
               (samplesPerBeat (formWith (-1))) (sampleRate oneSample)).
Proof. split; vm_compute; discriminate. Qed.

(* ================= C6 ================= *)

(** C6.  A redraw never writes the application state: after redrawing with
    one offset and then with another, the cached mono powers, the three
    cached band arrays and all stored maxima are what they were; a redraw
    only replaces the bitmap of the canvas. *)
Theorem offset_redraw_purity (viridisMap : Z -> RGBColor) (offset1 offset2 : Z) (w : World) :
  let w1 := snd (redrawCanvas viridisMap offset1 w) in
  let w2 := snd (redrawCanvas viridisMap offset2 w1) in
  state w1 = state w
  /\ state w2 = state w
  /\ cachedPowers (state w2) = cachedPowers (state w)
  /\ cachedRGBPowers (state w2) = cachedRGBPowers (state w)
  /\ maxPowerMono (state w2) = maxPowerMono (state w)
  /\ maxPowerRGB (state w2) = maxPowerRGB (state w).
Proof.
  intros w1 w2.
  assert (H1 : state w1 = state w) by apply redrawCanvas_preserves.
  assert (H2 : state w2 = state w).
  { unfold w2. rewrite redrawCanvas_preserves. exact H1. }
  rewrite H2. repeat split; assumption.
Qed.

(** Between bounds that are not strictly equal, a normalized value that
    is not [NaN] always selects a table entry. *)
Lemma powerToColor_selects (viridisMap : Z -> RGBColor) (power minPower maxPower : number) :
  strict_eq minPower maxPower = false ->
  div (sub power minPower) (sub maxPower minPower) <> NaN ->
  exists i,
    0 <= i <= 255
    /\ powerToColor viridisMap power minPower maxPower
       = (let '(r, g, b) := viridisMap i in Ret (of_Z r, of_Z g, of_Z b, of_Z 255)).
Proof.
  intros Heq Hn. unfold powerToColor. rewrite Heq.
  assert (Hidx : exists i, 0 <= i <= 255
            /\ Math_floor (mul (Math_max (of_Z 0)
                                  (Math_min (of_Z 1)
                                     (div (sub power minPower) (sub maxPower minPower))))
                             (of_Z 255)) = of_Z i).
  { destruct (div (sub power minPower) (sub maxPower minPower)) as [|[]|q].
    - contradiction.
    - exists 0. split; [lia|].
      cbn [Math_min Math_max of_Z leb mul Math_floor]. unfold of_Z.
      rewrite Rmult_0_l. now rewrite (ZfloorZ 0).
    - exists 255. split; [lia|].
      cbn [Math_min Math_max of_Z leb mul Math_floor]. unfold of_Z.
      destruct (Rle_dec (IZR 0) (IZR 1)) as [_|H]; [|exfalso; apply H; simpl; lra].
      cbn [mul Math_floor]. rewrite Rmult_1_l. now rewrite (ZfloorZ 255).
    - destruct (clamp_unit q) as (c & -> & Hc).
      exists (Zfloor (c * 255)). split.
      + split.
        * apply Zfloor_lub. simpl. nra.
        * pose proof (Zfloor_bound (c * 255)) as [Hlo _].
          assert (Zfloor (c * 255) < 256); [|lia]. apply lt_IZR. nra.
      + reflexivity. }
  destruct Hidx as (i & Hi & ->). exists i. split; [exact Hi|].
  unfold viridisMap_at. rewrite to_index_of_Z.
  destruct (Z.leb_spec 0 i); [|lia]. destruct (Z.ltb_spec i 256); [|lia].
  cbn [andb opaque]. destruct (viridisMap i) as [[r g] bl]. reflexivity.
Qed.

(* ================= C7 ================= *)

(** C7, as amended.  When [minPower === maxPower] the mapper returns entry
    128 of the table with alpha 255, whatever the power.  When the bounds
    are not strictly equal and the normalized value is [NaN], the index
    computed from it is [NaN], no entry is read and the destructuring
    raises a [TypeError]; whenever the normalized value is not [NaN] an
    entry of the table is returned with alpha 255.  So the mapper raises
    exactly when the bounds are not strictly equal and the normalized
    value is [NaN]. *)
Theorem powerToColor_degenerate_cases (viridisMap : Z -> RGBColor)
    (power minPower maxPower : number) :
  let normalized := div (sub power minPower) (sub maxPower minPower) in
  (strict_eq minPower maxPower = true ->
   powerToColor viridisMap power minPower maxPower
   = (let '(r, g, b) := viridisMap 128 in Ret (of_Z r, of_Z g, of_Z b, of_Z 255)))
  /\ (strict_eq minPower maxPower = false -> normalized = NaN ->
      powerToColor viridisMap power minPower maxPower = Exn TypeError)
  /\ (strict_eq minPower maxPower = false -> normalized <> NaN ->
      exists i,
        0 <= i <= 255
        /\ powerToColor viridisMap power minPower maxPower
           = (let '(r, g, b) := viridisMap i in Ret (of_Z r, of_Z g, of_Z b, of_Z 255)))
  /\ (powerToColor viridisMap power minPower maxPower = Exn TypeError <->
      strict_eq minPower maxPower = false /\ normalized = NaN).
Proof.
  intros normalized.
  assert (H1 := powerToColor_degenerate viridisMap power minPower maxPower).
  assert (H2 := powerToColor_NaN viridisMap power minPower maxPower).
  assert (H3 := powerToColor_selects viridisMap power minPower maxPower).
  split; [exact H1|]. split; [exact H2|]. split; [exact H3|].
  split.
  - intros Hraise. destruct (strict_eq minPower maxPower) eqn:Heq.
    + rewrite (H1 eq_refl) in Hraise. destruct (viridisMap 128) as [[r g] bl]. discriminate.
    + split; [reflexivity|].
      destruct normalized as [|s|q] eqn:Hn; [reflexivity| |]; exfalso.
      * destruct (H3 eq_refl) as (i & _ & Hi); [fold normalized; rewrite Hn; discriminate|].
        rewrite Hi in Hraise. destruct (viridisMap i) as [[r g] bl]. discriminate.
      * destruct (H3 eq_refl) as (i & _ & Hi); [fold normalized; rewrite Hn; discriminate|].
        rewrite Hi in Hraise. destruct (viridisMap i) as [[r g] bl]. discriminate.
  - intros [Heq Hn]. exact (H2 Heq Hn).
Qed.

Lemma powerToColor_degenerate_cases_witness :
  powerToColor sampleMap NaN (Num 3) (Num 3)
  = (let '(r, g, b) := sampleMap 128 in Ret (of_Z r, of_Z g, of_Z b, of_Z 255))
  /\ powerToColor sampleMap (Inf false) (of_Z 0) (Inf false) = Exn TypeError.
Proof.
  split.
  - apply (proj1 (powerToColor_degenerate_cases sampleMap NaN (Num 3) (Num 3))).
    apply strict_eq_refl_real.
  - apply (proj1 (proj2 (powerToColor_degenerate_cases sampleMap
                           (Inf false) (of_Z 0) (Inf false))));
      reflexivity.
Defined.

(** C7, as stated, fails for a [NaN] power between distinct bounds: the
    call raises instead of returning the midpoint entry. *)
Lemma powerToColor_NaN_raises :
  div (sub NaN (of_Z 0)) (sub (of_Z 1) (of_Z 0)) = NaN
  /\ powerToColor sampleMap NaN (of_Z 0) (of_Z 1) = Exn TypeError
  /\ powerToColor sampleMap NaN (of_Z 0) (of_Z 1)
     <> (let '(r, g, b) := sampleMap 128 in Ret (of_Z r, of_Z g, of_Z b, of_Z 255)).
Proof.
  assert (H : powerToColor sampleMap NaN (of_Z 0) (of_Z 1) = Exn TypeError).
  { apply powerToColor_NaN; [apply strict_eq_0_1|reflexivity]. }
  split; [reflexivity|]. split; [exact H|]. rewrite H. discriminate.
Qed.

(* ================= C8 ================= *)

Lemma getCanvasPositionForTime_index (time bpm sampleRate : Binary64.double)
    (samplesPerBeat canvasSize offset k : Z) (c : ZOrder.Coordinates) :
  Playback.getCanvasPositionForTime time
    {| Playback.bpm := bpm; Playback.sampleRate := sampleRate;
       Playback.cachedSamplesPerBeat := samplesPerBeat;
       Playback.cachedCanvasSize := canvasSize;
       Playback.zOrderOffset := Binary64.Int offset |} = Some c ->
  Binary64.Math_floor
    (Binary64.div time (Schedule64.windowIntervalSeconds bpm samplesPerBeat))
  = Binary64.Int k ->
  (samplesPerBeat =? 0) = false
  /\ c = ZOrder.getZOrderCoordinates (k + offset) canvasSize.
Proof.
  unfold Playback.getCanvasPositionForTime.
  cbn [Playback.cachedSamplesPerBeat Playback.cachedCanvasSize Playback.bpm
       Playback.zOrderOffset].
  destruct (samplesPerBeat =? 0); [discriminate|].
  destruct (canvasSize =? 0); [discriminate|]. cbn [orb].
  intros Hpos Hk. revert Hpos. rewrite Hk.
  cbn [Binary64.iadd Binary64.bitwise_operand].
  generalize (ZOrder.getZOrderCoordinates (k + offset) canvasSize). intros c0.
  destruct (_ || _); [discriminate|]. intros E. injection E as <-. split; reflexivity.
Qed.

Lemma getTimeForCanvasClick_index (canvasX canvasY bpm sampleRate duration : Binary64.double)
    (samplesPerBeat offset x0 y0 : Z) :
  (samplesPerBeat =? 0) = false ->
  Binary64.Math_floor canvasX = Binary64.Int x0 ->
  Binary64.Math_floor canvasY = Binary64.Int y0 ->
  Playback.getTimeForCanvasClick canvasX canvasY
    {| Playback.t_bpm := bpm; Playback.t_sampleRate := sampleRate;
       Playback.t_cachedSamplesPerBeat := samplesPerBeat;
       Playback.t_zOrderOffset := Binary64.Int offset;
       Playback.audioDuration := duration |}
  = (let time' :=
       Binary64.mul (Binary64.of_Z (ZOrder.interleave x0 y0 + - offset))
         (Schedule64.windowIntervalSeconds bpm samplesPerBeat) in
     if Binary64.lt time' (Binary64.of_Z 0) || Binary64.lt duration time'
     then None else Some time').
Proof.
  intros Hs Hx Hy. unfold Playback.getTimeForCanvasClick.
  cbn [Playback.t_cachedSamplesPerBeat Playback.t_bpm Playback.t_zOrderOffset
       Playback.audioDuration].
  rewrite Hs, Hx, Hy. reflexivity.
Qed.

(** C8, as amended.  Let [getCanvasPositionForTime] return a coordinate
    for a time, with an integer offset, a finite window index
    [k = Math.floor(time / interval)] (the quotient is the binary64 one:
    [k <= time / interval < k + 1] holds for it) and [k + offset] a signed
    32-bit integer.  Then a click anywhere in that pixel, with the same
    tempo and offset, computes [time' = k * interval] rounded to binary64
    and returns it, unless it is negative or beyond the duration, when the
    result is [null].  For a time that is not negative and a finite
    positive interval, a finite [time'] lies within one interval below the
    time up to the rounding of the quotient, of the index and of the
    product: [- slack <= time - time' < interval + slack] with
    [slack = 2^-50 * (time + interval) + 2^-1072 * (interval + 1)]. *)
Theorem time_coordinate_round_trip (time bpm sampleRate duration : Binary64.double)
    (samplesPerBeat canvasSize offset k : Z) (c : ZOrder.Coordinates)
    (canvasX canvasY : Binary64.double) :
  let interval := Schedule64.windowIntervalSeconds bpm samplesPerBeat in
  let time' := Binary64.mul (Binary64.of_Z k) interval in
  Playback.getCanvasPositionForTime time
    {| Playback.bpm := bpm; Playback.sampleRate := sampleRate;
       Playback.cachedSamplesPerBeat := samplesPerBeat;
       Playback.cachedCanvasSize := canvasSize;
       Playback.zOrderOffset := Binary64.Int offset |} = Some c ->
  Binary64.Math_floor (Binary64.div time interval) = Binary64.Int k ->
  - 2 ^ 31 <= k + offset < 2 ^ 31 ->
  Binary64.Math_floor canvasX = Binary64.Int (ZOrder.x c) ->
  Binary64.Math_floor canvasY = Binary64.Int (ZOrder.y c) ->
  Playback.getTimeForCanvasClick canvasX canvasY
    {| Playback.t_bpm := bpm; Playback.t_sampleRate := sampleRate;
       Playback.t_cachedSamplesPerBeat := samplesPerBeat;
       Playback.t_zOrderOffset := Binary64.Int offset;
       Playback.audioDuration := duration |}
  = (if Binary64.lt time' (Binary64.of_Z 0) || Binary64.lt duration time'
     then None else Some time')
  /\ (exists q,
        Binary64.to_Q (Binary64.div time interval) = Some q
        /\ (inject_Z k <= q)%Q /\ (q < inject_Z k + 1)%Q)
  /\ (forall qt qi qt',
        Binary64.to_Q time = Some qt -> (0 <= qt)%Q ->
        Binary64.to_Q interval = Some qi -> (0 < qi)%Q ->
        Binary64.to_Q time' = Some qt' ->
        (- rounding_slack qt qi <= qt - qt')%Q
        /\ (qt - qt' < qi + rounding_slack qt qi)%Q).
Proof.
  intros interval time' Hpos Hk Hrange Hx Hy.
  split; [|split; [exact (Math_floor_bounds _ _ Hk)|]].
  - destruct (getCanvasPositionForTime_index _ _ _ _ _ _ _ _ Hpos Hk) as [Hs Hc].
    rewrite (getTimeForCanvasClick_index _ _ _ _ _ _ _ _ _ Hs Hx Hy).
    rewrite Hc, interleave_getZ, ToInt32_small by exact Hrange.
    replace (k + offset + - offset) with k by lia. reflexivity.
  - intros qt qi qt'. exact (window_time_error time interval k qt qi qt' Hk).
Qed.

Lemma time_coordinate_round_trip_witness :
  let interval := Schedule64.windowIntervalSeconds (Binary64.of_Z 110) 1 in
  let time' := Binary64.mul (Binary64.of_Z 10) interval in
  Playback.getTimeForCanvasClick (Binary64.of_Z 0) (Binary64.of_Z 3)
    {| Playback.t_bpm := Binary64.of_Z 110; Playback.t_sampleRate := Binary64.of_Z 44100;
       Playback.t_cachedSamplesPerBeat := 1;
       Playback.t_zOrderOffset := Binary64.Int 0;
       Playback.audioDuration := Binary64.of_Z 100 |}
  = (if Binary64.lt time' (Binary64.of_Z 0) || Binary64.lt (Binary64.of_Z 100) time'
     then None else Some time')
  /\ exists qt qi qt',
       Binary64.to_Q (Binary64.of_Z 6) = Some qt
       /\ Binary64.to_Q interval = Some qi
       /\ Binary64.to_Q time' = Some qt'
       /\ (- rounding_slack qt qi <= qt - qt')%Q
       /\ (qt - qt' < qi + rounding_slack qt qi)%Q.
Proof.
  intros interval time'.
  destruct (time_coordinate_round_trip (Binary64.of_Z 6) (Binary64.of_Z 110)
              (Binary64.of_Z 44100) (Binary64.of_Z 100) 1 16 0 10
              {| ZOrder.x := 0; ZOrder.y := 3 |} (Binary64.of_Z 0) (Binary64.of_Z 3))
    as (Hclick & _ & Hbound).
  - vm_compute. reflexivity.
  - vm_compute. reflexivity.
  - lia.
  - reflexivity.
  - reflexivity.
  - split; [exact Hclick|].
    do 3 eexists. split; [vm_compute; reflexivity|].
    split; [vm_compute; reflexivity|]. split; [vm_compute; reflexivity|].
    apply Hbound.
    + vm_compute. reflexivity.
    + vm_compute. discriminate.
    + vm_compute. reflexivity.
    + vm_compute. reflexivity.
    + vm_compute. reflexivity.
Defined.

(** C8, as stated, fails in both directions of the bound and in the
    return.  At bpm 110 with one sample per beat the interval is the
    binary64 value 0.5454545454545455.  The time 1.6363636363636365 is
    drawn at (1, 1), and a click there returns a time above it:
    [t - t' < 0].  The time 67.63636363636364 is assigned window 123,
    whose time lies a full interval and more below it.  With an offset of
    2^32 windows, time 0 is drawn at (0, 0) and a click there returns
    [null]. *)
Lemma time_coordinate_round_trip_fails :
  let interval := Schedule64.windowIntervalSeconds (Binary64.of_Z 110) 1 in
  let position := fun time offset =>
    Playback.getCanvasPositionForTime time
      {| Playback.bpm := Binary64.of_Z 110; Playback.sampleRate := Binary64.of_Z 44100;
         Playback.cachedSamplesPerBeat := 1; Playback.cachedCanvasSize := 16;
         Playback.zOrderOffset := Binary64.Int offset |} in
  let click := fun x y offset =>
    Playback.getTimeForCanvasClick (Binary64.of_Z x) (Binary64.of_Z y)
      {| Playback.t_bpm := Binary64.of_Z 110; Playback.t_sampleRate := Binary64.of_Z 44100;
         Playback.t_cachedSamplesPerBeat := 1;
         Playback.t_zOrderOffset := Binary64.Int offset;
         Playback.audioDuration := Binary64.of_Z 100 |} in
  let t1 := Binary64.of_Q (16363636363636365 # 10000000000000000) in
  let t2 := Binary64.of_Q (6763636363636364 # 100000000000000) in
  (Binary64.lt t1 (Binary64.of_Z 100) = true
   /\ position t1 0 = Some {| ZOrder.x := 1; ZOrder.y := 1 |}
   /\ exists t', click 1 1 0 = Some t' /\ Binary64.lt t1 t' = true)
  /\ (Binary64.lt t2 (Binary64.of_Z 100) = true
      /\ position t2 0 = Some {| ZOrder.x := 13; ZOrder.y := 7 |}
      /\ exists t' q2 q' qi,
           click 13 7 0 = Some t'
           /\ Binary64.to_Q t2 = Some q2 /\ Binary64.to_Q t' = Some q'
           /\ Binary64.to_Q interval = Some qi
           /\ (qi <= q2 - q')%Q)
  /\ (position (Binary64.of_Z 0) (2 ^ 32) = Some {| ZOrder.x := 0; ZOrder.y := 0 |}
      /\ click 0 0 (2 ^ 32) = None).
Proof.
  cbv zeta. split; [|split].
  - split; [vm_compute; reflexivity|]. split; [vm_compute; reflexivity|].
    eexists. split; vm_compute; reflexivity.
  - split; [vm_compute; reflexivity|]. split; [vm_compute; reflexivity|].
    do 4 eexists. split; [vm_compute; reflexivity|].
    split; [vm_compute; reflexivity|]. split; [vm_compute; reflexivity|].
    split; [vm_compute; reflexivity|]. vm_compute. discriminate.
  - split; vm_compute; reflexivity.
Qed.

(* ================= C9 ================= *)

(** C9.  A window whose Morton coordinates lie outside
    [0, width) x [0, height) leaves the image buffer as it is, in mono and
    in RGB mode: a column or row at or beyond the bound fails the test of
    the source, and a negative row (what a negative adjusted index gives)
    passes it but addresses a negative byte index, which a typed array
    ignores.  Nothing is clamped or wrapped into the canvas. *)
Theorem off_canvas_windows_skipped (viridisMap : Z -> RGBColor)
    (canvasWidth canvasHeight index : Z) (minPower maxPower power : number)
    (lowPower midPower highPower : number) (maxRGB : MaxPowerRGB) (d : list Z) :
  let c := ZOrder.getZOrderCoordinates index canvasWidth in
  ~ (0 <= ZOrder.x c < canvasWidth /\ 0 <= ZOrder.y c < canvasHeight) ->
  (forall d', drawMonoWindow viridisMap canvasWidth canvasHeight minPower maxPower
                index power d = Ret d' -> d' = d)
  /\ (canvasWidth <= ZOrder.x c \/ canvasHeight <= ZOrder.y c ->
      drawMonoWindow viridisMap canvasWidth canvasHeight minPower maxPower
        index power d = Ret d)
  /\ (forall p a b, power = Num p -> minPower = Num a -> maxPower = Num b ->
      drawMonoWindow viridisMap canvasWidth canvasHeight minPower maxPower
        index power d = Ret d)
  /\ drawRGBWindow canvasWidth canvasHeight maxRGB index lowPower midPower highPower d = d
  /\ (- 2 ^ 31 <= index < 0 -> ZOrder.y c < 0).
Proof.
  intros c Hout.
  pose proof (off_canvas_pixelIndex index canvasWidth canvasHeight Hout) as Hneg.
  pose proof (getZ_y_negative index canvasWidth) as Hy.
  assert (Hmono : forall d', drawMonoWindow viridisMap canvasWidth canvasHeight
                    minPower maxPower index power d = Ret d' -> d' = d).
  { unfold drawMonoWindow. fold c in Hneg |- *. clearbody c.
    destruct ((ZOrder.x c <? canvasWidth) && (ZOrder.y c <? canvasHeight)) eqn:Hin.
    - specialize (Hneg eq_refl). intros d' Hd.
      destruct (powerToColor viridisMap power minPower maxPower) as [color|e];
        [|discriminate].
      injection Hd as <-. now apply putPixel_negative.
    - intros d' Hd. now injection Hd as <-. }
  split; [exact Hmono|]. split; [|split; [|split]].
  - unfold drawMonoWindow. fold c. clearbody c. intros Hskip.
    destruct (Z.ltb_spec (ZOrder.x c) canvasWidth), (Z.ltb_spec (ZOrder.y c) canvasHeight);
      try reflexivity; lia.
  - intros p a b -> -> ->.
    destruct (drawMonoWindow_real viridisMap canvasWidth canvasHeight index a b p d)
      as [d' Hd].
    rewrite Hd. f_equal. now apply Hmono.
  - unfold drawRGBWindow. fold c in Hneg |- *. clearbody c.
    destruct ((ZOrder.x c <? canvasWidth) && (ZOrder.y c <? canvasHeight)) eqn:Hin;
      [|reflexivity].
    apply putPixel_negative. now apply Hneg.
  - exact Hy.
Qed.

Lemma off_canvas_windows_skipped_witness :
  let c := ZOrder.getZOrderCoordinates (-1) 8 in
  (forall d', drawMonoWindow sampleMap 8 8 (of_Z 0) (of_Z 1) (-1) (of_Z 1)
                (repeat 0 256) = Ret d' -> d' = repeat 0 256)
  /\ (8 <= ZOrder.x c \/ 8 <= ZOrder.y c ->
      drawMonoWindow sampleMap 8 8 (of_Z 0) (of_Z 1) (-1) (of_Z 1) (repeat 0 256)
      = Ret (repeat 0 256))
  /\ (forall p a b, of_Z 1 = Num p -> of_Z 0 = Num a -> of_Z 1 = Num b ->
      drawMonoWindow sampleMap 8 8 (of_Z 0) (of_Z 1) (-1) (of_Z 1) (repeat 0 256)
      = Ret (repeat 0 256))
  /\ drawRGBWindow 8 8 {| maxLow := of_Z 1; maxMid := of_Z 1; maxHigh := of_Z 1 |} (-1)
       (of_Z 1) (of_Z 1) (of_Z 1) (repeat 0 256) = repeat 0 256
  /\ (- 2 ^ 31 <= -1 < 0 -> ZOrder.y c < 0).
Proof.
  apply (off_canvas_windows_skipped sampleMap 8 8 (-1) (of_Z 0) (of_Z 1) (of_Z 1)
           (of_Z 1) (of_Z 1) (of_Z 1)
           {| maxLow := of_Z 1; maxMid := of_Z 1; maxHigh := of_Z 1 |} (repeat 0 256)).
  change (ZOrder.getZOrderCoordinates (-1) 8) with {| ZOrder.x := 65535; ZOrder.y := -1 |}.
  cbn [ZOrder.x ZOrder.y]. lia.
Defined.

(* ================= C10 ================= *)

(** C10, as amended.  For a window interval of at least one sample and a
    window size of at least one sample, every window index below
    [floor(L / interval)] starts inside the signal, its window holds at
    least one sample and its power is a non-negative real; a mono pass
    started with a real provisional maximum completes, and every power it
    caches is a non-negative real. *)
Theorem pipeline_never_records_NaN (viridisMap : Z -> RGBColor) (inputs : Inputs)
    (audioData : list R) (windowIntervalSamples : Q)
    (windowSize zOrderOffset canvasWidth canvasHeight : Z) (imageData : ImageData)
    (w : World) (m : R) :
  (1 <= windowIntervalSamples)%Q ->
  0 < windowSize ->
  maxPowerMono (state w) = Num m ->
  canvasWidth <> 0 -> canvasHeight <> 0 ->
  let audioLength := Z.of_nat (length audioData) in
  let totalWindows := Schedule.totalWindows audioLength windowIntervalSamples in
  (forall i, 0 <= i < totalWindows ->
     let startSample := Schedule.startSample i windowIntervalSamples in
     0 <= startSample < audioLength
     /\ (1 <= length (window audioData (Z.to_nat startSample) windowSize))%nat
     /\ nonneg_real (calculateRMSPower audioData startSample windowSize))
  /\ exists cv powers,
       processMonoMode viridisMap inputs audioData totalWindows windowIntervalSamples
         windowSize zOrderOffset canvasWidth canvasHeight imageData w
       = (Ret tt, {| state := cacheMono inputs powers canvasWidth canvasHeight (state w);
                     canvas := cv |})
       /\ length powers = Z.to_nat totalWindows
       /\ Forall nonneg_real powers.
Proof.
  intros Hw Hws Hmax HW HH audioLength totalWindows. split.
  - intros i Hi startSample.
    destruct (startSample_in_range audioLength i windowIntervalSamples Hw Hi) as [Hs0 Hs1].
    fold startSample in Hs0, Hs1.
    split; [lia|]. split.
    + apply window_length; [unfold audioLength in Hs1; lia|exact Hws].
    + now apply (powerAt_nonneg audioData windowIntervalSamples windowSize i).
  - destruct (processMonoMode_returns viridisMap inputs audioData totalWindows
                windowIntervalSamples windowSize zOrderOffset canvasWidth canvasHeight
                imageData w m Hmax HW HH) as [cv Hrun].
    { intros i Hi. now apply nonneg_real_is_real, powerAt_nonneg. }
    exists cv. eexists. split; [exact Hrun|]. split.
    + now rewrite length_map, length_upto.
    + apply Forall_forall. intros p Hp. apply in_map_iff in Hp.
      destruct Hp as (j & <- & Hj). apply In_upto in Hj.
      apply powerAt_nonneg; [exact Hw|exact Hws|]. fold audioLength totalWindows. lia.
Qed.

Lemma pipeline_never_records_NaN_witness :
  let audioLength := Z.of_nat (length [1%R; 1%R; 1%R]) in
  let totalWindows := Schedule.totalWindows audioLength (3 # 2) in
  (forall i, 0 <= i < totalWindows ->
     let startSample := Schedule.startSample i (3 # 2) in
     0 <= startSample < audioLength
     /\ (1 <= length (window [1%R; 1%R; 1%R] (Z.to_nat startSample) 2))%nat
     /\ nonneg_real (calculateRMSPower [1%R; 1%R; 1%R] startSample 2))
  /\ exists cv powers,
       processMonoMode sampleMap (formWith 2) [1%R; 1%R; 1%R] totalWindows (3 # 2)
         2 0 2 1 {| width := 2; height := 1; data := repeat 0 8 |}
         {| state := loadedState {| sampleRate := 1; channelData0 := [1%R; 1%R; 1%R] |};
            canvas := emptyCanvas |}
       = (Ret tt,
          {| state := cacheMono (formWith 2) powers 2 1
                        (loadedState {| sampleRate := 1; channelData0 := [1%R; 1%R; 1%R] |});
             canvas := cv |})
       /\ length powers = Z.to_nat totalWindows
       /\ Forall nonneg_real powers.
Proof.
  apply (pipeline_never_records_NaN sampleMap (formWith 2) [1%R; 1%R; 1%R] (3 # 2)
           2 0 2 1 {| width := 2; height := 1; data := repeat 0 8 |}
           {| state := loadedState {| sampleRate := 1; channelData0 := [1%R; 1%R; 1%R] |};
              canvas := emptyCanvas |} 1%R);
    try reflexivity; try lia.
  vm_compute. discriminate.
Defined.

(** C10, as stated, fails for a window size of 0: the first window of a
    one-sample signal (interval 1, so one window) averages over no sample
    and its power is [NaN]; with the window drawn off the canvas the pass
    completes and caches that [NaN]. *)
Lemma pipeline_records_NaN_for_empty_window :
  (1 <= 1)%Q
  /\ 0 <= 0 < Schedule.totalWindows (Z.of_nat (length [1%R])) 1
  /\ window [1%R] (Z.to_nat (Schedule.startSample 0 1)) 0 = []
  /\ calculateRMSPower [1%R] (Schedule.startSample 0 1) 0 = NaN
  /\ exists cv,
       processMonoMode sampleMap (formWith 0) [1%R]
         (Schedule.totalWindows (Z.of_nat (length [1%R])) 1) 1 0 1 1 1
         {| width := 1; height := 1; data := repeat 0 4 |}
         {| state := loadedState oneSample; canvas := emptyCanvas |}
       = (Ret tt, {| state := cacheMono (formWith 0) [NaN] 1 1 (loadedState oneSample);
                     canvas := cv |}).
Proof.
  assert (Hnan : calculateRMSPower [1%R] 0 0 = NaN)
    by (apply calculateRMSPower_zero_size; simpl; lia).
  split; [vm_compute; discriminate|].
  split; [vm_compute; split; [discriminate|reflexivity]|].
  split; [reflexivity|].
  split; [exact Hnan|].
  change (Schedule.totalWindows (Z.of_nat (length [1%R])) 1) with 1.
  unfold processMonoMode, for_rangeM.
  change (Z.to_nat (1 - 0)) with 1%nat. cbn [for_loopM]. unfold monoStep.
  change (Schedule.startSample 0 1) with 0. rewrite Hnan.
  eexists. vm_compute. reflexivity.
Qed.

(** * Further properties of the code *)

(** ** Morton coding on all integers *)

Lemma wrap_signed_range (w z : Z) : 0 < w ->
  - 2 ^ (w - 1) <= Int32.wrap_signed w z < 2 ^ (w - 1).
Proof.
  intros Hw. unfold Int32.wrap_signed.
  assert (Hp : 0 < 2 ^ (w - 1)) by (apply Z.pow_pos_nonneg; lia).
  assert (Hpp : 2 ^ w = 2 * 2 ^ (w - 1)).
  { rewrite <- Z.pow_succ_r by lia. f_equal. lia. }
  assert (Hm : 0 <= z mod 2 ^ w < 2 ^ w) by (apply Z.mod_pos_bound; lia).
  destruct (Z.ltb_spec (z mod 2 ^ w) (2 ^ (w - 1))); lia.
Qed.

Lemma ToInt32_closed (v : Z) : int32_closed v -> Int32.ToInt32 v = v.
Proof.
  intros Hc. apply Z.bits_inj'. intros k Hk.
  rewrite ToInt32_testbit by lia. symmetry. now apply Hc.
Qed.

Lemma interleave_closed (x0 y0 : Z) : int32_closed (ZOrder.interleave x0 y0).
Proof.
  unfold ZOrder.interleave, for_range, ZOrder.interleave_body.
  apply for_loop_js_or_closed, int32_closed_0.
Qed.

Lemma getZ_y_wrap (index width : Z) :
  ZOrder.y (ZOrder.getZOrderCoordinates index width)
  = Int32.wrap_signed 16 (ZOrder.y (ZOrder.getZOrderCoordinates index width)).
Proof.
  apply Z.bits_inj'. intros k Hk.
  rewrite wrap_signed_testbit by lia. rewrite !getZ_y_testbit by lia.
  f_equal. lia.
Qed.

(** X1.  Decoding then interleaving is reduction to 32 bits, for every
    integer index. *)
Theorem interleave_after_decode (index width : Z) :
  ZOrder.interleave (ZOrder.x (ZOrder.getZOrderCoordinates index width))
                    (ZOrder.y (ZOrder.getZOrderCoordinates index width))
  = Int32.ToInt32 index
  /\ - 2 ^ 31 <= Int32.ToInt32 index < 2 ^ 31
  /\ (Int32.ToInt32 index - index) mod 2 ^ 32 = 0.
Proof.
  split; [apply interleave_getZ|]. split.
  - apply (wrap_signed_range 32). lia.
  - unfold Int32.ToInt32, Int32.wrap_signed.
    destruct (Z.ltb_spec (index mod 2 ^ 32) (2 ^ (32 - 1))).
    + rewrite Zminus_mod, Z.mod_mod, Z.sub_diag by (vm_compute; congruence). reflexivity.
    + replace (index mod 2 ^ 32 - 2 ^ 32 - index)
        with ((index mod 2 ^ 32 - index) + (-1) * 2 ^ 32) by lia.
      rewrite Z.mod_add by (vm_compute; congruence).
      rewrite Zminus_mod, Z.mod_mod, Z.sub_diag by (vm_compute; congruence). reflexivity.
Qed.

(** X2.  Interleaving then decoding keeps the low 16 bits of each
    coordinate, [y] read as a signed 16-bit value; an index produced by
    [interleave] is a 32-bit integer. *)
Theorem decode_after_interleave (x0 y0 width : Z) :
  ZOrder.getZOrderCoordinates (ZOrder.interleave x0 y0) width
  = {| ZOrder.x := x0 mod 2 ^ 16; ZOrder.y := Int32.wrap_signed 16 y0 |}
  /\ - 2 ^ 31 <= ZOrder.interleave x0 y0 < 2 ^ 31
  /\ ZOrder.interleave (x0 mod 2 ^ 16) (Int32.wrap_signed 16 y0) = ZOrder.interleave x0 y0.
Proof.
  split; [apply getZ_interleave|].
  assert (Hi : Int32.ToInt32 (ZOrder.interleave x0 y0) = ZOrder.interleave x0 y0)
    by apply ToInt32_closed, interleave_closed.
  split.
  - rewrite <- Hi. apply (wrap_signed_range 32). lia.
  - pose proof (interleave_getZ (ZOrder.interleave x0 y0) width) as H.
    rewrite getZ_interleave in H. cbn [ZOrder.x ZOrder.y] in H. now rewrite H.
Qed.

Lemma sign_by_high_bits (v K : Z) (b : bool) :
  (forall m, K <= m -> Z.testbit v m = b) -> (v < 0 <-> b = true).
Proof.
  intros Hbits. destruct b.
  - split; [reflexivity|intros _].
    apply Z.bits_iff_neg_ex. exists K. intros m Hm. apply Hbits. lia.
  - split; [|discriminate]. intros Hneg. exfalso.
    assert (H0 : 0 <= v); [|lia].
    apply Z.bits_iff_nonneg_ex. exists K. intros m Hm. apply Hbits. lia.
Qed.

Lemma coordinates_eq (a b : ZOrder.Coordinates) :
  ZOrder.x a = ZOrder.x b -> ZOrder.y a = ZOrder.y b -> a = b.
Proof. destruct a, b. simpl. now intros -> ->. Qed.

Lemma getZ_ToInt32 (index width : Z) :
  ZOrder.getZOrderCoordinates (Int32.ToInt32 index) width
  = ZOrder.getZOrderCoordinates index width.
Proof.
  apply coordinates_eq; apply Z.bits_inj'; intros k Hk.
  - rewrite !getZ_x_testbit by lia.
    destruct (Z.ltb_spec k 16); [|reflexivity].
    rewrite ToInt32_testbit by lia. cbn [andb]. f_equal. lia.
  - rewrite !getZ_y_testbit by lia. rewrite ToInt32_testbit by lia. f_equal. lia.
Qed.

(** X3.  Range of the decoded coordinates and injectivity. *)
Theorem decoded_coordinates_range (index index' width : Z) :
  let c := ZOrder.getZOrderCoordinates index width in
  (0 <= ZOrder.x c < 2 ^ 16 /\ - 2 ^ 15 <= ZOrder.y c < 2 ^ 15)
  /\ (ZOrder.y c < 0 <-> Int32.ToInt32 index < 0)
  /\ (ZOrder.getZOrderCoordinates index' width = c <->
      Int32.ToInt32 index' = Int32.ToInt32 index).
Proof.
  intros c. split; [|split].
  - split; [apply getZ_x_range|].
    unfold c. rewrite getZ_y_wrap. apply (wrap_signed_range 16). lia.
  - rewrite (sign_by_high_bits (ZOrder.y c) 15 (Z.testbit index 31)).
    + symmetry. apply (sign_by_high_bits _ 31).
      intros m Hm. rewrite ToInt32_testbit by lia. f_equal. lia.
    + intros m Hm. unfold c. rewrite getZ_y_testbit by lia. f_equal. lia.
  - unfold c. split.
    + intros H. rewrite <- !(interleave_getZ _ width). now rewrite H.
    + intros H. rewrite <- (getZ_ToInt32 index'), H. apply getZ_ToInt32.
Qed.

(** ** Windows on the canvas *)

Lemma low_bits_bound (v n : Z) :
  0 <= n -> (forall k, n <= k -> Z.testbit v k = false) -> 0 <= v < 2 ^ n.
Proof.
  intros Hn Hbits.
  assert (Hv : v = v mod 2 ^ n).
  { apply Z.bits_inj'. intros k Hk. rewrite Z.testbit_mod_pow2 by lia.
    destruct (Z.ltb_spec k n); [reflexivity|]. now apply Hbits. }
  rewrite Hv. apply Z.mod_pos_bound. apply Z.pow_pos_nonneg; lia.
Qed.

(** X4.  With a zero offset every window of a pass is drawn inside the
    canvas computed for it. *)
Theorem windows_fit_canvas (totalWindows i : Z) :
  1 <= totalWindows <= 2 ^ 31 ->
  0 <= i < totalWindows ->
  let c := ZOrder.getZOrderCoordinates i (Schedule.canvasWidth totalWindows) in
  0 <= ZOrder.x c < Schedule.canvasWidth totalWindows
  /\ 0 <= ZOrder.y c < Schedule.canvasHeight totalWindows.
Proof.
  intros Hn Hi c.
  destruct (Math_ceil_log2_least totalWindows (proj1 Hn)) as (Hle & Hnn & Hleast).
  fold (Schedule.totalBits totalWindows) in Hle, Hnn, Hleast.
  set (t := Schedule.totalBits totalWindows) in *.
  assert (Ht : t <= 31) by (apply Hleast; lia).
  destruct (xBits_yBits t Hnn) as (Hy & Hx & Hsum & Hxy).
  assert (Hit : 0 <= i < 2 ^ t) by lia.
  unfold Schedule.canvasWidth, Schedule.canvasHeight, JSMath.Math_pow2. fold t.
  split.
  - apply low_bits_bound; [exact Hx|]. intros k Hk. unfold c.
    rewrite getZ_x_testbit by lia.
    rewrite (testbit_small i t (2 * k)) by lia. apply andb_false_r.
  - apply low_bits_bound; [exact Hy|]. intros k Hk. unfold c.
    rewrite getZ_y_testbit by lia.
    apply (testbit_small i t); lia.
Qed.

Lemma windows_fit_canvas_witness :
  let c := ZOrder.getZOrderCoordinates 999 (Schedule.canvasWidth 1000) in
  0 <= ZOrder.x c < Schedule.canvasWidth 1000
  /\ 0 <= ZOrder.y c < Schedule.canvasHeight 1000.
Proof. apply (windows_fit_canvas 1000 999); vm_compute; split; congruence. Defined.

(** X5.  The canvas is square or twice as wide as high, and fewer than half
    of its pixels are left without a window. *)
Theorem canvas_shape (totalWindows : Z) :
  1 <= totalWindows ->
  let w := Schedule.canvasWidth totalWindows in
  let h := Schedule.canvasHeight totalWindows in
  1 <= h /\ (w = h \/ w = 2 * h) /\ (2 <= totalWindows -> w * h < 2 * totalWindows).
Proof.
  intros Hn w h.
  destruct (Math_ceil_log2_least totalWindows Hn) as (Hle & Hnn & Hleast).
  fold (Schedule.totalBits totalWindows) in Hle, Hnn, Hleast.
  pose proof (canvas_area totalWindows Hn) as Harea. fold w h in Harea.
  unfold w, h, Schedule.canvasWidth, Schedule.canvasHeight, JSMath.Math_pow2 in *.
  set (t := Schedule.totalBits totalWindows) in *.
  destruct (xBits_yBits t Hnn) as (Hy & Hx & Hsum & Hxy).
  split; [|split].
  - assert (0 < 2 ^ Schedule.yBits t) by (apply Z.pow_pos_nonneg; lia). lia.
  - destruct (Z.eq_dec (Schedule.xBits t) (Schedule.yBits t)) as [E|E].
    + left. now rewrite E.
    + right. replace (Schedule.xBits t) with (Z.succ (Schedule.yBits t)) by lia.
      apply Z.pow_succ_r. lia.
  - intros H2. rewrite Harea.
    assert (Hspec : 2 ^ Z.pred t < totalWindows)
      by (apply (Z.log2_up_spec totalWindows); lia).
    assert (Htpos : 0 < t).
    { unfold t, Schedule.totalBits, JSMath.Math_ceil_log2. apply Z.log2_up_pos. lia. }
    replace t with (Z.succ (Z.pred t)) at 1 by lia.
    rewrite Z.pow_succ_r by lia. lia.
Qed.

Lemma canvas_shape_witness :
  let w := Schedule.canvasWidth 1025 in
  let h := Schedule.canvasHeight 1025 in
  1 <= h /\ (w = h \/ w = 2 * h) /\ (2 <= 1025 -> w * h < 2 * 1025).
Proof. apply (canvas_shape 1025). lia. Defined.

(** ** Power of degenerate and bounded windows *)

Lemma calculateRMSPower_by_count (audioData : list R) (startSample windowSize : Z) :
  let count := Z.min (startSample + windowSize) (Z.of_nat (length audioData)) - startSample in
  (count = 0 -> calculateRMSPower audioData startSample windowSize = NaN)
  /\ (count < 0 -> calculateRMSPower audioData startSample windowSize = Num 0).
Proof.
  intros count. unfold calculateRMSPower, for_range. fold count. split; intros Hc.
  - rewrite Hc. cbn [Z.to_nat for_loop]. unfold of_Z, div.
    now rewrite !is_zero_true by reflexivity.
  - replace (Z.to_nat count) with 0%nat by lia. cbn [for_loop]. unfold of_Z, div.
    assert (Hr : (IZR count < 0)%R) by (apply IZR_lt in Hc; exact Hc).
    rewrite is_zero_false by lra. unfold Math_sqrt.
    replace (0 / IZR count)%R with 0%R by (field; lra).
    rewrite is_neg_false by lra. now rewrite sqrt_0.
Qed.

(** X6.  A window that holds no sample has no mean: when the end of the
    window, cut at the end of the array, equals its start the power is
    [NaN]; when it lies before the start (a negative size, or a start
    beyond the array) the power is 0. *)
Theorem rms_power_of_empty_window (audioData : list R) (startSample windowSize : Z) :
  let endSample := Z.min (startSample + windowSize) (Z.of_nat (length audioData)) in
  endSample <= startSample ->
  calculateRMSPower audioData startSample windowSize
  = if endSample =? startSample then NaN else Num 0.
Proof.
  intros endSample Hle.
  destruct (calculateRMSPower_by_count audioData startSample windowSize) as [H0 Hneg].
  fold endSample in H0, Hneg.
  destruct (Z.eqb_spec endSample startSample) as [E|E].
  - apply H0. lia.
  - apply Hneg. lia.
Qed.

Lemma rms_power_of_empty_window_witness :
  calculateRMSPower [1%R; 2%R] 2 3 = NaN
  /\ calculateRMSPower [1%R; 2%R] 5 3 = Num 0
  /\ calculateRMSPower [1%R; 2%R] 1 (-1) = Num 0.
Proof.
  split; [|split].
  - apply (rms_power_of_empty_window [1%R; 2%R] 2 3). vm_compute. discriminate.
  - apply (rms_power_of_empty_window [1%R; 2%R] 5 3). vm_compute. discriminate.
  - apply (rms_power_of_empty_window [1%R; 2%R] 1 (-1)). vm_compute. discriminate.
Defined.





(** X8.  Once the window reaches the end of the array a larger window size
    changes nothing. *)
Theorem rms_power_saturates (audioData : list R) (startSample : nat)
    (windowSize windowSize' : Z) :
  (startSample < length audioData)%nat ->
  Z.of_nat (length audioData) - Z.of_nat startSample <= windowSize ->
  Z.of_nat (length audioData) - Z.of_nat startSample <= windowSize' ->
  calculateRMSPower audioData (Z.of_nat startSample) windowSize
  = calculateRMSPower audioData (Z.of_nat startSample) windowSize'
  /\ window audioData startSample windowSize = skipn startSample audioData.
Proof.
  intros Hs Hw Hw'.
  rewrite !calculateRMSPower_window by lia.
  assert (Hwin : forall ws, Z.of_nat (length audioData) - Z.of_nat startSample <= ws ->
            window audioData startSample ws = skipn startSample audioData).
  { intros ws Hle. unfold window. apply firstn_all2. rewrite length_skipn. lia. }
  rewrite (Hwin windowSize Hw), (Hwin windowSize' Hw'). split; reflexivity.
Qed.

Lemma rms_power_saturates_witness :
  calculateRMSPower [3; 4; 5]%R (Z.of_nat 1) 2
  = calculateRMSPower [3; 4; 5]%R (Z.of_nat 1) 1024
  /\ window [3; 4; 5]%R 1 2 = skipn 1 [3; 4; 5]%R.
Proof. apply (rms_power_saturates [3; 4; 5]%R 1 2 1024); simpl; lia. Defined.

(** ** Colour index *)




(** ** Bytes written by the drawing steps *)

Lemma length_replace_nth (n : nat) (v : Z) (l : list Z) :
  length (replace_nth n v l) = length l.
Proof.
  revert n. induction l as [|h t IH]; intros [|n]; simpl; try reflexivity.
  now rewrite IH.
Qed.

Lemma nth_replace_nth (n k : nat) (v : Z) (l : list Z) :
  nth k (replace_nth n v l) 0
  = if (Nat.eqb k n && Nat.ltb n (length l))%bool then v else nth k l 0.
Proof.
  revert n k. induction l as [|h t IH]; intros [|n] [|k]; simpl; try reflexivity.
  - now rewrite andb_false_r.
  - rewrite IH. reflexivity.
Qed.

Lemma length_store (d : list Z) (i : Z) (v : number) : length (store d i v) = length d.
Proof.
  unfold store. destruct (_ && _); [apply length_replace_nth|reflexivity].
Qed.

Lemma nth_store (d : list Z) (i k : Z) (v : number) :
  0 <= k ->
  nth (Z.to_nat k) (store d i v) 0
  = if (k =? i) && (k <? Z.of_nat (length d)) then ToUint8Clamp v
    else nth (Z.to_nat k) d 0.
Proof.
  intros Hk. unfold store.
  destruct (Z.leb_spec 0 i) as [Hi|Hi], (Z.ltb_spec i (Z.of_nat (length d))) as [Hl|Hl];
    cbn [andb].
  - rewrite nth_replace_nth.
    destruct (Z.eqb_spec k i) as [->|Hne].
    + rewrite Nat.eqb_refl.
      destruct (Nat.ltb_spec (Z.to_nat i) (length d)); [|lia].
      destruct (Z.ltb_spec i (Z.of_nat (length d))); [reflexivity|lia].
    + destruct (Nat.eqb_spec (Z.to_nat k) (Z.to_nat i)); [lia|reflexivity].
  - destruct (Z.eqb_spec k i) as [->|Hne]; [|reflexivity].
    destruct (Z.ltb_spec i (Z.of_nat (length d))); [lia|reflexivity].
  - destruct (Z.eqb_spec k i); [lia|reflexivity].
  - destruct (Z.eqb_spec k i); [lia|reflexivity].
Qed.

Lemma ToUint8Clamp_byte (z : Z) : 0 <= z <= 255 -> ToUint8Clamp (of_Z z) = z.
Proof.
  intros Hz. unfold ToUint8Clamp, of_Z, round_half_even. rewrite ZfloorZ.
  destruct (Rlt_dec (IZR z - IZR z) (1 / 2)); [lia|lra].
Qed.

Lemma clearLoop_nth (n : nat) (i : Z) (d : list Z) (k : Z) :
  0 <= i -> 0 <= k ->
  nth (Z.to_nat k)
      (for_loop n i (fun j d => store d (4 * j + 3) (of_Z 255)) d) 0
  = if (k mod 4 =? 3) && (4 * i <=? k) && (k <? 4 * (i + Z.of_nat n))
       && (k <? Z.of_nat (length d))
    then 255 else nth (Z.to_nat k) d 0.
Proof.
  revert i d. induction n as [|n IH]; intros i d Hi Hk; cbn [for_loop].
  - destruct (Z.leb_spec (4 * i) k), (Z.ltb_spec k (4 * (i + Z.of_nat 0)));
      rewrite ?andb_false_r; cbn [andb]; try reflexivity; lia.
  - rewrite IH by lia. rewrite length_store, nth_store by lia.
    rewrite (ToUint8Clamp_byte 255) by lia.
    destruct (Z.eqb_spec (k mod 4) 3) as [Hm|Hm]; cbn [andb].
    + destruct (Z.ltb_spec k (Z.of_nat (length d))) as [Hl|Hl];
        rewrite ?andb_false_r, ?andb_true_r; [|reflexivity].
      destruct (Z.eqb_spec k (4 * i + 3)) as [He|He].
      * destruct (Z.leb_spec (4 * (i + 1)) k), (Z.leb_spec (4 * i) k),
          (Z.ltb_spec k (4 * (i + 1 + Z.of_nat n))), (Z.ltb_spec k (4 * (i + Z.of_nat (S n))));
          cbn [andb]; try reflexivity; lia.
      * assert (Hout : ~ (4 * i <= k < 4 * (i + 1))).
        { intros Hin. apply He. clear IH. Z.div_mod_to_equations. lia. }
        destruct (Z.leb_spec (4 * (i + 1)) k), (Z.leb_spec (4 * i) k),
          (Z.ltb_spec k (4 * (i + 1 + Z.of_nat n))), (Z.ltb_spec k (4 * (i + Z.of_nat (S n))));
          cbn [andb]; try reflexivity; lia.
    + destruct (Z.eqb_spec k (4 * i + 3)) as [He|He]; [|reflexivity].
      exfalso. apply Hm. rewrite He.
      replace (4 * i + 3) with (3 + i * 4) by lia. now rewrite Z.mod_add.
Qed.

Lemma length_for_loop_store (n : nat) (i : Z) (d : list Z) :
  length (for_loop n i (fun j d => store d (4 * j + 3) (of_Z 255)) d) = length d.
Proof.
  revert i d. induction n as [|n IH]; intros i d; cbn [for_loop]; [reflexivity|].
  now rewrite IH, length_store.
Qed.

(** X10.  The clearing loop of [redrawCanvas] sets the alpha byte of every
    pixel to 255 and leaves every other byte and the length as they are. *)
Theorem clearToBlack_sets_alpha (d : list Z) (k : Z) :
  0 <= k < Z.of_nat (length d) ->
  length (clearToBlack d) = length d
  /\ nth (Z.to_nat k) (clearToBlack d) 0
     = if k mod 4 =? 3 then 255 else nth (Z.to_nat k) d 0.
Proof.
  intros Hk. unfold clearToBlack. split; [apply length_for_loop_store|].
  rewrite clearLoop_nth by lia.
  destruct (Z.eqb_spec (k mod 4) 3) as [Hm|Hm]; [|reflexivity].
  destruct (Z.leb_spec (4 * 0) k); [|lia].
  destruct (Z.ltb_spec k (Z.of_nat (length d))); [|lia].
  rewrite Z2Nat.id by (apply Z.div_pos; lia).
  destruct (Z.ltb_spec k (4 * (0 + (Z.of_nat (length d) + 3) / 4))) as [_|Hge];
    [reflexivity|].
  exfalso. pose proof (Z.div_mod (Z.of_nat (length d) + 3) 4 ltac:(lia)) as Hd.
  pose proof (Z.mod_pos_bound (Z.of_nat (length d) + 3) 4 ltac:(lia)). lia.
Qed.

Lemma clearToBlack_sets_alpha_witness :
  length (clearToBlack [7; 8; 9; 10; 11]) = length [7; 8; 9; 10; 11]
  /\ nth (Z.to_nat 3) (clearToBlack [7; 8; 9; 10; 11]) 0
     = if 3 mod 4 =? 3 then 255 else nth (Z.to_nat 3) [7; 8; 9; 10; 11] 0.
Proof. apply (clearToBlack_sets_alpha [7; 8; 9; 10; 11] 3). simpl. lia. Defined.

Lemma putPixel_frame (d : list Z) (p : Z) (color : RGBAColor) (k : Z) :
  length (putPixel d p color) = length d
  /\ (0 <= k -> ~ (p <= k < p + 4) ->
      nth (Z.to_nat k) (putPixel d p color) 0 = nth (Z.to_nat k) d 0).
Proof.
  destruct color as [[[r g] b] a]. unfold putPixel. split.
  - now rewrite !length_store.
  - intros Hk Hout. rewrite !nth_store, !length_store by lia.
    repeat match goal with
    | |- context [Z.eqb k ?c] => destruct (Z.eqb_spec k c); [lia|]
    end. reflexivity.
Qed.

(** X11.  Drawing one window changes at most the four bytes of its own pixel
    and never the size of the buffer. *)
Theorem draw_window_frame (viridisMap : Z -> RGBColor)
    (canvasWidth canvasHeight index : Z) (minPower maxPower power : number)
    (lowPower midPower highPower : number) (maxRGB : MaxPowerRGB) (d d' : list Z) (k : Z) :
  drawMonoWindow viridisMap canvasWidth canvasHeight minPower maxPower index power d
  = Ret d' ->
  let c := ZOrder.getZOrderCoordinates index canvasWidth in
  let pixelIndex := (ZOrder.y c * canvasWidth + ZOrder.x c) * 4 in
  let rgb := drawRGBWindow canvasWidth canvasHeight maxRGB index
               lowPower midPower highPower d in
  length d' = length d
  /\ length rgb = length d
  /\ (0 <= k -> ~ (pixelIndex <= k < pixelIndex + 4) ->
      nth (Z.to_nat k) d' 0 = nth (Z.to_nat k) d 0
      /\ nth (Z.to_nat k) rgb 0 = nth (Z.to_nat k) d 0).
Proof.
  unfold drawMonoWindow, drawRGBWindow. cbv zeta.
  generalize (ZOrder.getZOrderCoordinates index canvasWidth). intros c Hd.
  destruct ((ZOrder.x c <? canvasWidth) && (ZOrder.y c <? canvasHeight)).
  - destruct (powerToColor viridisMap power minPower maxPower) as [color|e];
      [|discriminate].
    injection Hd as <-.
    split; [apply putPixel_frame; exact 0|]. split; [apply putPixel_frame; exact 0|].
    intros Hk Hout. split; apply putPixel_frame; assumption.
  - injection Hd as <-. repeat split.
Qed.

Lemma draw_window_frame_witness :
  exists d',
    drawMonoWindow sampleMap 2 2 (Num 0) (Num 1) 3 (Num 1) (repeat 0 16) = Ret d'
    /\ (let c := ZOrder.getZOrderCoordinates 3 2 in
        let pixelIndex := (ZOrder.y c * 2 + ZOrder.x c) * 4 in
        let rgb := drawRGBWindow 2 2
                     {| maxLow := of_Z 1; maxMid := of_Z 1; maxHigh := of_Z 1 |} 3
                     (Num 1) (Num 1) (Num 1) (repeat 0 16) in
        length d' = length (repeat 0 16)
        /\ length rgb = length (repeat 0 16)
        /\ (0 <= 5 -> ~ (pixelIndex <= 5 < pixelIndex + 4) ->
            nth (Z.to_nat 5) d' 0 = nth (Z.to_nat 5) (repeat 0 16) 0
            /\ nth (Z.to_nat 5) rgb 0 = nth (Z.to_nat 5) (repeat 0 16) 0)).
Proof.
  destruct (drawMonoWindow_real sampleMap 2 2 3 0 1 1 (repeat 0 16)) as [d' Hd].
  exists d'. split; [exact Hd|].
  exact (draw_window_frame sampleMap 2 2 3 (Num 0) (Num 1) (Num 1) (Num 1) (Num 1) (Num 1)
           {| maxLow := of_Z 1; maxMid := of_Z 1; maxHigh := of_Z 1 |}
           (repeat 0 16) d' 5 Hd).
Defined.

(** ** Stored maximum *)

Lemma fold_Math_max (ps : list number) (a : R) :
  Forall nonneg_real ps -> (0 <= a)%R ->
  exists m,
    fold_left Math_max ps (Num a) = Num m
    /\ (a <= m)%R
    /\ Forall (fun p => exists r, p = Num r /\ (0 <= r <= m)%R) ps
    /\ (m = a \/ In (Num m) ps).
Proof.
  intros Hps. revert a. induction Hps as [|p ps (r & -> & Hr) Hps IH]; intros a Ha.
  - exists a. cbn. repeat split; [lra|constructor|now left].
  - cbn [fold_left]. unfold Math_max at 2. unfold leb.
    destruct (Rle_dec a r) as [Har|Har].
    + destruct (IH r Hr) as (m & Hm & Hle & Hall & Hin).
      exists m. split; [exact Hm|]. split; [lra|]. split.
      * constructor; [exists r; split; [reflexivity|lra]|exact Hall].
      * right. destruct Hin as [->|Hin]; [now left|now right].
    + destruct (IH a Ha) as (m & Hm & Hle & Hall & Hin).
      exists m. split; [exact Hm|]. split; [lra|]. split.
      * constructor; [exists r; split; [reflexivity|lra]|exact Hall].
      * destruct Hin as [->|Hin]; [now left|right; now right].
Qed.

(** X12.  The maximum stored after a pass over non-negative powers is
    positive and bounds every cached power; it is one of the powers, or 1
    when all of them are 0. *)
Theorem stored_maximum_normalizes (powers : list number) :
  Forall nonneg_real powers ->
  exists m,
    orOne (maxOf powers) = Num m
    /\ (0 < m)%R
    /\ Forall (fun p => exists r, p = Num r /\ (0 <= r <= m)%R) powers
    /\ (In (Num m) powers \/ (m = 1%R /\ Forall (fun p => p = Num 0) powers)).
Proof.
  intros Hps. unfold maxOf, of_Z.
  destruct (fold_Math_max powers (IZR 0) Hps ltac:(simpl; lra)) as (m & Hm & Hle & Hall & Hin).
  rewrite Hm. unfold orOne, strict_eq, of_Z.
  destruct (Req_dec_T m (IZR 0)) as [E|E].
  - exists 1%R. split; [reflexivity|]. split; [lra|]. split.
    + eapply Forall_impl; [|exact Hall]. intros p (r & -> & Hr). exists r.
      split; [reflexivity|]. simpl in E. lra.
    + right. split; [reflexivity|].
      eapply Forall_impl; [|exact Hall]. intros p (r & -> & Hr). f_equal. simpl in E. lra.
  - exists m. split; [reflexivity|]. simpl in E, Hle. split; [lra|]. split; [exact Hall|].
    left. destruct Hin as [->|Hin]; [simpl in E; lra|exact Hin].
Qed.

Lemma stored_maximum_normalizes_witness :
  exists m,
    orOne (maxOf [Num 2; Num 5; Num 3]) = Num m
    /\ (0 < m)%R
    /\ Forall (fun p => exists r, p = Num r /\ (0 <= r <= m)%R) [Num 2; Num 5; Num 3]
    /\ (In (Num m) [Num 2; Num 5; Num 3]
        \/ (m = 1%R /\ Forall (fun p => p = Num 0) [Num 2; Num 5; Num 3])).
Proof.
  apply (stored_maximum_normalizes [Num 2; Num 5; Num 3]).
  repeat constructor; eexists; (split; [reflexivity|lra]).
Defined.

(** ** Start samples *)

(** X13.  The start sample of a window is a non-negative integer within
    half a sample of [i * interval], up to the rounding of the index and
    of the product: the error does not grow with the number of windows
    passed, only with the relative precision 2^-51 of the product. *)
Theorem start_samples_track_interval (i s : Z) (interval : Binary64.double) (qi : Q) :
  0 <= i ->
  Binary64.to_Q interval = Some qi -> (0 < qi)%Q ->
  Schedule64.startSample i interval = Binary64.Int s ->
  let exact := (inject_Z i * qi)%Q in
  0 <= s
  /\ (- (1 # 2) - product_slack exact qi <= inject_Z s - exact)%Q
  /\ (inject_Z s - exact <= (1 # 2) + product_slack exact qi)%Q.
Proof.
  intros Hi0 Hi Hqi Hs exact.
  destruct (to_Q_positive interval qi Hi Hqi) as (mi & ei & -> & Eqi).
  split.
  { destruct (startSample_of_pass i (S754_finite false mi ei) Hi0 eq_refl)
      as [(s' & E & Hs')|E]; rewrite E in Hs; [injection Hs as <-; exact Hs'|discriminate]. }
  unfold Schedule64.startSample in Hs.
  destruct (Math_round_bounds _ _ Hs) as (p & Hp & R1 & R2).
  pose proof unit_roundoff_pos as Hu. pose proof half_least_pos as Heta.
  destruct (Z.eq_dec i 0) as [->|Hne].
  - cbn in Hp. injection Hp as <-. unfold exact. change (inject_Z 0) with 0%Q.
    apply (start_arith 0 0 qi 0 (inject_Z s)); lra.
  - destruct (Binary64.of_Z i) as [sk|sk| |sk mk ek] eqn:HK.
    + exfalso. destruct (of_Z_error i 0 ltac:(lia)) as (_ & Z1 & _);
        [rewrite HK; reflexivity|].
      assert (H1 : (inject_Z 1 <= inject_Z i)%Q) by (apply inject_Z_le; lia).
      change (inject_Z 1) with 1%Q in H1. pose proof half_least_small. lra.
    + destruct sk; cbn in Hp; discriminate.
    + cbn in Hp. discriminate.
    + destruct (of_Z_error i _ ltac:(lia) ltac:(rewrite HK; reflexivity))
        as (HqK0 & Z1 & Z2).
      destruct sk.
      { exfalso. cbn [Binary64.to_Q Binary64.signed cond_Zopp] in HqK0.
        pose proof (Qpower_2_pos ek) as Hp'.
        pose proof (inject_Z_lt (Z.neg mk) 0 ltac:(lia)) as Hn.
        change (inject_Z 0) with 0%Q in Hn.
        revert HqK0 Hp' Hn. change (- Z.pos mk) with (Z.neg mk).
        generalize (Qpower 2 ek) (inject_Z (Z.neg mk)). intros pw n H0 Hp' Hn. nra. }
      destruct (mul_error mk mi ek ei p Hp) as (Hp0 & M1 & M2).
      rewrite <- Eqi in M1, M2.
      assert (Hiq : (0 <= inject_Z i)%Q) by exact (inject_Z_le 0 i Hi0).
      exact (start_arith (inject_Z i) (value mk ek) qi p (inject_Z s)
               Hqi Hiq HqK0 Z1 Z2 Hp0 M1 M2 R1 R2).
Qed.

Lemma start_samples_track_interval_witness :
  exists qi,
    Binary64.to_Q (Schedule64.windowIntervalSamples (Binary64.of_Z 136) 4 (Binary64.of_Z 44100))
    = Some qi
    /\ 0 <= 248062
    /\ (- (1 # 2) - product_slack (inject_Z 51 * qi) qi <= inject_Z 248062 - inject_Z 51 * qi)%Q
    /\ (inject_Z 248062 - inject_Z 51 * qi <= (1 # 2) + product_slack (inject_Z 51 * qi) qi)%Q.
Proof.
  eexists. split; [vm_compute; reflexivity|].
  apply (start_samples_track_interval 51 248062
           (Schedule64.windowIntervalSamples (Binary64.of_Z 136) 4 (Binary64.of_Z 44100))).
  - lia.
  - vm_compute. reflexivity.
  - vm_compute. reflexivity.
  - vm_compute. reflexivity.
Defined.

(** ** Redraws and the offset update *)

Lemma putImageData_overwrite (a b : ImageData) (c : Canvas) :
  width a = width b -> height a = height b ->
  putImageData b (putImageData a c) = putImageData b c.
Proof.
  intros Hw Hh. unfold putImageData. cbn [canvasWidth canvasHeight bitmap].
  rewrite length_map, length_seq. f_equal.
  apply map_ext_in. intros k Hk. apply in_seq in Hk. cbn zeta.
  destruct ((Z.of_nat k / 4 mod canvasWidth c <? width b)
            && (Z.of_nat k / 4 / canvasWidth c <? height b)) eqn:Hin; [reflexivity|].
  set (f := fun k0 : nat => _).
  rewrite (nth_indep _ 0 (f 0%nat)) by (rewrite length_map, length_seq; lia).
  rewrite map_nth, seq_nth by lia. cbn [Nat.add]. unfold f.
  rewrite Hw, Hh, Hin. reflexivity.
Qed.

Lemma for_loopM_pure {S : Type} (body : Z -> S -> M S) :
  (forall i s, exists o, forall w, body i s w = (o, w)) ->
  forall n i s, exists o, forall w, for_loopM n i body s w = (o, w).
Proof.
  intros Hb n. induction n as [|n IH]; intros i s.
  - exists (Ret s). reflexivity.
  - destruct (Hb i s) as [[s'|e] Ho].
    + destruct (IH (i + 1) s') as [o Hn]. exists o. intros w.
      cbn [for_loopM]. unfold bind. rewrite Ho. apply Hn.
    + exists (Exn e). intros w. cbn [for_loopM]. unfold bind. now rewrite Ho.
Qed.

Lemma createImageData_size (sw sh : Z) (img : ImageData) :
  createImageData sw sh = Ret img -> width img = Z.abs sw /\ height img = Z.abs sh.
Proof.
  unfold createImageData. destruct ((sw =? 0) || (sh =? 0)); [discriminate|].
  intros H. injection H as <-. split; reflexivity.
Qed.

Lemma redraw_loop_shown (body : Z -> list Z -> M (list Z))
    (n : Z) (d : list Z) (img : ImageData) :
  (forall i s, exists o, forall w, body i s w = (o, w)) ->
  exists r,
    r <> Ret None
    /\ (forall img', r = Ret (Some img') ->
          width img' = width img /\ height img' = height img)
    /\ forall st cv,
         bind (for_rangeM 0 n body d)
           (fun d' => setCanvas (putImageData
              {| width := width img; height := height img; data := d' |}))
           {| state := st; canvas := cv |} = shown r st cv.
Proof.
  intros Hb. unfold for_rangeM.
  destruct (for_loopM_pure body Hb (Z.to_nat (n - 0)) 0 d) as [[d'|e] Ho].
  - exists (Ret (Some {| width := width img; height := height img; data := d' |})).
    split; [discriminate|]. split.
    + intros img' E. injection E as <-. split; reflexivity.
    + intros st cv. unfold bind. rewrite Ho. reflexivity.
  - exists (Exn e). split; [discriminate|]. split; [discriminate|].
    intros st cv. unfold bind. rewrite Ho. reflexivity.
Qed.

Lemma same_cache_refl (st : AppState) : same_cache st st.
Proof. repeat split. Qed.

Ltac use_cache :=
  let E1 := fresh in let E2 := fresh in let E3 := fresh in let E4 := fresh in
  let E5 := fresh in let E6 := fresh in let E7 := fresh in
  intros [? ? ? ? ? ? ? ? ? ?] ? (E1 & E2 & E3 & E4 & E5 & E6 & E7);
  cbn in E1, E2, E3, E4, E5, E6, E7; subst;
  unfold redrawCanvas, bind at 1, getState;
  cbn [state App.cachedPowers App.cachedRGBPowers App.cachedCanvasWidth
       App.cachedCanvasHeight App.cachedVizMode App.maxPowerMono App.maxPowerRGB].

Ltac not_none :=
  split; [intros ?; discriminate || contradiction
         |intros [? ?]; discriminate].

(** A redraw computes an image from the cached fields of the state alone
    and copies it to the canvas; it computes none exactly when nothing is
    cached. *)
Lemma redrawCanvas_shown (viridisMap : Z -> RGBColor) (off : Z) (st : AppState) :
  exists r,
    (r = Ret None <-> cachedPowers st = None /\ cachedRGBPowers st = None)
    /\ (forall img, r = Ret (Some img) ->
          width img = Z.abs (cachedCanvasWidth st)
          /\ height img = Z.abs (cachedCanvasHeight st))
    /\ forall st' cv, same_cache st st' ->
         redrawCanvas viridisMap off {| state := st'; canvas := cv |} = shown r st' cv.
Proof.
  destruct st as [ab ip cp crgb W H spb mode mpm mprgb].
  cbn [App.cachedCanvasWidth App.cachedCanvasHeight App.cachedPowers App.cachedRGBPowers].
  destruct cp as [ps|], crgb as [bands|].
  4:{ exists (Ret None). split; [split; auto|]. split; [discriminate|].
      use_cache. reflexivity. }
  all: destruct (createImageData W H) as [img|e] eqn:Hc.
  all: try (exists (Exn e); split; [not_none|]; split; [discriminate|]; use_cache;
            unfold bind at 1, lift; rewrite Hc; reflexivity).
  all: destruct (createImageData_size _ _ _ Hc) as [Hw Hh].
  all: destruct mode.
  all: try (
    match goal with
    | |- context [Some ?ps] =>
        destruct (redraw_loop_shown
                (fun i d => lift (drawMonoWindow viridisMap W H (of_Z 0) mpm (i + off)
                                    (element ps i) d))
                (Z.of_nat (length ps)) (clearToBlack (data img)) img)
          as (r & Hn & Hd & Hr); [intros; eexists; intros w; reflexivity|]
    end;
    exists r; split; [not_none|];
    split; [intros img' E; rewrite <- Hw, <- Hh; exact (Hd img' E)|];
    use_cache; unfold bind at 1, lift; rewrite Hc; apply Hr).
  all: try (
    match goal with
    | |- context [Some ?bands] =>
        destruct (redraw_loop_shown
                (fun i d => ret (drawRGBWindow W H mprgb (i + off)
                                   (element (low bands) i) (element (mid bands) i)
                                   (element (high bands) i) d))
                (Z.of_nat (length (low bands))) (clearToBlack (data img)) img)
          as (r & Hn & Hd & Hr); [intros; eexists; intros w; reflexivity|]
    end;
    exists r; split; [not_none|];
    split; [intros img' E; rewrite <- Hw, <- Hh; exact (Hd img' E)|];
    use_cache; unfold bind at 1, lift; rewrite Hc; apply Hr).
  exists (Ret (Some {| width := width img; height := height img;
                       data := clearToBlack (data img) |})).
  split; [not_none|].
  split; [intros img' E; injection E as <-; split; assumption|].
  use_cache. unfold bind at 1, lift. rewrite Hc. reflexivity.
Qed.

(** X15.  The picture after a redraw does not depend on earlier redraws:
    redrawing at a second offset gives the same world whether or not a
    redraw at another offset came first; in particular a repeated redraw
    changes nothing. *)
Theorem redraw_forgets_earlier_redraws (viridisMap : Z -> RGBColor)
    (offset1 offset2 : Z) (w w1 w2 : World) :
  redrawCanvas viridisMap offset1 w = (Ret tt, w1) ->
  redrawCanvas viridisMap offset2 w = (Ret tt, w2) ->
  redrawCanvas viridisMap offset2 w1 = (Ret tt, w2)
  /\ redrawCanvas viridisMap offset1 w1 = (Ret tt, w1).
Proof.
  destruct w as [st cv].
  destruct (redrawCanvas_shown viridisMap offset1 st) as (r1 & Hn1 & Hd1 & Hr1).
  destruct (redrawCanvas_shown viridisMap offset2 st) as (r2 & Hn2 & Hd2 & Hr2).
  rewrite (Hr1 st cv (same_cache_refl st)), (Hr2 st cv (same_cache_refl st)).
  destruct r1 as [[img1|]|e1]; cbn [shown]; [| |discriminate].
  - destruct r2 as [[img2|]|e2]; cbn [shown]; [| |discriminate].
    + intros E1 E2. injection E1 as <-. injection E2 as <-.
      rewrite (Hr1 st _ (same_cache_refl st)), (Hr2 st _ (same_cache_refl st)).
      cbn [shown].
      destruct (Hd1 img1 eq_refl) as [Hw1 Hh1]. destruct (Hd2 img2 eq_refl) as [Hw2 Hh2].
      rewrite !putImageData_overwrite by congruence. split; reflexivity.
    + destruct (proj1 Hn2 eq_refl) as [Hp Hq].
      intros _ _. pose proof (proj2 Hn1 (conj Hp Hq)) as E. discriminate E.
  - intros E1. injection E1 as <-.
    rewrite (Hr1 st cv (same_cache_refl st)), (Hr2 st cv (same_cache_refl st)).
    intros E2. split; [exact E2|reflexivity].
Qed.

Lemma setProcessing_same_cache (b : bool) (w : World) :
  same_cache (state w) (state (snd (setProcessing b w))).
Proof. repeat split. Qed.

(** The last steps of a completed pass: the redraw at the offset of the
    form, then the reset of the busy flag. *)
Lemma processAudio_ends_with_redraw (viridisMap : Z -> RGBColor)
    (applyFrequencyFiltering : AudioBuffer -> Q -> Q -> FilteredBands)
    (inputs : Inputs) (w w' : World) :
  isProcessing (state w) = false ->
  audioBuffer (state w) <> None ->
  processAudio viridisMap applyFrequencyFiltering inputs w = (Ret tt, w') ->
  exists w2 w3,
    redrawCanvas viridisMap
      (Schedule.zOrderOffset (zOrderOffsetSeconds inputs) (bpm inputs)
         (samplesPerBeat inputs)) w2 = (Ret tt, w3)
    /\ w' = snd (setProcessing false w3)
    /\ cachedSamplesPerBeat (state w2) = samplesPerBeat inputs
    /\ (cachedPowers (state w2) <> None \/ cachedRGBPowers (state w2) <> None).
Proof.
  intros Hproc Hbuf.
  unfold processAudio, bind at 1, getState. rewrite Hproc.
  destruct (audioBuffer (state w)) as [buffer|]; [clear Hbuf|contradiction].
  unfold bind at 1, setProcessing at 1, setState at 1. cbn [state canvas].
  match goal with |- context [if ?c then bind _ (fun _ => throw _) else _] =>
    destruct c end.
  { unfold bind, setCanvas, throw. discriminate. }
  unfold bind at 1, setCanvas at 1. cbn [state canvas].
  unfold bind at 1, lift.
  destruct (createImageData _ _) as [img|e]; [|discriminate].
  unfold bind at 1.
  destruct (vizMode inputs).
  - unfold processMonoMode, bind at 1, getState, bind at 1.
    match goal with |- context [for_rangeM ?a ?b ?c ?d ?e] =>
      destruct (for_rangeM a b c d e) as [[acc|e1] wl] end; [|discriminate].
    unfold bind at 1, setState at 1.
    match goal with |- context [redrawCanvas ?vm ?off ?w2] =>
      destruct (redrawCanvas vm off w2) as [[[]|e2] w3] eqn:Hred; [|discriminate];
      intros E; exists w2, w3 end.
    split; [exact Hred|]. split; [now injection E|].
    split; [reflexivity|]. left. discriminate.
  - unfold processRGBMode, bind at 1, getState, bind at 1.
    match goal with |- context [for_rangeM ?a ?b ?c ?d ?e] =>
      destruct (for_rangeM a b c d e) as [[[[[ls ms] hs] d1]|e1] wl] end; [|discriminate].
    unfold bind at 1, setState at 1.
    match goal with |- context [redrawCanvas ?vm ?off ?w2] =>
      destruct (redrawCanvas vm off w2) as [[[]|e2] w3] eqn:Hred; [|discriminate];
      intros E; exists w2, w3 end.
    split; [exact Hred|]. split; [now injection E|].
    split; [reflexivity|]. right. discriminate.
Qed.

(** X16.  After a completed pass, the offset update run with the same form
    redraws the picture the pass left: the world is unchanged. *)
Theorem offset_update_after_pass (viridisMap : Z -> RGBColor)
    (applyFrequencyFiltering : AudioBuffer -> Q -> Q -> FilteredBands)
    (inputs : Inputs) (w w' : World) :
  isProcessing (state w) = false ->
  audioBuffer (state w) <> None ->
  processAudio viridisMap applyFrequencyFiltering inputs w = (Ret tt, w') ->
  updateVisualizationWithOffset viridisMap inputs w' = (Ret tt, w').
Proof.
  intros Hproc Hbuf Hrun.
  destruct (processAudio_ends_with_redraw _ _ _ _ _ Hproc Hbuf Hrun)
    as ([st2 cv2] & w3 & Hred & -> & Hspb & Hcache).
  cbn [state] in Hspb, Hcache.
  destruct (redrawCanvas_shown viridisMap
              (Schedule.zOrderOffset (zOrderOffsetSeconds inputs) (bpm inputs)
                 (samplesPerBeat inputs)) st2) as (r & Hn & Hd & Hr).
  rewrite (Hr st2 cv2 (same_cache_refl st2)) in Hred.
  assert (Hw3 : exists cv3, w3 = {| state := st2; canvas := cv3 |}
                  /\ forall st', shown r st' cv3 = (Ret tt, {| state := st'; canvas := cv3 |})).
  { destruct r as [[img|]|e]; cbn [shown] in Hred; [| |discriminate].
    - injection Hred as <-. eexists. split; [reflexivity|].
      intros st'. cbn [shown].
      now rewrite putImageData_overwrite.
    - injection Hred as <-. eexists. split; [reflexivity|]. reflexivity. }
  destruct Hw3 as (cv3 & -> & Hshown).
  unfold updateVisualizationWithOffset, bind at 1, getState.
  cbn [setProcessing setState snd state canvas isProcessing App.cachedPowers
       App.cachedRGBPowers App.cachedSamplesPerBeat negb].
  rewrite Hspb.
  assert (Hc : match cachedPowers st2, cachedRGBPowers st2 with
               | None, None => false | _, _ => true end = true).
  { destruct (cachedPowers st2), (cachedRGBPowers st2); try reflexivity.
    destruct Hcache as [H|H]; contradiction. }
  rewrite Hc. cbn [andb].
  rewrite Hr by (repeat split). apply Hshown.
Qed.

(** ** Completed and failed passes *)

(** X17.  In RGB mode a pass with at least one window always completes,
    whatever the window size: it caches the three band powers of every
    window at its start sample and no mono powers, records the canvas size
    and resets the busy flag.  The window count, the interval and the start
    samples are the binary64 values the program computes. *)
Theorem rgb_pass_completes (viridisMap : Z -> RGBColor)
    (applyFrequencyFiltering : AudioBuffer -> Q -> Q -> FilteredBands)
    (inputs : Controller64.Inputs) (w : World) (buffer : AudioBuffer) (n : Z) :
  isProcessing (state w) = false ->
  audioBuffer (state w) = Some buffer ->
  Controller64.vizMode inputs = rgb ->
  let bands := applyFrequencyFiltering buffer (Controller64.lowMidCutoff inputs)
                 (Controller64.midHighCutoff inputs) in
  let interval :=
    Schedule64.windowIntervalSamples (Controller64.bpm inputs)
      (Controller64.samplesPerBeat inputs) (Binary64.of_Q (sampleRate buffer)) in
  let power := fun band i =>
    Controller64.calculateRMSPowerAt band (Schedule64.startSample i interval)
      (Controller64.windowSize inputs) in
  Schedule64.totalWindows (Z.of_nat (length (bandLow bands))) interval = Binary64.Int n ->
  1 <= n ->
  exists w',
    Controller64.processAudio viridisMap applyFrequencyFiltering inputs w = (Ret tt, w')
    /\ isProcessing (state w') = false
    /\ cachedPowers (state w') = None
    /\ cachedRGBPowers (state w')
       = Some {| low := map (power (bandLow bands)) (upto 0 (Z.to_nat n));
                 mid := map (power (bandMid bands)) (upto 0 (Z.to_nat n));
                 high := map (power (bandHigh bands)) (upto 0 (Z.to_nat n)) |}
    /\ cachedCanvasWidth (state w') = Schedule.canvasWidth n
    /\ cachedCanvasHeight (state w') = Schedule.canvasHeight n.
Proof.
  intros Hproc Hbuf Hmode bands interval power Htotal Hn.
  enter_pass Hproc Hbuf.
  unfold Controller64.measuredLength. rewrite Hmode. fold bands. fold interval.
  rewrite Htotal. size_canvas n Hn.
  match goal with
  | |- context [bind (Controller64.processRGBMode ?vm ?inp ?fb ?t ?iv ?ws ?off ?cw ?ch ?img) _ ?w1] =>
      destruct (processRGBMode64_returns vm inp fb t iv ws off cw ch img w1)
        as (cv & Hrun); [lia|lia|]
  end.
  unfold bind. rewrite Hrun. unfold setProcessing, setState.
  eexists. split; [reflexivity|]. cbn. repeat split.
Qed.

Lemma rgb_pass_completes_witness :
  exists w',
    Controller64.processAudio sampleMap passThrough rgbForm64
      {| state := loadedState oneSample; canvas := emptyCanvas |} = (Ret tt, w')
    /\ isProcessing (state w') = false
    /\ cachedPowers (state w') = None
    /\ cachedRGBPowers (state w')
       = Some {| low := [Controller64.calculateRMSPowerAt [1%R] (Binary64.Int 0) 0];
                 mid := [Controller64.calculateRMSPowerAt [1%R] (Binary64.Int 0) 0];
                 high := [Controller64.calculateRMSPowerAt [1%R] (Binary64.Int 0) 0] |}
    /\ cachedCanvasWidth (state w') = Schedule.canvasWidth 1
    /\ cachedCanvasHeight (state w') = Schedule.canvasHeight 1.
Proof.
  apply (rgb_pass_completes sampleMap passThrough rgbForm64
           {| state := loadedState oneSample; canvas := emptyCanvas |} oneSample 1).
  - reflexivity.
  - reflexivity.
  - reflexivity.
  - reflexivity.
  - lia.
Defined.

(** X21.  The pass as the program computes it, in binary64, never records
    [NaN] in mono mode: with an interval of at least one sample, a
    positive window size and fewer than 2^32 samples, every window below
    the count [Math.floor(length / interval)] starts inside the array, the
    pass returns, and it caches one non-negative real power per window. *)
Theorem binary64_pass_never_records_NaN (viridisMap : Z -> RGBColor)
    (applyFrequencyFiltering : AudioBuffer -> Q -> Q -> FilteredBands)
    (inputs : Controller64.Inputs) (w : World) (buffer : AudioBuffer)
    (m : R) (n : Z) (qi : Q) :
  let interval :=
    Schedule64.windowIntervalSamples (Controller64.bpm inputs)
      (Controller64.samplesPerBeat inputs) (Binary64.of_Q (sampleRate buffer)) in
  let audioLength := Z.of_nat (length (channelData0 buffer)) in
  isProcessing (state w) = false ->
  audioBuffer (state w) = Some buffer ->
  Controller64.vizMode inputs = mono ->
  maxPowerMono (state w) = Num m ->
  Binary64.to_Q interval = Some qi -> (1 <= qi)%Q ->
  audioLength < 2 ^ 32 ->
  0 < Controller64.windowSize inputs ->
  Schedule64.totalWindows audioLength interval = Binary64.Int n ->
  1 <= n ->
  (forall i, 0 <= i < n ->
     exists s, Schedule64.startSample i interval = Binary64.Int s /\ 0 <= s < audioLength)
  /\ exists w' powers,
       Controller64.processAudio viridisMap applyFrequencyFiltering inputs w = (Ret tt, w')
       /\ isProcessing (state w') = false
       /\ cachedPowers (state w') = Some powers
       /\ length powers = Z.to_nat n
       /\ Forall nonneg_real powers.
Proof.
  intros interval audioLength Hproc Hbuf Hmode Hmax Hi Hqi HL Hws Hn Hn1.
  assert (Hstart : forall i, 0 <= i < n ->
            exists s, Schedule64.startSample i interval = Binary64.Int s
                      /\ 0 <= s < audioLength).
  { intros i Hin. apply (startSample_below_length audioLength n i interval qi); try assumption.
    unfold audioLength. lia. }
  split; [exact Hstart|].
  assert (Hpower : forall i, 0 <= i < n ->
            nonneg_real (Controller64.calculateRMSPowerAt (channelData0 buffer)
                           (Schedule64.startSample i interval)
                           (Controller64.windowSize inputs))).
  { intros i Hin. destruct (Hstart i Hin) as (s & -> & Hs).
    cbn [Controller64.calculateRMSPowerAt].
    rewrite <- (Z2Nat.id s) by lia.
    apply calculateRMSPower_nonneg; [unfold audioLength in Hs; lia|exact Hws]. }
  assert (Hlen : Controller64.measuredLength applyFrequencyFiltering inputs buffer
                 = audioLength).
  { unfold Controller64.measuredLength. now rewrite Hmode. }
  destruct (processAudio64_mono_returns viridisMap applyFrequencyFiltering inputs w buffer
              Hproc Hbuf m n Hmode Hmax) as (w' & Hrun & Hbusy & Hcache).
  - rewrite Hlen. exact Hn.
  - exact Hn1.
  - intros i Hin. apply nonneg_real_is_real, Hpower, Hin.
  - exists w'. eexists. split; [exact Hrun|]. split; [exact Hbusy|].
    split; [exact Hcache|]. split.
    + rewrite length_map, length_upto. reflexivity.
    + apply Forall_forall. intros p Hp. apply in_map_iff in Hp.
      destruct Hp as (i & <- & Hin). apply In_upto in Hin. apply Hpower.
      rewrite Z2Nat.id in Hin by lia. lia.
Qed.

Lemma binary64_pass_never_records_NaN_witness :
  (exists s,
     Schedule64.startSample 0
       (Schedule64.windowIntervalSamples (Controller64.bpm (form64 1))
          (Controller64.samplesPerBeat (form64 1)) (Binary64.of_Q (sampleRate oneSample)))
     = Binary64.Int s /\ 0 <= s < 1)
  /\ exists w' powers,
       Controller64.processAudio sampleMap passThrough (form64 1)
         {| state := loadedState oneSample; canvas := emptyCanvas |} = (Ret tt, w')
       /\ isProcessing (state w') = false
       /\ cachedPowers (state w') = Some powers
       /\ length powers = Z.to_nat 1
       /\ Forall nonneg_real powers.
Proof.
  destruct (binary64_pass_never_records_NaN sampleMap passThrough (form64 1)
              {| state := loadedState oneSample; canvas := emptyCanvas |} oneSample
              1%R 1 (value 4503599627370496 (- 52)))
    as [Hstart Hrun].
  - reflexivity.
  - reflexivity.
  - reflexivity.
  - reflexivity.
  - vm_compute. reflexivity.
  - vm_compute. discriminate.
  - vm_compute. reflexivity.
  - vm_compute. reflexivity.
  - vm_compute. reflexivity.
  - lia.
  - split; [apply (Hstart 0); lia|exact Hrun].
Defined.



Lemma for_loopM_raises {S : Type} (body : Z -> S -> M S) (n : nat) (i : Z) (s : S)
    (w : World) (e : error) :
  body i s w = (Exn e, w) ->
  for_loopM (Datatypes.S n) i body s w = (Exn e, w).
Proof. intros H. cbn [for_loopM]. unfold bind. now rewrite H. Qed.

(** X19.  In mono mode a window size of 0 makes the power of window 0
    [NaN]; drawn on the canvas (offset 0) with a non-zero provisional
    maximum, its colour lookup raises a [TypeError]: the pass stops at
    window 0, caches nothing and leaves the busy flag set.  The window
    count is the binary64 value the program computes. *)
Theorem mono_pass_with_empty_windows_raises (viridisMap : Z -> RGBColor)
    (applyFrequencyFiltering : AudioBuffer -> Q -> Q -> FilteredBands)
    (inputs : Controller64.Inputs) (w : World) (buffer : AudioBuffer) (m : R) (n : Z) :
  isProcessing (state w) = false ->
  audioBuffer (state w) = Some buffer ->
  Controller64.vizMode inputs = mono ->
  Controller64.windowSize inputs = 0 ->
  maxPowerMono (state w) = Num m -> m <> 0%R ->
  Schedule64.zOrderOffset (Controller64.zOrderOffsetSeconds inputs)
    (Controller64.bpm inputs) (Controller64.samplesPerBeat inputs) = Binary64.Int 0 ->
  Schedule64.totalWindows (Z.of_nat (length (channelData0 buffer)))
    (Schedule64.windowIntervalSamples (Controller64.bpm inputs)
       (Controller64.samplesPerBeat inputs) (Binary64.of_Q (sampleRate buffer)))
  = Binary64.Int n ->
  1 <= n ->
  exists w',
    Controller64.processAudio viridisMap applyFrequencyFiltering inputs w
    = (Exn TypeError, w')
    /\ isProcessing (state w') = true
    /\ same_cache (state w) (state w')
    /\ canvas w' = resetCanvas (Schedule.canvasWidth n) (Schedule.canvasHeight n).
Proof.
  intros Hproc Hbuf Hmode Hws Hmax Hm Hoff Htotal Hn.
  pose proof (windows_need_interval _ _ _ (Nat2Z.is_nonneg _) Htotal Hn) as Hiv.
  enter_pass Hproc Hbuf.
  unfold Controller64.measuredLength. rewrite Hmode, Htotal, Hws, Hoff.
  size_canvas n Hn.
  unfold bind at 1, Controller64.processMonoMode, bind at 1, getState, bind at 1, for_rangeM.
  cbn [state App.maxPowerMono]. rewrite Hmax.
  destruct (Z.to_nat (n - 0)) as [|k] eqn:Hk; [lia|].
  match goal with |- context [for_loopM (Datatypes.S k) 0 ?body ?s ?w1] =>
    rewrite (for_loopM_raises body k 0 s w1 TypeError) end.
  - eexists. split; [reflexivity|]. cbn [state canvas isProcessing].
    split; [reflexivity|].
    split; [repeat split; cbn [App.maxPowerMono]; now rewrite Hmax|reflexivity].
  - unfold Controller64.monoStep. rewrite (startSample_0 _ Hiv).
    cbn [Controller64.calculateRMSPowerAt].
    rewrite calculateRMSPower_zero_size by lia.
    unfold bind at 1, lift, drawMonoWindow.
    change (ZOrder.getZOrderCoordinates
              (Controller64.adjustedIndex 0 (Binary64.Int 0)) (Schedule.canvasWidth n))
      with {| ZOrder.x := 0; ZOrder.y := 0 |}.
    cbn [ZOrder.x ZOrder.y].
    destruct (Z.ltb_spec 0 (Schedule.canvasWidth n)); [|lia].
    destruct (Z.ltb_spec 0 (Schedule.canvasHeight n)); [|lia].
    cbn [andb]. rewrite powerToColor_NaN; [reflexivity| |reflexivity].
    unfold strict_eq, of_Z. destruct (Req_dec_T (IZR 0) m) as [E|E]; [|reflexivity].
    simpl in E. congruence.
Qed.

Lemma mono_pass_with_empty_windows_raises_witness :
  exists w',
    Controller64.processAudio sampleMap passThrough (form64 0)
      {| state := loadedState oneSample; canvas := emptyCanvas |} = (Exn TypeError, w')
    /\ isProcessing (state w') = true
    /\ same_cache (loadedState oneSample) (state w')
    /\ canvas w' = resetCanvas (Schedule.canvasWidth 1) (Schedule.canvasHeight 1).
Proof.
  apply (mono_pass_with_empty_windows_raises sampleMap passThrough (form64 0)
           {| state := loadedState oneSample; canvas := emptyCanvas |} oneSample 1%R 1).
  - reflexivity.
  - reflexivity.
  - reflexivity.
  - reflexivity.
  - reflexivity.
  - lra.
  - reflexivity.
  - reflexivity.
  - lia.
Defined.

Lemma oneWindowWorld_redraw (off : Z) :
  redrawCanvas sampleMap off oneWindowWorld
  = (Ret tt, snd (redrawCanvas sampleMap off oneWindowWorld)).
Proof.
  destruct (redrawCanvas_mono_returns sampleMap off oneWindowWorld [Num 1] 1%R)
    as [cv H]; try reflexivity.
  - repeat constructor. now exists 1%R.
  - discriminate.
  - discriminate.
  - rewrite H. reflexivity.
Qed.

Lemma redraw_forgets_earlier_redraws_witness :
  redrawCanvas sampleMap 3 (snd (redrawCanvas sampleMap 0 oneWindowWorld))
  = (Ret tt, snd (redrawCanvas sampleMap 3 oneWindowWorld))
  /\ redrawCanvas sampleMap 0 (snd (redrawCanvas sampleMap 0 oneWindowWorld))
     = (Ret tt, snd (redrawCanvas sampleMap 0 oneWindowWorld)).
Proof.
  exact (redraw_forgets_earlier_redraws sampleMap 0 3 oneWindowWorld _ _
           (oneWindowWorld_redraw 0) (oneWindowWorld_redraw 3)).
Defined.

Lemma oneSample_pass :
  processAudio sampleMap passThrough (formWith 1)
    {| state := loadedState oneSample; canvas := emptyCanvas |}
  = (Ret tt, snd (processAudio sampleMap passThrough (formWith 1)
                    {| state := loadedState oneSample; canvas := emptyCanvas |})).
Proof.
  destruct (processAudio_mono_returns sampleMap passThrough (formWith 1)
              {| state := loadedState oneSample; canvas := emptyCanvas |} oneSample 1%R
              eq_refl eq_refl eq_refl eq_refl
              (proj1 oneSample_schedule) (proj2 oneSample_schedule)) as [cv H].
  - intros i Hi. apply nonneg_real_is_real.
    apply powerAt_nonneg; [vm_compute; discriminate|reflexivity|exact Hi].
  - rewrite H. reflexivity.
Qed.

Lemma offset_update_after_pass_witness :
  updateVisualizationWithOffset sampleMap (formWith 1)
    (snd (processAudio sampleMap passThrough (formWith 1)
            {| state := loadedState oneSample; canvas := emptyCanvas |}))
  = (Ret tt, snd (processAudio sampleMap passThrough (formWith 1)
                    {| state := loadedState oneSample; canvas := emptyCanvas |})).
Proof.
  apply (offset_update_after_pass sampleMap passThrough (formWith 1)
           {| state := loadedState oneSample; canvas := emptyCanvas |}).
  - reflexivity.
  - discriminate.
  - exact oneSample_pass.
Defined.

(** ** The time label *)

Section TimeFormat.
Import JSMath Playback String.
Local Open Scope string_scope.

Lemma Qfloor_div_60 (q : Q) : Qfloor (q / 60) = Qfloor q / 60.
Proof.
  destruct (Qfloor_bounds q) as [Hlo Hhi].
  pose proof (Z.div_mod (Qfloor q) 60 ltac:(lia)) as Hd.
  pose proof (Z.mod_pos_bound (Qfloor q) 60 ltac:(lia)) as Hm.
  assert (H1 : 60 * (Qfloor q / 60) <= Qfloor q) by lia.
  assert (H2 : Qfloor q + 1 <= 60 * (Qfloor q / 60) + 60) by lia.
  rewrite Zle_Qle in H1, H2.
  rewrite !inject_Z_plus, !inject_Z_mult in H2. rewrite inject_Z_mult in H1.
  change (inject_Z 60) with 60%Q in H1, H2. change (inject_Z 1) with 1%Q in H2.
  assert (E : (q == 60 * (q / 60))%Q) by (field).
  revert Hlo Hhi H1 H2 E.
  generalize (inject_Z (Qfloor q)) (q / 60)%Q. intros f d Hlo Hhi H1 H2 E.
  apply Qfloor_unique; lra.
Qed.

Lemma Qfloor_sub_Z (q : Q) (k : Z) : Qfloor (q - 60 * inject_Z k) = Qfloor q - 60 * k.
Proof.
  destruct (Qfloor_bounds q) as [Hlo Hhi].
  apply Qfloor_unique; unfold Z.sub;
    rewrite inject_Z_plus, inject_Z_opp, inject_Z_mult;
    change (inject_Z 60) with 60%Q; lra.
Qed.

Lemma two_digits (n : nat) :
  (n < 60)%nat -> String.length (padStart2 (Number_toString (Z.of_nat n))) = 2%nat.
Proof.
  intros Hn.
  do 60 (destruct n as [|n]; [vm_compute; reflexivity|]). lia.
Qed.

(** X20.  For a time that is not negative the label shows the whole minutes
    and, with exactly two digits, the remaining whole seconds; the
    fraction of a second is dropped. *)
Theorem formatTime_minutes_seconds (seconds : Q) :
  (0 <= seconds)%Q ->
  let t := Qfloor seconds in
  formatTime seconds
  = Number_toString (t / 60) ++ ":" ++ padStart2 (Number_toString (t mod 60))
  /\ String.length (padStart2 (Number_toString (t mod 60))) = 2%nat
  /\ 0 <= t mod 60 < 60
  /\ 60 * (t / 60) + t mod 60 = t
  /\ formatTime (inject_Z t) = formatTime seconds.
Proof.
  intros Hs t.
  assert (Hfmt : forall q, (0 <= q)%Q ->
            formatTime q
            = Number_toString (Qfloor q / 60) ++ ":"
              ++ padStart2 (Number_toString (Qfloor q mod 60))).
  { intros q Hq. unfold formatTime, rem60, trunc, Math_floor.
    assert (Hd : (0 <= q / 60)%Q).
    { assert (E : (q == 60 * (q / 60))%Q) by field. revert E.
      generalize (q / 60)%Q. intros d E. lra. }
    rewrite (Qltb_false (q / 60) 0 Hd).
    rewrite Qfloor_sub_Z, Qfloor_div_60.
    replace (Qfloor q - 60 * (Qfloor q / 60)) with (Qfloor q mod 60)
      by (pose proof (Z.div_mod (Qfloor q) 60 ltac:(lia)); lia).
    reflexivity. }
  pose proof (Z.mod_pos_bound t 60 ltac:(lia)) as Hm.
  split; [apply Hfmt; exact Hs|]. split.
  - rewrite <- (Z2Nat.id (t mod 60)) by lia. apply two_digits. lia.
  - split; [exact Hm|]. split; [pose proof (Z.div_mod t 60 ltac:(lia)); lia|].
    assert (Ht : 0 <= t).
    { change 0 with (Qfloor 0). apply Qfloor_resp_le. exact Hs. }
    rewrite (Hfmt seconds Hs), (Hfmt (inject_Z t)).
    + rewrite Qfloor_Z. reflexivity.
    + rewrite Zle_Qle in Ht. exact Ht.
Qed.

Lemma formatTime_minutes_seconds_witness :
  formatTime (251 # 2)
  = Number_toString (125 / 60) ++ ":" ++ padStart2 (Number_toString (125 mod 60))
  /\ String.length (padStart2 (Number_toString (125 mod 60))) = 2%nat
  /\ 0 <= 125 mod 60 < 60
  /\ 60 * (125 / 60) + 125 mod 60 = 125
  /\ formatTime (inject_Z 125) = formatTime (251 # 2).
Proof.
  apply (formatTime_minutes_seconds (251 # 2)). vm_compute. discriminate.
Defined.

End TimeFormat.
